(** * SafePrompt: the analysis core of [extension.js]

    A shallow embedding of the pattern scanner, the prompt extractor, the
    enhancement client, the in-flight bookkeeping, the diagnostic store, the
    debounce scheduler and the two quick fixes, with the properties the
    specification states about them and further properties of the code. *)

From Stdlib Require Import ZArith NArith QArith Lia String Ascii List Sorted.
From stdpp Require Import base tactics option list gmap strings pretty.

Local Open Scope nat_scope.

(** ** JavaScript strings

    A JavaScript string is a sequence of UTF-16 code units.  Literals of the
    source are written [js "..."]. *)

Abbreviation jstr := (list N).

Definition js (s : string) : jstr := N_of_ascii <$> list_ascii_of_string s.
Arguments js s%_string.

Definition chr (a : ascii) : N := N_of_ascii a.
Arguments chr a%_char.

(** WhiteSpace and LineTerminator code units: what [\s] matches and what
    [String.prototype.trim] strips. *)
Definition is_line_terminator (c : N) : bool :=
  ((c =? 10) || (c =? 13) || (c =? 8232) || (c =? 8233))%N.

Definition is_space (c : N) : bool :=
  ((c =? 9) || (c =? 10) || (c =? 11) || (c =? 12) || (c =? 13) || (c =? 32)
   || (c =? 160) || (c =? 5760) || ((8192 <=? c) && (c <=? 8202))
   || (c =? 8232) || (c =? 8233) || (c =? 8239) || (c =? 8287)
   || (c =? 12288) || (c =? 65279))%N.

Definition to_upper (c : N) : N :=
  if ((97 <=? c) && (c <=? 122))%N then (c - 32)%N else c.

Definition to_lower (c : N) : N :=
  if ((65 <=? c) && (c <=? 90))%N then (c + 32)%N else c.

(** ** Regular expressions

    The constructs the patterns of [extension.js] use, with the backtracking
    semantics of ECMAScript: a matcher returns its successes in priority
    order, and the first one is the match. *)

Inductive class_item :=
| CChar (c : N)
| CRange (lo hi : N)
| CSpace.

Inductive re :=
| Empty
| Char (c : N)
| Dot
| Class (negated : bool) (items : list class_item)
| Seq (a b : re)
| Alt (a b : re)
| Star (a : re)
| Group (n : nat) (a : re)
| Backref (n : nat)
| Bol
| Eol.

(** [a+] and [a?] (both greedy). *)
Definition Plus (a : re) : re := Seq a (Star a).
Definition Opt (a : re) : re := Alt a Empty.

(** A literal run of characters. *)
Fixpoint Lit (s : jstr) : re :=
  match s with
  | [] => Empty
  | c :: s' => Seq (Char c) (Lit s')
  end.

Definition Space : re := Class false [CSpace].

Record regexp := RegExp { source : re; ignoreCase : bool }.

(** Canonicalize of the specification, without the [u] flag.  A code unit
    of 128 or more never folds to one below 128, and every pattern of this
    program is ASCII, so only the folding of ASCII letters is observable. *)
Definition canonicalize (ic : bool) (c : N) : N :=
  if ic then to_upper c else c.

(** The code units [a] with [canonicalize a = canonicalize c]. *)
Definition case_variants (ic : bool) (c : N) : list N :=
  if ic then [c; to_upper c; to_lower c] else [c].

Definition item_has (it : class_item) (c : N) : bool :=
  match it with
  | CChar a => (c =? a)%N
  | CRange lo hi => ((lo <=? c) && (c <=? hi))%N
  | CSpace => is_space c
  end.

(** Some member [a] of the set has [canonicalize a = canonicalize c]. *)
Definition class_has (ic : bool) (items : list class_item) (c : N) : bool :=
  existsb (fun it => existsb (item_has it) (case_variants ic c)) items.

Record mstate := MS { pos : nat; rest : jstr; caps : list (option jstr) }.

Definition advance (n : nat) (st : mstate) : mstate :=
  MS (pos st + n) (drop n (rest st)) (caps st).

Definition step_if (p : N → bool) (st : mstate) : list mstate :=
  match rest st with
  | c :: _ => if p c then [advance 1 st] else []
  | [] => []
  end.

Fixpoint ci_prefix (ic : bool) (w s : jstr) : bool :=
  match w, s with
  | [], _ => true
  | a :: w', c :: s' =>
      (canonicalize ic a =? canonicalize ic c)%N && ci_prefix ic w' s'
  | _ :: _, [] => false
  end.

(** The greedy loop of [a*]: one more iteration first, then stop.  An
    iteration that consumes nothing is rejected, so the length of the input
    left is fuel enough. *)
Fixpoint star_loop (m : mstate → list mstate) (fuel : nat) (st : mstate)
  : list mstate :=
  match fuel with
  | 0 => [st]
  | S fuel' =>
      (m st ≫= fun st1 =>
         if decide (length (rest st1) < length (rest st))
         then star_loop m fuel' st1 else [])
      ++ [st]
  end.

Fixpoint ms (ic : bool) (r : re) (st : mstate) : list mstate :=
  match r with
  | Empty => [st]
  | Char a => step_if (fun c => (canonicalize ic c =? canonicalize ic a)%N) st
  | Dot => step_if (fun c => negb (is_line_terminator c)) st
  | Class neg items => step_if (fun c => xorb neg (class_has ic items c)) st
  | Seq a b => ms ic a st ≫= ms ic b
  | Alt a b => ms ic a st ++ ms ic b st
  | Star a => star_loop (ms ic a) (length (rest st)) st
  | Group n a =>
      (fun st1 =>
         MS (pos st1) (rest st1)
            (<[n := Some (take (pos st1 - pos st) (rest st))]> (caps st1)))
      <$> ms ic a st
  | Backref n =>
      match caps st !! n with
      | Some (Some w) =>
          if ci_prefix ic w (rest st) then [advance (length w) st] else []
      | _ => [st]
      end
  | Bol => if decide (pos st = 0) then [st] else []
  | Eol => match rest st with [] => [st] | _ => [] end
  end.

(** The number of capture groups: the largest group index. *)
Fixpoint ngroups (r : re) : nat :=
  match r with
  | Seq a b | Alt a b => ngroups a `max` ngroups b
  | Star a => ngroups a
  | Group n a => n `max` ngroups a
  | _ => 0
  end.

(** The result of [RegExp.prototype.exec]: [m.index], [m[0]] and the
    captures ([m[k]] is [groups !! k]; [None] is [undefined]). *)
Record match_result :=
  MR { index : nat; matched : jstr; groups : list (option jstr) }.

Definition no_caps (r : re) : list (option jstr) :=
  replicate (S (ngroups r)) None.

Definition match_at (R : regexp) (p : nat) (s : jstr) : option match_result :=
  match ms (ignoreCase R) (source R) (MS p s (no_caps (source R))) with
  | st :: _ => Some (MR p (take (pos st - p) s) (caps st))
  | [] => None
  end.

(** The leftmost start position wins; [s] is the input from [p] on. *)
Fixpoint exec_from (R : regexp) (p : nat) (s : jstr) : option match_result :=
  match match_at R p s with
  | Some m => Some m
  | None =>
      match s with
      | [] => None
      | _ :: s' => exec_from R (S p) s'
      end
  end.

(** [str.match(R)] for a pattern without the [g] flag. *)
Definition str_match (s : jstr) (R : regexp) : option match_result :=
  exec_from R 0 s.

(** [R.test(s)]. *)
Definition test (R : regexp) (s : jstr) : bool :=
  if str_match s R is Some _ then true else false.

(** [m[k]]: a group that did not take part is [undefined]. *)
Definition group (m : match_result) (k : nat) : option jstr :=
  mjoin (groups m !! k).

(** [a || b] on a possibly undefined string: the empty string is falsy. *)
Definition or_else (a : option jstr) (b : jstr) : jstr :=
  match a with
  | Some (c :: s) => c :: s
  | _ => b
  end.

(** ** String methods *)

Definition starts_with (w s : jstr) : bool := ci_prefix false w s.

(** [s.indexOf(w)], with [-1] when [w] does not occur. *)
Fixpoint index_from (w : jstr) (p : nat) (s : jstr) : Z :=
  if starts_with w s then Z.of_nat p
  else match s with
       | [] => (-1)%Z
       | _ :: s' => index_from w (S p) s'
       end.

Definition indexOf (s w : jstr) : Z := index_from w 0 s.

Fixpoint trim_start (s : jstr) : jstr :=
  match s with
  | c :: s' => if is_space c then trim_start s' else s
  | [] => []
  end.

Definition trim (s : jstr) : jstr :=
  reverse (trim_start (reverse (trim_start s))).

(** [s.toUpperCase()].  The program applies it to the matched secret token
    only, which is made of ASCII letters, [_] and [-]. *)
Definition toUpperCase (s : jstr) : jstr := to_upper <$> s.

(** [s.split(R)] for a separator without groups: [p] is where the current
    piece starts, [q] the position tried, [piece] the input between them and
    [s] the input from [q] on. *)
Fixpoint split_from (R : regexp) (fuel p q : nat) (piece s : jstr)
  : list jstr :=
  match fuel, s with
  | 0, _ => [piece ++ s]
  | _, [] => [piece]
  | S fuel', c :: s' =>
      match match_at R q s with
      | Some m =>
          let e := q + length (matched m) in
          if decide (e = p)
          then split_from R fuel' p (S q) (piece ++ [c]) s'
          else piece :: split_from R fuel' e e [] (drop (length (matched m)) s)
      | None => split_from R fuel' p (S q) (piece ++ [c]) s'
      end
  end.

Definition split (s : jstr) (R : regexp) : list jstr :=
  match s with
  | [] => if match_at R 0 [] is Some _ then [] else [[]]
  | _ => split_from R (S (2 * length s)) 0 0 [] s
  end.

(** [s.replace(R, by)] without the [g] flag, for a replacement text
    without [$]. *)
Definition replace (s : jstr) (R : regexp) (new : jstr) : jstr :=
  match str_match s R with
  | Some m =>
      take (index m) s ++ new ++ drop (index m + length (matched m)) s
  | None => s
  end.

(** [s.replace(R, by)] with the [g] flag; [s] is the input from [p] on. *)
Fixpoint replace_all_from (R : regexp) (new : jstr) (fuel p : nat) (s : jstr)
  : jstr :=
  match fuel with
  | 0 => s
  | S fuel' =>
      match exec_from R p s with
      | Some m =>
          let k := index m - p in
          match matched m with
          | [] =>
              (* an empty match: the next search starts one unit later *)
              match drop k s with
              | [] => take k s ++ new
              | c :: s' =>
                  take k s ++ new
                    ++ c :: replace_all_from R new fuel' (S (index m)) s'
              end
          | _ =>
              let e := k + length (matched m) in
              take k s ++ new
                ++ replace_all_from R new fuel' (index m + length (matched m))
                     (drop e s)
          end
      | None => s
      end
  end.

Definition replace_all (s : jstr) (R : regexp) (new : jstr) : jstr :=
  replace_all_from R new (S (length s)) 0 s.

(** [array.forEach((x, i) => ...)] pushing to an accumulator. *)
Fixpoint forEach {A B : Type} (f : A → nat → B → B) (i : nat) (l : list A)
    (acc : B) : B :=
  match l with
  | [] => acc
  | x :: l' => forEach f (S i) l' (f x i acc)
  end.

(** ** The patterns of the program *)

Declare Scope re_scope.
Delimit Scope re_scope with re.
Bind Scope re_scope with re.
Infix "·" := Seq (at level 41, right associativity) : re_scope.
Infix "∣" := Alt (at level 46, right associativity) : re_scope.

Definition dquote : N := 34.

(** The class of the three quote characters, ['\x22`]. *)
Definition quote_chars : list class_item :=
  [CChar (chr "'"); CChar dquote; CChar (chr "`")].

(** [a-zA-Z0-9_] *)
Definition ident_chars : list class_item :=
  [CRange (chr "a") (chr "z"); CRange (chr "A") (chr "Z");
   CRange (chr "0") (chr "9"); CChar (chr "_")].

(** (api[_-]?key|apikey|secret|token) *)
Definition secret_kind : re :=
  Group 1
    ((Lit (js "api") · Opt (Class false [CChar (chr "_"); CChar (chr "-")])
        · Lit (js "key"))
     ∣ Lit (js "apikey") ∣ Lit (js "secret") ∣ Lit (js "token")).

(** /\r?\n/ *)
Definition newlineRegex : regexp :=
  RegExp (Opt (Char 13) · Char 10) false.

(** /(api[_-]?key|apikey|secret|token)\s*[:=]\s*['\x22`]([^'\x22`]+)['\x22`]/i *)
Definition secretRegex : regexp :=
  RegExp
    (secret_kind · Star Space · Class false [CChar (chr ":"); CChar (chr "=")]
       · Star Space · Class false quote_chars
       · Group 2 (Plus (Class true quote_chars)) · Class false quote_chars)
    true.

(** /(function\s+([a-zA-Z0-9_]+)\s*\(|const\s+([a-zA-Z0-9_]+)\s*=\s*\(.*\)\s*=>|def\s+([a-zA-Z0-9_]+)\s*\()/i *)
Definition funcRegex : regexp :=
  RegExp
    (Group 1
       ((Lit (js "function") · Plus Space
           · Group 2 (Plus (Class false ident_chars)) · Star Space
           · Char (chr "("))
        ∣ (Lit (js "const") · Plus Space
             · Group 3 (Plus (Class false ident_chars)) · Star Space
             · Char (chr "=") · Star Space · Char (chr "(") · Star Dot
             · Char (chr ")") · Star Space · Lit (js "=>"))
        ∣ (Lit (js "def") · Plus Space
             · Group 4 (Plus (Class false ident_chars)) · Star Space
             · Char (chr "("))))
    true.

(** /login|auth|getuser|admin/i *)
Definition sensitiveNameRegex : regexp :=
  RegExp
    (Lit (js "login") ∣ Lit (js "auth") ∣ Lit (js "getuser")
       ∣ Lit (js "admin"))
    true.

(** /role|authorize|auth|req.user|hasRole/i *)
Definition authKeywordRegex : regexp :=
  RegExp
    (Lit (js "role") ∣ Lit (js "authorize") ∣ Lit (js "auth")
       ∣ (Lit (js "req") · Dot · Lit (js "user")) ∣ Lit (js "hasRole"))
    true.

(** \s*(?:\/\/|#)\s*PROMPT\s*:\s* *)
Definition prompt_head : re :=
  Star Space · (Lit (js "//") ∣ Lit (js "#")) · Star Space
    · Lit (js "PROMPT") · Star Space · Char (chr ":") · Star Space.

(** /^\s*(?:\/\/|#)\s*PROMPT\s*:\s*(.+)$/i *)
Definition promptRegex : regexp :=
  RegExp (Bol · prompt_head · Group 1 (Plus Dot) · Eol) true.

(** /(api[_-]?key|apikey|secret|token)/i *)
Definition secretKindRegex : regexp := RegExp secret_kind true.

(** /(['\x22`])([^'\x22`]+)\1/ *)
Definition quotedRegex : regexp :=
  RegExp
    (Group 1 (Class false quote_chars)
       · Group 2 (Plus (Class true quote_chars)) · Backref 1)
    false.

(** /=['\x22`].*['\x22`]/ *)
Definition assignedLiteralRegex : regexp :=
  RegExp
    (Char (chr "=") · Class false quote_chars · Star Dot
       · Class false quote_chars)
    false.

(** /[^A-Z0-9_]/g *)
Definition nonEnvCharRegex : regexp :=
  RegExp
    (Class true
       [CRange (chr "A") (chr "Z"); CRange (chr "0") (chr "9");
        CChar (chr "_")])
    false.

(** ** Documents and diagnostics *)

Record Document := { uri : jstr; languageId : jstr; getText : jstr }.

(** The lines of the document, as the program splits them. *)
Definition doc_lines (document : Document) : list jstr :=
  split (getText document) newlineRegex.

(** [document.lineAt(n).text]; [None] when the editor throws because the
    document has no line [n].  The editor hands out the text with its line
    ends normalised, so its lines are those of the split. *)
Definition lineAt (document : Document) (n : nat) : option jstr :=
  doc_lines document !! n.

Inductive DiagnosticSeverity := Error | Warning | Information | Hint.

Record Range :=
  { startLine : nat; startCol : nat; endLine : nat; endCol : nat }.

(** [new vscode.Range(l1, c1, l2, c2)]: the editor orders the two ends. *)
Definition new_Range (l1 c1 l2 c2 : nat) : Range :=
  if decide (l1 < l2 ∨ (l1 = l2 ∧ c1 ≤ c2))
  then {| startLine := l1; startCol := c1; endLine := l2; endCol := c2 |}
  else {| startLine := l2; startCol := c2; endLine := l1; endCol := c1 |}.

Record Diagnostic :=
  { range : Range; message : jstr; severity : DiagnosticSeverity;
    code : jstr }.

Definition hardcoded_secret : jstr := js "SafePrompt.hardcoded_secret".
Definition missing_auth : jstr := js "SafePrompt.missing_auth".
Definition enhanced_prompt_loading : jstr :=
  js "SafePrompt.enhanced_prompt_loading".
Definition enhanced_prompt : jstr := js "SafePrompt.enhanced_prompt".
Definition enhanced_prompt_failed : jstr :=
  js "SafePrompt.enhanced_prompt_failed".

(** ** The pattern scanner: [findIssuesWithRegex] *)

Definition secret_message : jstr :=
  js "Hardcoded secret detected. Consider using environment variables.".

Definition missing_auth_message (name : jstr) : jstr :=
  js "Possible missing authorization check in function " ++ [dquote] ++ name
    ++ [dquote] ++ js ".".

Definition secret_rule (line : jstr) (i : nat) (diagnostics : list Diagnostic)
  : list Diagnostic :=
  match str_match line secretRegex with
  | Some m =>
      let startCol :=
        if (0 <=? indexOf line (matched m))%Z
        then Z.to_nat (indexOf line (matched m)) else 0 in
      let range := new_Range i startCol i (length line) in
      diagnostics ++ [{| range := range; message := secret_message;
                         severity := Warning; code := hardcoded_secret |}]
  | None => diagnostics
  end.

(** The loop over [j] from [i] to [min(lines.length, i + 8)]. *)
Definition has_auth (lines : list jstr) (i : nat) : bool :=
  existsb (test authKeywordRegex)
    (take (length lines `min` (i + 8) - i) (drop i lines)).

Definition extracted_name (m : match_result) : jstr :=
  or_else (group m 2) (or_else (group m 3) (or_else (group m 4) [])).

Definition auth_rule (lines : list jstr) (line : jstr) (i : nat)
    (diagnostics : list Diagnostic) : list Diagnostic :=
  match str_match line funcRegex with
  | Some m =>
      let name := extracted_name m in
      if test sensitiveNameRegex name then
        if has_auth lines i then diagnostics
        else
          let range := new_Range i 0 i (length line) in
          diagnostics ++ [{| range := range;
                             message := missing_auth_message name;
                             severity := Warning; code := missing_auth |}]
      else diagnostics
  | None => diagnostics
  end.

Definition findIssuesWithRegex (document : Document) : list Diagnostic :=
  let diagnostics := [] in
  let lines := doc_lines document in
  let diagnostics := forEach secret_rule 0 lines diagnostics in
  let diagnostics := forEach (auth_rule lines) 0 lines diagnostics in
  diagnostics.

(** ** Process environment and the enhancement client *)

Record Env := { NVIDIA_API : option jstr; OPENAI_API_KEY : option jstr }.

(** Truthiness of a possibly undefined string. *)
Definition truthy (v : option jstr) : bool :=
  match v with
  | Some (_ :: _) => true
  | _ => false
  end.

(** The start-up statement: [NVIDIA_API] stands in for a missing
    [OPENAI_API_KEY]. *)
Definition startup (env : Env) : Env :=
  if truthy (NVIDIA_API env) && negb (truthy (OPENAI_API_KEY env))
  then {| NVIDIA_API := NVIDIA_API env; OPENAI_API_KEY := NVIDIA_API env |}
  else env.

(** A thrown value: [err.message] and [String(err)]. *)
Record JsError := { err_message : option jstr; err_text : jstr }.

(** [new Error(msg)]: its text is [Error: msg], and [Error] alone when the
    message is empty. *)
Definition new_Error (msg : jstr) : JsError :=
  {| err_message := Some msg;
     err_text := match msg with
                 | [] => js "Error"
                 | _ => js "Error: " ++ msg
                 end |}.

(** The error of [document.lineAt] on a line the document does not have. *)
Definition illegal_line : JsError := new_Error (js "Illegal value for `line`").

Record ChatRequest :=
  { model : jstr; messages : list (jstr * jstr); temperature : Q;
    top_p : Z; max_tokens : Z }.

Definition systemPrompt : jstr :=
  js "You are a secure coding assistant. Enhance a developer's code-generation prompt by adding security best practices (authentication, input validation, avoiding hardcoded secrets, RBAC, CSRF protections, secure defaults). Produce a short enhanced prompt.".

Definition userMessage (userPrompt : jstr) : jstr :=
  js "Enhance this code-generation prompt with security best practices: "
    ++ [dquote] ++ userPrompt ++ [dquote].

Definition missing_key_message : jstr :=
  js "OPENAI_API_KEY is not set (map NVIDIA_API -> OPENAI_API_KEY or set it directly).".

(** What the body of a request is suspended on: the client threw before
    calling out, or the remote call is under way. *)
Inductive Awaited :=
| Rejected (err : JsError)
| Remote (request : ChatRequest).

(** How the remote call ends: with [completion?.choices?.[0]?.message?.content]
    or with a thrown error. *)
Inductive RemoteOutcome :=
| Completed (content : option jstr)
| Failed (err : JsError).

(** [getEnhancedPromptFromNvidia], up to its [await]. *)
Definition getEnhancedPromptFromNvidia (env : Env) (userPrompt : jstr)
  : Awaited :=
  if negb (truthy (OPENAI_API_KEY env))
  then Rejected (new_Error missing_key_message)
  else
    Remote {| model := js "nvidia/llama-3.1-nemotron-70b-instruct";
              messages := [(js "system", systemPrompt);
                           (js "user", userMessage userPrompt)];
              temperature := 2 # 10; top_p := 1; max_tokens := 180 |}.

(** [getEnhancedPromptFromNvidia], after its [await]. *)
Definition getEnhancedPromptFromNvidia_resume (outcome : RemoteOutcome)
  : JsError + jstr :=
  match outcome with
  | Failed err => inl err
  | Completed enhanced =>
      if truthy enhanced && truthy (trim <$> enhanced)
      then inr (trim (default [] enhanced))
      else inl (new_Error (js "Empty response from NVIDIA model"))
  end.

(** What [await getEnhancedPromptFromNvidia(userPrompt)] yields. *)
Definition awaited_result (wait : Awaited) (outcome : RemoteOutcome)
  : JsError + jstr :=
  match wait with
  | Rejected err => inl err
  | Remote _ => getEnhancedPromptFromNvidia_resume outcome
  end.

(** ** The shared state of the extension *)

(** An entry of a document's timer map: the debounce timer under
    [__docTimer], or [true] under [inflight_<line>]. *)
Inductive timer_entry := DocTimer (handle : nat) | InFlight.

(** A suspended [async] body: the request of [triggerEnhancementRequest]
    for a line, or [runSecurityScanAndEnhanced] after its [await]. *)
Inductive Task :=
| EnhanceTask (docKey : jstr) (lineNumber : nat) (wait : Awaited)
| PublishTask (docKey : jstr) (securityDiags : list Diagnostic).

Record World :=
  { env : Env;
    pendingTimers : gmap jstr (gmap jstr timer_entry);
    enhancedDiagnosticsStore : gmap jstr (list Diagnostic);
    diagnosticCollection : gmap jstr (list Diagnostic);
    (* the calls made so far, oldest first *)
    clientCalls : list jstr;
    remoteCalls : list ChatRequest;
    tasks : list Task }.

(** The state once the module is loaded.  The start-up code also builds
    the client of the remote service from [OPENAI_API_KEY]; the library
    refuses an undefined key, so the extension runs only where the variable
    is defined by then, be it as the empty string. *)
Definition init_world (e : Env) : World :=
  {| env := startup e; pendingTimers := ∅; enhancedDiagnosticsStore := ∅;
     diagnosticCollection := ∅; clientCalls := []; remoteCalls := [];
     tasks := [] |}.

Definition set_pendingTimers (t : gmap jstr (gmap jstr timer_entry))
    (w : World) : World :=
  {| env := env w; pendingTimers := t;
     enhancedDiagnosticsStore := enhancedDiagnosticsStore w;
     diagnosticCollection := diagnosticCollection w;
     clientCalls := clientCalls w; remoteCalls := remoteCalls w;
     tasks := tasks w |}.

Definition set_store (docKey : jstr) (ds : list Diagnostic) (w : World)
  : World :=
  {| env := env w; pendingTimers := pendingTimers w;
     enhancedDiagnosticsStore := <[docKey := ds]> (enhancedDiagnosticsStore w);
     diagnosticCollection := diagnosticCollection w;
     clientCalls := clientCalls w; remoteCalls := remoteCalls w;
     tasks := tasks w |}.

(** [diagnosticCollection.set(document.uri, ds)] *)
Definition publish (docKey : jstr) (ds : list Diagnostic) (w : World)
  : World :=
  {| env := env w; pendingTimers := pendingTimers w;
     enhancedDiagnosticsStore := enhancedDiagnosticsStore w;
     diagnosticCollection := <[docKey := ds]> (diagnosticCollection w);
     clientCalls := clientCalls w; remoteCalls := remoteCalls w;
     tasks := tasks w |}.

Definition set_tasks (ts : list Task) (w : World) : World :=
  {| env := env w; pendingTimers := pendingTimers w;
     enhancedDiagnosticsStore := enhancedDiagnosticsStore w;
     diagnosticCollection := diagnosticCollection w;
     clientCalls := clientCalls w; remoteCalls := remoteCalls w;
     tasks := ts |}.

(** [enhancedDiagnosticsStore.get(docKey) || []] *)
Definition stored (w : World) (docKey : jstr) : list Diagnostic :=
  default [] (enhancedDiagnosticsStore w !! docKey).

(** ** [triggerEnhancementRequest] *)

Definition inFlightKey (lineNumber : nat) : jstr :=
  js "inflight_" ++ js (pretty lineNumber).

(** [timersMap.get(inFlightKey)] is truthy. *)
Definition in_flight (w : World) (docKey : jstr) (lineNumber : nat) : bool :=
  match pendingTimers w !! docKey with
  | Some timersMap =>
      if timersMap !! inFlightKey lineNumber is Some _ then true else false
  | None => false
  end.

(** The part of [triggerEnhancementRequest] that runs at once: the guard,
    the marker, and the body of the request up to its [await]. *)
Definition triggerEnhancementRequest (document : Document) (lineNumber : nat)
    (userPrompt : jstr) (w : World) : World :=
  let docKey := uri document in
  let w :=
    if pendingTimers w !! docKey is Some _ then w
    else set_pendingTimers (<[docKey := ∅]> (pendingTimers w)) w in
  let timersMap := default ∅ (pendingTimers w !! docKey) in
  if timersMap !! inFlightKey lineNumber is Some _ then w
  else
    let timersMap := <[inFlightKey lineNumber := InFlight]> timersMap in
    let wait := getEnhancedPromptFromNvidia (env w) userPrompt in
    {| env := env w;
       pendingTimers := <[docKey := timersMap]> (pendingTimers w);
       enhancedDiagnosticsStore := enhancedDiagnosticsStore w;
       diagnosticCollection := diagnosticCollection w;
       clientCalls := clientCalls w ++ [userPrompt];
       remoteCalls :=
         remoteCalls w ++ (if wait is Remote request then [request] else []);
       tasks := tasks w ++ [EnhanceTask docKey lineNumber wait] |}.

(** [String(err.message || err)] *)
Definition failure_reason (err : JsError) : jstr :=
  match err_message err with
  | Some (c :: m) => c :: m
  | _ => err_text err
  end.

Definition enhanced_diagnostic (lineNumber : nat) (line enhanced : jstr)
  : Diagnostic :=
  {| range := new_Range lineNumber 0 lineNumber (1 `max` length line);
     message := js "[NVIDIA] " ++ enhanced;
     severity := Warning; code := enhanced_prompt |}.

Definition failed_diagnostic (lineNumber : nat) (line : jstr) (err : JsError)
  : Diagnostic :=
  {| range := new_Range lineNumber 0 lineNumber (1 `max` length line);
     message := js "[NVIDIA] Failed to generate enhancement: "
                  ++ failure_reason err;
     severity := Warning; code := enhanced_prompt_failed |}.

(** The statements that end both the [try] and the [catch] block: replace
    the stored diagnostic of the line, then publish. *)
Definition store_and_publish (document : Document) (lineNumber : nat)
    (diag : Diagnostic) (w : World) : World :=
  let docKey := uri document in
  let filtered :=
    filter (λ d, startLine (range d) ≠ lineNumber) (stored w docKey)
      ++ [diag] in
  let w := set_store docKey filtered w in
  let securityDiags := findIssuesWithRegex document in
  publish (uri document) (filtered ++ securityDiags) w.

(** The body of the request after its [await]: [document] is the document
    as it is by then, [result] what the client call yielded.  The second
    component is the error that leaves the body, if one does. *)
Definition settle (document : Document) (lineNumber : nat)
    (result : JsError + jstr) (w : World) : World * option JsError :=
  let docKey := uri document in
  let attempt : JsError + Diagnostic :=
    match result with
    | inr enhanced =>
        match lineAt document lineNumber with
        | Some line => inr (enhanced_diagnostic lineNumber line enhanced)
        | None => inl illegal_line
        end
    | inl err => inl err
    end in
  let '(w, thrown) :=
    match attempt with
    | inr diag => (store_and_publish document lineNumber diag w, None)
    | inl err =>
        (* catch (err) *)
        match lineAt document lineNumber with
        | Some line =>
            (store_and_publish document lineNumber
               (failed_diagnostic lineNumber line err) w, None)
        | None => (w, Some illegal_line)
        end
    end in
  (* finally *)
  (set_pendingTimers
     (alter (delete (inFlightKey lineNumber)) docKey (pendingTimers w)) w,
   thrown).

(** ** [detectAndEnhancePrompts] and [runSecurityScanAndEnhanced] *)

Definition isTargetDoc (document : Document) : bool :=
  bool_decide
    (languageId document
       ∈ [js "javascript"; js "javascriptreact"; js "python"]).

(** The [m] and [userPrompt] of the loop: [None] when the line does not
    match and the loop continues.  Group 1 takes part in every match. *)
Definition userPrompt_of (line : jstr) : option jstr :=
  m ← str_match line promptRegex;
  Some (trim (default [] (group m 1))).

Definition loading_diagnostic (i : nat) (line : jstr) : Diagnostic :=
  {| range := new_Range i 0 i (1 `max` length line);
     message := js "[NVIDIA] Loading enhanced prompt...";
     severity := Information; code := enhanced_prompt_loading |}.

Definition detect_line (document : Document) (line : jstr) (i : nat)
    (acc : list Diagnostic * World) : list Diagnostic * World :=
  match userPrompt_of line with
  | None => acc
  | Some userPrompt =>
      (acc.1 ++ [loading_diagnostic i line],
       triggerEnhancementRequest document i userPrompt acc.2)
  end.

Definition detectAndEnhancePrompts (document : Document) (w : World)
  : World :=
  if negb (isTargetDoc document) then w
  else
    let lines := doc_lines document in
    let '(newEnhancedDiags, w) :=
      forEach (detect_line document) 0 lines ([], w) in
    let w := set_store (uri document) newEnhancedDiags w in
    let securityDiags := findIssuesWithRegex document in
    publish (uri document) (newEnhancedDiags ++ securityDiags) w.

(** The (line, prompt) pairs the loop of [detectAndEnhancePrompts] hands to
    [triggerEnhancementRequest], in the order of the calls. *)
Definition extractPrompts (document : Document) : list (nat * jstr) :=
  if negb (isTargetDoc document) then []
  else
    forEach
      (λ line i acc,
         match userPrompt_of line with
         | None => acc
         | Some userPrompt => acc ++ [(i, userPrompt)]
         end)
      0 (doc_lines document) [].

(** [runSecurityScanAndEnhanced] up to its [await]. *)
Definition runSecurityScanAndEnhanced (document : Document) (w : World)
  : World :=
  let securityDiags := findIssuesWithRegex document in
  let w := detectAndEnhancePrompts document w in
  set_tasks (tasks w ++ [PublishTask (uri document) securityDiags]) w.

(** [runSecurityScanAndEnhanced] after its [await]. *)
Definition runSecurityScanAndEnhanced_resume (docKey : jstr)
    (securityDiags : list Diagnostic) (w : World) : World :=
  let enhancedDiags := stored w docKey in
  let merged := enhancedDiags ++ securityDiags in
  publish docKey merged w.

(** ** The event loop

    A scan is started (by the [SafePrompt.runScan] command, at activation,
    or when the debounce timer of [scheduleDetectAndEnhancePrompts] fires),
    or a suspended body continues.  A request continues with the document
    as it is by then and with the outcome of its remote call. *)
Inductive Event :=
| Scan (document : Document)
| Continue (k : nat) (document : Document) (outcome : RemoteOutcome).

Definition step (w : World) (e : Event) : World :=
  match e with
  | Scan document => runSecurityScanAndEnhanced document w
  | Continue k document outcome =>
      match tasks w !! k with
      | Some (EnhanceTask docKey lineNumber wait) =>
          if decide (uri document = docKey)
          then (settle document lineNumber (awaited_result wait outcome)
                  (set_tasks (delete k (tasks w)) w)).1
          else w
      | Some (PublishTask docKey securityDiags) =>
          runSecurityScanAndEnhanced_resume docKey securityDiags
            (set_tasks (delete k (tasks w)) w)
      | None => w
      end
  end.

Definition run (events : list Event) (w : World) : World :=
  foldl step w events.

(** ** The quick fix for hardcoded secrets *)

Record TextEdit := { edit_range : Range; newText : jstr }.

Record CodeAction :=
  { title : jstr; diagnostics : list Diagnostic; edit : TextEdit;
    command : jstr; command_title : jstr }.

(** The body of the loop of [provideCodeActions] for a diagnostic with the
    code [hardcoded_secret]; [None] when [document.lineAt] throws. *)
Definition secret_fix (document : Document) (range : Range)
    (diag : Diagnostic) : option CodeAction :=
  line ← lineAt document (startLine range);
  let envName :=
    match str_match line secretKindRegex with
    | Some secretMatch =>
        replace_all (toUpperCase (default [] (group secretMatch 1)))
          nonEnvCharRegex (js "_")
    | None => js "SECRET"
    end in
  let edit :=
    match str_match line quotedRegex with
    | Some quoteMatch =>
        let quoteStart := Z.to_nat (indexOf line (matched quoteMatch)) in
        let quoteEnd := quoteStart + length (matched quoteMatch) in
        {| edit_range :=
             new_Range (startLine range) quoteStart (startLine range) quoteEnd;
           newText := js "process.env." ++ envName |}
    | None =>
        {| edit_range :=
             new_Range (startLine range) 0 (startLine range) (length line);
           newText :=
             replace line assignedLiteralRegex
               (js "= process.env." ++ envName) |}
    end in
  Some {| title := js "Replace literal with process.env reference";
          diagnostics := [diag]; edit := edit;
          command := js "SafePrompt.runScan";
          command_title := js "Rescan (SafePrompt)" |}.

(** [HardcodedSecretCodeActionProvider.provideCodeActions]. *)
Fixpoint provideCodeActions (document : Document) (range : Range)
    (context_diagnostics : list Diagnostic) : option (list CodeAction) :=
  match context_diagnostics with
  | [] => Some []
  | diag :: rest =>
      if decide (code diag = hardcoded_secret) then
        fix_ ← secret_fix document range diag;
        actions ← provideCodeActions document range rest;
        Some (fix_ :: actions)
      else provideCodeActions document range rest
  end.

(** The text of a line after the editor applies an edit that lies within
    the line. *)
Definition apply_edit (line : jstr) (e : TextEdit) : jstr :=
  take (startCol (edit_range e)) line ++ newText e
    ++ drop (endCol (edit_range e)) line.

(** ** The quick fix for enhanced prompts *)

(** /^\[NVIDIA\]\s*/ *)
Definition nvidiaTagRegex : regexp :=
  RegExp (Bol · Lit (js "[NVIDIA]") · Star Space) false.

(** /^\[Enhanced\]\s*/ *)
Definition enhancedTagRegex : regexp :=
  RegExp (Bol · Lit (js "[Enhanced]") · Star Space) false.

(** A code action whose edit inserts [insert_text] at the position
    [insert_at] (a line and a column). *)
Record InsertAction :=
  { insert_title : jstr; insert_at : nat * nat; insert_text : jstr }.

Module EnhancedPromptCodeActionProvider.

(** The body of the loop for a diagnostic with the code
    [enhanced_prompt]. *)
Definition enhanced_fix (range : Range) (diag : Diagnostic) : InsertAction :=
  let message :=
    replace (replace (message diag) nvidiaTagRegex []) enhancedTagRegex [] in
  {| insert_title := js "Insert enhanced prompt below";
     insert_at := (endLine range + 1, 0);
     insert_text := js "# ENHANCED_PROMPT: " ++ message ++ [10%N] |}.

Fixpoint provideCodeActions (document : Document) (range : Range)
    (context_diagnostics : list Diagnostic) : list InsertAction :=
  match context_diagnostics with
  | [] => []
  | diag :: rest =>
      if decide (code diag = enhanced_prompt)
      then enhanced_fix range diag :: provideCodeActions document range rest
      else provideCodeActions document range rest
  end.

End EnhancedPromptCodeActionProvider.

(** ** The debounce scheduler *)

(** A timer set with [setTimeout]: the document its callback scans and the
    time, in milliseconds, from which it may run. *)
Record Timeout := { timer_doc : jstr; due : nat }.

(** The extension in its host: the shared state, the clock, the timers
    that are set and the next timer handle. *)
Record Host :=
  { world : World; clock : nat; timeouts : gmap nat Timeout;
    next_timer : nat }.

Definition init_host (e : Env) : Host :=
  {| world := init_world e; clock := 0; timeouts := ∅; next_timer := 0 |}.

Definition set_world (w : World) (h : Host) : Host :=
  {| world := w; clock := clock h; timeouts := timeouts h;
     next_timer := next_timer h |}.

Definition setTimeout (docKey : jstr) (delayMs : nat) (h : Host)
  : nat * Host :=
  let t := next_timer h in
  (t, {| world := world h; clock := clock h;
         timeouts :=
           <[t := {| timer_doc := docKey; due := clock h + delayMs |}]>
             (timeouts h);
         next_timer := S t |}).

Definition clearTimeout (t : nat) (h : Host) : Host :=
  {| world := world h; clock := clock h; timeouts := delete t (timeouts h);
     next_timer := next_timer h |}.

Definition docTimerKey : jstr := js "__docTimer".

(** [scheduleDetectAndEnhancePrompts(document, delayMs)].  A timer handle
    is an object, hence truthy. *)
Definition scheduleDetectAndEnhancePrompts (document : Document)
    (delayMs : nat) (h : Host) : Host :=
  let key := uri document in
  let w := world h in
  let w :=
    if pendingTimers w !! key is Some _ then w
    else set_pendingTimers (<[key := ∅]> (pendingTimers w)) w in
  let timersMap := default ∅ (pendingTimers w !! key) in
  let h :=
    match timersMap !! docTimerKey with
    | Some (DocTimer t) => clearTimeout t h
    | _ => h
    end in
  let '(t, h) := setTimeout key delayMs h in
  let timersMap := <[docTimerKey := DocTimer t]> timersMap in
  set_world (set_pendingTimers (<[key := timersMap]> (pendingTimers w)) w) h.

(** The callback of the timer: it forgets the timer and starts a scan of
    [document], the document as it is by then. *)
Definition timer_callback (document : Document) (w : World) : World :=
  let w :=
    set_pendingTimers
      (alter (delete docTimerKey) (uri document) (pendingTimers w)) w in
  runSecurityScanAndEnhanced document w.

(** What happens in the host: a document is changed, opened or saved; time
    passes; a timer that is due runs its callback; or the extension takes a
    step of its own. *)
Inductive HostEvent :=
| Changed (document : Document)
| Elapse (ms : nat)
| TimerFires (t : nat) (document : Document)
| Extension (e : Event).

Definition host_step (h : Host) (e : HostEvent) : Host :=
  match e with
  | Changed document => scheduleDetectAndEnhancePrompts document 800 h
  | Elapse ms =>
      {| world := world h; clock := clock h + ms; timeouts := timeouts h;
         next_timer := next_timer h |}
  | TimerFires t document =>
      match timeouts h !! t with
      | Some tm =>
          if decide (timer_doc tm = uri document ∧ due tm ≤ clock h)
          then set_world (timer_callback document (world h))
                 (clearTimeout t h)
          else h
      | None => h
      end
  | Extension e => set_world (step (world h) e) h
  end.

Definition host_run (events : list HostEvent) (h : Host) : Host :=
  foldl host_step h events.

(** * The vocabulary of the specification

    What follows is not taken from the program: it says, in the words of
    the specification, what the patterns are meant to find and what the
    store is meant to hold.  The properties relate it to the program. *)

(** ** Words in a line *)

(** A word of [L] occurs in [s]. *)
Definition occurs_in (L : jstr → Prop) (s : jstr) : Prop :=
  ∃ pre w post, s = pre ++ w ++ post ∧ L w.

(** The first place in [s] where a word of [L] starts: [s] is [pre], then
    the word [w], then [post]. *)
Definition leftmost (L : jstr → Prop) (s pre w post : jstr) : Prop :=
  s = pre ++ w ++ post ∧ L w ∧
  ∀ pre' w' post', s = pre' ++ w' ++ post' → L w' → length pre ≤ length pre'.

(** Equal up to the case of ASCII letters. *)
Definition ci_eq (w s : jstr) : Prop := to_upper <$> w = to_upper <$> s.

(** [s] contains [kw], case-insensitively. *)
Definition ci_contains (s kw : jstr) : Prop := occurs_in (λ w, ci_eq w kw) s.

Definition whitespace (w : jstr) : Prop := Forall (λ c, is_space c = true) w.

Definition is_quote (c : N) : Prop := c = chr "'" ∨ c = dquote ∨ c = chr "`".

Definition letter (a : N) : Prop := (65 ≤ a ≤ 90 ∨ 97 ≤ a ≤ 122)%N.

(** ** The language of a pattern *)

(** Patterns without back-references and assertions. *)
Fixpoint regular (r : re) : bool :=
  match r with
  | Seq a b | Alt a b => regular a && regular b
  | Star a | Group _ a => regular a
  | Backref _ | Bol | Eol => false
  | _ => true
  end.

(** Patterns that, in addition, capture nothing. *)
Fixpoint pure (r : re) : bool :=
  match r with
  | Seq a b | Alt a b => pure a && pure b
  | Star a => pure a
  | Group _ _ | Backref _ | Bol | Eol => false
  | _ => true
  end.

(** The words of a regular pattern. *)
Fixpoint lang (ic : bool) (r : re) (w : jstr) : Prop :=
  match r with
  | Empty => w = []
  | Char a => ∃ c, w = [c] ∧ canonicalize ic c = canonicalize ic a
  | Dot => ∃ c, w = [c] ∧ is_line_terminator c = false
  | Class neg items => ∃ c, w = [c] ∧ xorb neg (class_has ic items c) = true
  | Seq a b => ∃ u v, w = u ++ v ∧ lang ic a u ∧ lang ic b v
  | Alt a b => lang ic a w ∨ lang ic b w
  | Star a => ∃ ws, w = concat ws ∧ Forall (λ x, x ≠ [] ∧ lang ic a x) ws
  | Group _ a => lang ic a w
  | Backref _ | Bol | Eol => False
  end.

Definition Lang (R : regexp) : jstr → Prop := lang (ignoreCase R) (source R).

Definition Regular (R : regexp) : Prop := regular (source R) = true.

(** A pattern whose words are the single characters that satisfy [p]. *)
Definition one_char (ic : bool) (a : re) (p : N → bool) : Prop :=
  ∀ x, lang ic a x ↔ ∃ c, x = [c] ∧ p c = true.

(** [R] matches at a position exactly when a word of [L] starts there, and
    what it matches is a word of [L]. *)
Definition recognises (R : regexp) (L : jstr → Prop) : Prop :=
  (∀ p s m, match_at R p s = Some m →
     index m = p ∧ ∃ post, s = matched m ++ post ∧ L (matched m)) ∧
  (∀ p w post, L w → is_Some (match_at R p (w ++ post))).

(** A capture set during a match is a piece of the input consumed. *)
Definition caps_within (st st' : mstate) : Prop :=
  ∀ n v, caps st' !! n = Some (Some v) →
    caps st !! n = Some (Some v) ∨ ∃ a b, rest st = a ++ v ++ b ++ rest st'.

(** ** Hardcoded secrets *)

(** One of the five tokens, in any case. *)
Definition secret_token (tok : jstr) : Prop :=
  ∃ name,
    name ∈ [js "api_key"; js "apikey"; js "api-key"; js "secret"; js "token"]
    ∧ ci_eq tok name.

(** A literal in quotes: an opening quote, text without quotes, a closing
    quote. *)
Definition quoted_literal (w : jstr) : Prop :=
  ∃ q1 lit q2, w = q1 :: lit ++ [q2] ∧ is_quote q1 ∧ is_quote q2 ∧
    lit ≠ [] ∧ Forall (λ c, ¬ is_quote c) lit.

(** A token, a colon or an equals sign, a quoted literal. *)
Definition secret_assignment (w : jstr) : Prop :=
  ∃ tok ws1 sep ws2 lit,
    w = tok ++ ws1 ++ sep :: ws2 ++ lit ∧ secret_token tok ∧ whitespace ws1 ∧
    (sep = chr ":" ∨ sep = chr "=") ∧ whitespace ws2 ∧ quoted_literal lit.

Definition line_range (l : nat) (c1 c2 : nat) : Range :=
  {| startLine := l; startCol := c1; endLine := l; endCol := c2 |}.

Abbreviation on_line i d := (startLine (range d) = i).

(** ** Missing authorization *)

(** The names the rule looks at, and the keywords that count as an
    authorization check. *)
Definition sensitive_names : list jstr :=
  [js "login"; js "auth"; js "getuser"; js "admin"].

Definition auth_keywords : list jstr :=
  [js "role"; js "authorize"; js "auth"; js "req.user"; js "hasRole"].

(** The lines inspected for a definition on line [i]: up to eight, from
    line [i] on. *)
Definition auth_window (lines : list jstr) (i : nat) : list jstr :=
  take 8 (drop i lines).

(** ** Prompt lines *)

(** The head of a prompt line: a comment marker, [PROMPT], a colon. *)
Definition prompt_marker (h : jstr) : Prop :=
  ∃ ws1 marker ws2 kw ws3,
    h = ws1 ++ marker ++ ws2 ++ kw ++ ws3 ++ [chr ":"] ∧
    whitespace ws1 ∧ (marker = js "//" ∨ marker = js "#") ∧ whitespace ws2 ∧
    ci_eq kw (js "PROMPT") ∧ whitespace ws3.

(** The text after the colon: some characters of the line, after optional
    whitespace. *)
Definition prompt_text (t : jstr) : Prop :=
  ∃ ws txt, t = ws ++ txt ∧ whitespace ws ∧ txt ≠ [] ∧
    Forall (λ c, is_line_terminator c = false) txt.

(** [line] is a prompt line and [text] is what follows its colon. *)
Definition prompt_line (line text : jstr) : Prop :=
  ∃ h, line = h ++ text ∧ prompt_marker h ∧ prompt_text text.

(** The loading diagnostic the loop pushes for a line, if any. *)
Definition loading_of (j : nat) (x : jstr) : list Diagnostic :=
  from_option (λ _, [loading_diagnostic j x]) [] (userPrompt_of x).

(** ** The diagnostic store *)

(** The stored enhancement diagnostics of one line of a document. *)
Definition slot (w : World) (docKey : jstr) (i : nat) : list Diagnostic :=
  filter (λ d, on_line i d) (stored w docKey).

(** The diagnostic a settled request leaves on its line. *)
Definition outcome_diagnostic (i : nat) (line : jstr) (result : JsError + jstr)
  : Diagnostic :=
  match result with
  | inr enhanced => enhanced_diagnostic i line enhanced
  | inl err => failed_diagnostic i line err
  end.

(** No two stored diagnostics of a document start on the same line. *)
Definition store_inv (w : World) : Prop :=
  ∀ docKey ds, enhancedDiagnosticsStore w !! docKey = Some ds →
    NoDup ((λ d, startLine (range d)) <$> ds).

(** ** The quick fix *)

(** A literal between two quotes of the same kind. *)
Definition same_quoted (w : jstr) : Prop :=
  ∃ q lit, w = q :: lit ++ [q] ∧ is_quote q ∧ lit ≠ [] ∧
    Forall (λ c, ¬ is_quote c) lit.

(** An equals sign, a quote at once, and a later quote on the line. *)
Definition assigned_literal (w : jstr) : Prop :=
  ∃ q1 mid q2, w = chr "=" :: q1 :: mid ++ [q2] ∧ is_quote q1 ∧ is_quote q2 ∧
    Forall (λ c, is_line_terminator c = false) mid.

Definition is_env_char (c : N) : bool :=
  ((65 <=? c) && (c <=? 90) || (48 <=? c) && (c <=? 57) || (c =? 95))%N.

(** The name of the environment variable for a secret token: upper case,
    with [_] for every character outside [A-Z0-9_]. *)
Definition env_name (tok : jstr) : jstr :=
  (λ c, if is_env_char c then c else chr "_") <$> toUpperCase tok.

(** The edited line of a fix requested on the first line of a document. *)
Definition fixed_line (document : Document) (diag : Diagnostic)
  : option jstr :=
  line ← lineAt document 0;
  action ← secret_fix document (line_range 0 0 0) diag;
  Some (apply_edit line (edit action)).

(** ** Example documents *)

Definition newline : jstr := [10%N].

(** No credential: [OPENAI_API_KEY] is defined, as the empty string. *)
Definition no_key : Env :=
  {| NVIDIA_API := None; OPENAI_API_KEY := Some [] |}.

Definition with_key : Env :=
  {| NVIDIA_API := None; OPENAI_API_KEY := Some (js "nvapi-key") |}.

(** A script with a prompt comment on its second line. *)
Definition prompt_doc : Document :=
  {| uri := js "file:///app.js"; languageId := js "javascript";
     getText := js "const x = 1;" ++ newline
                  ++ js "// PROMPT: Create login website" |}.

(** The same document after its second line was deleted. *)
Definition shrunk_doc : Document :=
  {| uri := js "file:///app.js"; languageId := js "javascript";
     getText := js "const x = 1;" |}.

(** A document of a language the extension does not enhance, with a
    prompt comment and a secret. *)
Definition go_doc : Document :=
  {| uri := js "file:///main.go"; languageId := js "go";
     getText := js "// PROMPT: Create login website" ++ newline
                  ++ js "token = 'abc'" |}.

(** A login handler whose body reads [req_user]. *)
Definition login_doc : Document :=
  {| uri := js "file:///routes.js"; languageId := js "javascript";
     getText := js "function login(req, res) {" ++ newline
                  ++ js "  return db.find(req_user(req));" ++ newline
                  ++ js "}" |}.

(** A handler whose name contains [auth]. *)
Definition authorize_doc : Document :=
  {| uri := js "file:///routes.js"; languageId := js "javascript";
     getText := js "function checkAuthToken(req) {" ++ newline
                  ++ js "  return db.find(req.body);" ++ newline
                  ++ js "}" |}.

Definition authorize_line : jstr := js "function checkAuthToken(req) {".

(** What the definition pattern finds on that line. *)
Definition authorize_match : match_result :=
  MR 0 (js "function checkAuthToken(")
    [None; Some (js "function checkAuthToken("); Some (js "checkAuthToken");
     None; None].

(** The scenario line of the specification, and a line whose literal
    opens with one kind of quote and closes with another. *)
Definition api_key_line : jstr :=
  js "const apiKey = " ++ [dquote] ++ js "sk-12345" ++ [dquote].

Definition api_key_doc : Document :=
  {| uri := js "file:///config.js"; languageId := js "javascript";
     getText := api_key_line |}.

Definition mixed_quotes_line : jstr := js "token = 'abc`".

Definition mixed_quotes_doc : Document :=
  {| uri := js "file:///config.js"; languageId := js "javascript";
     getText := mixed_quotes_line |}.

(** A configuration file with the scenario line on its second line. *)
Definition config_doc : Document :=
  {| uri := js "file:///config.js"; languageId := js "javascript";
     getText := js "const x = 1;" ++ newline ++ api_key_line |}.

(** A file whose second line assigns the empty literal to a token. *)
Definition empty_literal_line : jstr := js "const token = " ++ [dquote; dquote].

Definition empty_literal_doc : Document :=
  {| uri := js "file:///config.js"; languageId := js "javascript";
     getText := js "const x = 1;" ++ newline ++ empty_literal_line |}.

(** A script whose prompt comment holds a line separator (U+2028). *)
Definition separator_line : jstr :=
  js "// PROMPT: fix" ++ [8232%N] ++ js "this".

Definition separator_doc : Document :=
  {| uri := js "file:///app.js"; languageId := js "javascript";
     getText := js "const x = 1;" ++ newline ++ separator_line |}.

(** ** The wording of the specification, where it is wider than the
    patterns *)

(** A literal in quotes, whatever stands between them. *)
Definition worded_quoted_literal (w : jstr) : Prop :=
  ∃ q1 lit q2, w = q1 :: lit ++ [q2] ∧ is_quote q1 ∧ is_quote q2.

(** A token, a colon or an equals sign, a literal in quotes. *)
Definition worded_secret_assignment (w : jstr) : Prop :=
  ∃ tok ws1 sep ws2 lit,
    w = tok ++ ws1 ++ sep :: ws2 ++ lit ∧ secret_token tok ∧ whitespace ws1 ∧
    (sep = chr ":" ∨ sep = chr "=") ∧ whitespace ws2 ∧
    worded_quoted_literal lit.

(** A prompt line with any text after its colon. *)
Definition worded_prompt_line (line text : jstr) : Prop :=
  ∃ h, line = h ++ text ∧ prompt_marker h ∧ text ≠ [].

(** ** Lines of a text *)

(** The lines of a text: [piece] is the line read so far. *)
Fixpoint lines_from (piece s : jstr) : list jstr :=
  match s with
  | [] => [piece]
  | c :: s' =>
      if (c =? 10)%N then piece :: lines_from [] s'
      else
        match s' with
        | c' :: s'' =>
            if ((c =? 13) && (c' =? 10))%N then piece :: lines_from [] s''
            else lines_from (piece ++ [c]) s'
        | [] => lines_from (piece ++ [c]) s'
        end
  end.

(** The text whose lines are [ls], with [eol] between them. *)
Fixpoint unlines (eol : jstr) (ls : list jstr) : jstr :=
  match ls with
  | [] => []
  | [l] => l
  | l :: ls' => l ++ eol ++ unlines eol ls'
  end.

(** ** Further example documents *)

(** The login handler of [login_doc] with carriage return and line feed
    between its lines. *)
Definition login_doc_crlf : Document :=
  {| uri := js "file:///routes.js"; languageId := js "javascript";
     getText := js "function login(req, res) {" ++ [13%N; 10%N]
                  ++ js "  return db.find(req_user(req));" ++ [13%N; 10%N]
                  ++ js "}" |}.

(** A login handler with no authorization check. *)
Definition unguarded_doc : Document :=
  {| uri := js "file:///routes.js"; languageId := js "javascript";
     getText := js "function login(req, res) {" ++ newline
                  ++ js "  return db.find(req.body);" ++ newline
                  ++ js "}" |}.

(** ** Requests and timers *)

(** What the timer map of the document [docKey] holds under [key]. *)
Definition entry (w : World) (docKey key : jstr) : option timer_entry :=
  pendingTimers w !! docKey ≫= (.!! key).

(** The requests that are under way: the document and line of every
    suspended request body, oldest first. *)
Definition pending (w : World) : list (jstr * nat) :=
  omap (λ t, match t with
             | EnhanceTask docKey lineNumber _ => Some (docKey, lineNumber)
             | PublishTask _ _ => None
             end) (tasks w).

(** The state after the requests of a scan of [document] were made. *)
Definition requested (document : Document) (w : World) : World :=
  foldl (λ w q, triggerEnhancementRequest document q.1 q.2 w) w
    (extractPrompts document).

(** No request is under way twice, and a line is marked as in flight
    exactly while its request is under way. *)
Definition requests_inv (w : World) : Prop :=
  NoDup (pending w) ∧
  ∀ docKey i, in_flight w docKey i = true ↔ (docKey, i) ∈ pending w.

(** The request that a call of the client with [userPrompt] sends, if it
    sends one. *)
Definition request_of (e : Env) (userPrompt : jstr) : option ChatRequest :=
  if getEnhancedPromptFromNvidia e userPrompt is Remote request
  then Some request else None.

(** Every call of the client sent what it sends, and nothing else was
    sent. *)
Definition calls_inv (w : World) : Prop :=
  remoteCalls w = omap (request_of (env w)) (clientCalls w).

(** The scans that wait to publish: the document and the diagnostics of
    the scanner they hold. *)
Definition publishes (w : World) : list (jstr * list Diagnostic) :=
  omap (λ t, match t with
             | PublishTask docKey securityDiags => Some (docKey, securityDiags)
             | EnhanceTask _ _ _ => None
             end) (tasks w).

(** [ds] is what the scanner reports for some version of the document
    [docKey]. *)
Definition scanned (docKey : jstr) (ds : list Diagnostic) : Prop :=
  ∃ document, uri document = docKey ∧ ds = findIssuesWithRegex document.

(** What is published for a document is its stored diagnostics followed by
    diagnostics of the scanner. *)
Definition sync_inv (w : World) : Prop :=
  (∀ docKey ds, diagnosticCollection w !! docKey = Some ds →
     ∃ sd, scanned docKey sd ∧ ds = stored w docKey ++ sd) ∧
  Forall (λ q, scanned q.1 q.2) (publishes w).

(** An environment with the credential under its other name only. *)
Definition nvidia_only : Env :=
  {| NVIDIA_API := Some (js "nvapi-key"); OPENAI_API_KEY := None |}.


(** The pattern [/^<tag>\s*/]. *)
Definition tagRegex (tag : jstr) : regexp :=
  RegExp (Bol · Lit tag · Star Space) false.

(** ** The debounce scheduler *)

(** The timers that are set are the ones the timer maps record, one for a
    document at most, and their handles have been given out. *)
Definition timers_inv (h : Host) : Prop :=
  (∀ t tm, timeouts h !! t = Some tm →
     entry (world h) (timer_doc tm) docTimerKey = Some (DocTimer t)) ∧
  (∀ docKey t, entry (world h) docKey docTimerKey = Some (DocTimer t) →
     ∃ tm, timeouts h !! t = Some tm ∧ timer_doc tm = docKey) ∧
  (∀ t tm, timeouts h !! t = Some tm → t < next_timer h).

(** The clock, and for every document the time of its latest change, after
    a sequence of events. *)
Definition track (s : nat * (jstr → option nat)) (e : HostEvent)
  : nat * (jstr → option nat) :=
  match e with
  | Changed document =>
      (s.1, λ docKey, if decide (docKey = uri document) then Some s.1
                      else s.2 docKey)
  | Elapse ms => (s.1 + ms, s.2)
  | _ => s
  end.

Definition latest_change (events : list HostEvent) (docKey : jstr)
  : option nat :=
  (foldl track (0, λ _, None) events).2 docKey.

(** The timers follow the changes: the clock is the time that has passed,
    and every timer that is set is due 800 ms after the latest change of
    its document. *)
Definition debounce_inv (h : Host) (s : nat * (jstr → option nat)) : Prop :=
  timers_inv h ∧ clock h = s.1 ∧
  ∀ t tm, timeouts h !! t = Some tm →
    ∃ c, s.2 (timer_doc tm) = Some c ∧ due tm = c + 800.

(** Two changes of a document, 100 ms apart. *)
Definition two_changes : list HostEvent :=
  [Changed prompt_doc; Elapse 100; Changed prompt_doc].

(** A login handler followed by five empty lines; and the same eight
    lines after a comment line, with an authorization check below them. *)
Definition padded_doc : Document :=
  {| uri := js "file:///routes.js"; languageId := js "javascript";
     getText := js "function login(req, res) {" ++ newline
                  ++ js "  return db.find(req.body);" ++ newline
                  ++ js "}" ++ newline ++ newline ++ newline ++ newline
                  ++ newline |}.

Definition shifted_doc : Document :=
  {| uri := js "file:///routes.js"; languageId := js "javascript";
     getText := js "// routes" ++ newline ++ getText padded_doc ++ newline
                  ++ newline ++ js "if (!req.user) throw new Error('no');" |}.

(** * Properties *)

(** ** Lists *)

Lemma forEach_push {A B} (f : A → nat → list B → list B) :
  (∀ x i acc, f x i acc = acc ++ f x i []) →
  ∀ l i acc,
    forEach f i l acc = acc ++ concat (imap (λ j x, f x (i + j) []) l).
Proof.
  intros Hf l. induction l as [|x l IH]; intros i acc; simpl.
  - by rewrite app_nil_r.
  - rewrite IH, Hf, Nat.add_0_r, <-(assoc_L (++)). do 3 f_equal.
    apply imap_ext. intros j y _. simpl. f_equal. lia.
Qed.

Lemma elem_of_concat {A} (x : A) (ls : list (list A)) :
  x ∈ concat ls ↔ ∃ l, l ∈ ls ∧ x ∈ l.
Proof.
  induction ls as [|l ls IH]; simpl.
  - rewrite elem_of_nil. split; [done|]. by intros (?&?%elem_of_nil&_).
  - rewrite elem_of_app, IH. split.
    + intros [?|(l'&?&?)]; [exists l|exists l']; split; (done || by constructor).
    + intros (l'&[->|?]%elem_of_cons&?); eauto.
Qed.

Lemma filter_none {A} (P : A → Prop) `{∀ x, Decision (P x)} (l : list A) :
  (∀ x, x ∈ l → ¬ P x) → filter P l = [].
Proof.
  induction l as [|x l IH]; intros Hl; [done|].
  rewrite filter_cons_False by (apply Hl; left).
  apply IH. intros y Hy. apply Hl. by right.
Qed.

Lemma filter_all {A} (P : A → Prop) `{∀ x, Decision (P x)} (l : list A) :
  (∀ x, x ∈ l → P x) → filter P l = l.
Proof.
  induction l as [|x l IH]; intros Hl; [done|].
  rewrite filter_cons_True by (apply Hl; left).
  f_equal. apply IH. intros y Hy. apply Hl. by right.
Qed.

Lemma filter_ext_in {A} (P Q : A → Prop) `{∀ x, Decision (P x)}
    `{∀ x, Decision (Q x)} (l : list A) :
  (∀ x, x ∈ l → P x ↔ Q x) → filter P l = filter Q l.
Proof.
  induction l as [|x l IH]; intros Hl; [done|].
  rewrite !filter_cons. rewrite IH by (intros y Hy; apply Hl; by right).
  destruct (decide (P x)) as [HP|HP], (decide (Q x)) as [HQ|HQ]; try done;
    apply Hl in HP || apply Hl in HQ; done || by left.
Qed.

(** Selecting the entries of one line from a per-line scan. *)
Lemma filter_key_imap {A B} (key : B → nat) (g : nat → A → list B)
    (P : B → Prop) `{∀ d, Decision (P d)} :
  (∀ j x d, d ∈ g j x → key d = j) →
  ∀ l k i,
    filter (λ d, P d ∧ key d = k + i) (concat (imap (λ j, g (k + j)) l))
    = from_option (λ x, filter P (g (k + i) x)) [] (l !! i).
Proof.
  intros Hg l. induction l as [|x l IH]; intros k i; [done|].
  simpl. rewrite filter_app, Nat.add_0_r.
  assert (imap ((λ j, g (k + j)) ∘ S) l = imap (λ j, g (S k + j)) l) as ->.
  { apply imap_ext. intros j y _. simpl. f_equal. lia. }
  destruct i as [|i]; simpl.
  - rewrite Nat.add_0_r. rewrite (filter_none _ (concat _)).
    + rewrite app_nil_r. apply filter_ext_in. intros d Hd%Hg. tauto.
    + intros d (ds&Hds&Hd)%elem_of_concat.
      apply list_elem_of_lookup in Hds as (j&Hj).
      rewrite list_lookup_imap in Hj.
      destruct (l !! j); simplify_eq/=. apply Hg in Hd. lia.
  - rewrite (filter_none _ (g k x)).
    + simpl. replace (k + S i) with (S k + i) by lia. apply IH.
    + intros d Hd%Hg. lia.
Qed.

Lemma filter_key_imap_all {A B} (key : B → nat) (g : nat → A → list B) :
  (∀ j x d, d ∈ g j x → key d = j) →
  ∀ l i, filter (λ d, key d = i) (concat (imap g l))
         = from_option (g i) [] (l !! i).
Proof.
  intros Hg l i.
  rewrite (filter_ext_in _ (λ d, True ∧ key d = 0 + i)) by (intros; simpl; tauto).
  rewrite (filter_key_imap key g (λ _, True) Hg l 0 i).
  destruct (l !! i); simpl; [|done]. by apply filter_all.
Qed.

Lemma sorted_key_imap {A B} (key : B → nat) (g : nat → A → list B) :
  (∀ j x d, d ∈ g j x → key d = j) → (∀ j x, length (g j x) ≤ 1) →
  ∀ l k,
    StronglySorted lt (key <$> concat (imap (λ j, g (k + j)) l)) ∧
    Forall (λ n, k ≤ n) (key <$> concat (imap (λ j, g (k + j)) l)).
Proof.
  intros Hg H1 l. induction l as [|x l IH]; intros k; simpl.
  - split; constructor.
  - assert (imap ((λ j, g (k + j)) ∘ S) l = imap (λ j, g (S k + j)) l) as ->.
    { apply imap_ext. intros j y _. simpl. f_equal. lia. }
    destruct (IH (S k)) as [Hs Hf]. rewrite Nat.add_0_r.
    assert (Forall (λ n, k ≤ n)
              (key <$> concat (imap (λ j, g (S k + j)) l))) as Hf'.
    { eapply Forall_impl; [exact Hf|]. simpl. lia. }
    specialize (H1 k x). specialize (Hg k x).
    destruct (g k x) as [|d [|??]]; simpl in *; [done| |lia].
    rewrite (Hg d) by by left. split; constructor; done.
Qed.

Lemma StronglySorted_lt_NoDup (l : list nat) : StronglySorted lt l → NoDup l.
Proof.
  induction 1 as [|x l _ IH Hx]; constructor; [|done].
  intros Hin. rewrite Forall_forall in Hx. specialize (Hx _ Hin). lia.
Qed.

Lemma first_occurrence_unique {A} (c : A) b1 b2 t1 t2 :
  Forall (λ x, x ≠ c) b1 → Forall (λ x, x ≠ c) b2 →
  b1 ++ c :: t1 = b2 ++ c :: t2 → b1 = b2 ∧ t1 = t2.
Proof.
  intros H1. revert b2. induction H1 as [|x b1 Hx _ IH]; intros b2 H2 E.
  - destruct H2 as [|y b2 Hy _]; simpl in E; [by injection E|].
    injection E as <- _. done.
  - destruct H2 as [|y b2 Hy H2]; simpl in E.
    + injection E as -> _. done.
    + injection E as <- E. destruct (IH _ H2 E) as [-> ->]. done.
Qed.

(** ** The matcher *)

Lemma elem_of_step_if p st st' :
  st' ∈ step_if p st ↔
  ∃ c r, rest st = c :: r ∧ p c = true ∧ st' = MS (pos st + 1) r (caps st).
Proof.
  unfold step_if, advance. destruct (rest st) as [|c r] eqn:E.
  - rewrite elem_of_nil. split; [done|]. by intros (?&?&?&_).
  - destruct (p c) eqn:Hp.
    + rewrite list_elem_of_singleton. simpl. rewrite drop_0. split.
      * intros ->. eauto.
      * intros (c'&r'&[= <- <-]&_&->). done.
    + rewrite elem_of_nil. split; [done|].
      intros (c'&r'&[= <- <-]&Hp'&_). congruence.
Qed.

Lemma elem_of_star_loop m fuel st st' :
  st' ∈ star_loop m fuel st ↔
  st' = st ∨
  ∃ fuel' st1, fuel = S fuel' ∧ st1 ∈ m st ∧
    length (rest st1) < length (rest st) ∧ st' ∈ star_loop m fuel' st1.
Proof.
  destruct fuel as [|fuel']; simpl.
  - rewrite list_elem_of_singleton. split; [auto|].
    intros [?|(?&?&?&_)]; done.
  - rewrite elem_of_app, list_elem_of_singleton, list_elem_of_bind. split.
    + intros [(st1&Hin&Hst1)|?]; [|auto]. right.
      case_decide; [|by apply elem_of_nil in Hin]. eauto 10.
    + intros [?|(f&st1&[= <-]&?&?&?)]; [auto|]. left. exists st1.
      by rewrite decide_True.
Qed.

(** The loop of [a*], given what one iteration does. *)
Section star.
Context (m : mstate → list mstate) (P : jstr → Prop).

Lemma star_loop_sound :
  (∀ st st1, st1 ∈ m st →
     ∃ w, rest st = w ++ rest st1 ∧ pos st1 = pos st + length w ∧ P w) →
  ∀ fuel st st', st' ∈ star_loop m fuel st →
    ∃ ws, rest st = concat ws ++ rest st' ∧
          pos st' = pos st + length (concat ws) ∧
          Forall (λ x, x ≠ [] ∧ P x) ws.
Proof.
  intros Hm fuel. induction fuel as [|fuel IH]; intros st st';
    rewrite elem_of_star_loop.
  - intros [->|(?&?&?&_)]; [|done]. exists []. simpl. by rewrite Nat.add_0_r.
  - intros [->|(f&st1&[= <-]&H1&Hlt&H2)].
    { exists []. simpl. by rewrite Nat.add_0_r. }
    destruct (Hm _ _ H1) as (w&Hw&Hp&HP).
    destruct (IH _ _ H2) as (ws&Hws&Hps&HF).
    exists (w :: ws). simpl. rewrite Hw, Hws, Hps, Hp, length_app, <-(assoc_L (++)).
    split_and!; [done|lia|]. constructor; [|done]. split; [|done].
    intros ->. simpl in Hw. rewrite Hw in Hlt. lia.
Qed.

Lemma star_loop_complete :
  (∀ w, P w → ∀ p s c, ∃ c', MS (p + length w) s c' ∈ m (MS p (w ++ s) c)) →
  ∀ ws, Forall (λ x, x ≠ [] ∧ P x) ws →
  ∀ fuel p s c, length (concat ws ++ s) ≤ fuel →
    ∃ c', MS (p + length (concat ws)) s c'
            ∈ star_loop m fuel (MS p (concat ws ++ s) c).
Proof.
  intros Hm ws HF. induction HF as [|w ws [Hne HP] _ IH]; intros fuel p s c Hfuel.
  - exists c. simpl. rewrite Nat.add_0_r. apply elem_of_star_loop. by left.
  - simpl in *. rewrite <-(assoc_L (++)) in *.
    destruct w as [|a w]; [done|]. destruct fuel as [|fuel]; [simpl in Hfuel; lia|].
    destruct (Hm _ HP p (concat ws ++ s) c) as (c1&H1).
    destruct (IH fuel (p + length (a :: w)) s c1) as (c2&H2).
    { simpl in Hfuel. rewrite !length_app in *. lia. }
    exists c2. apply elem_of_star_loop. right. eexists _, _.
    split_and!; [done|exact H1| |].
    + simpl. rewrite !length_app. lia.
    + rewrite length_app. by rewrite Nat.add_assoc.
Qed.
End star.

Lemma caps_within_refl st st' :
  caps st' = caps st → caps_within st st'.
Proof. intros E n v. rewrite E. auto. Qed.

Lemma caps_within_trans st st1 st' u w :
  rest st = u ++ rest st1 → rest st1 = w ++ rest st' →
  caps_within st st1 → caps_within st1 st' → caps_within st st'.
Proof.
  intros Hu Hw H1 H2 n v [Hv|(a&b&Hab)]%H2.
  - apply H1 in Hv as [?|(a&b&Hab)]; [by left|right].
    exists a, (b ++ w). by rewrite Hab, Hw, <-!(assoc_L (++)).
  - right. exists (u ++ a), b. by rewrite Hu, Hab, <-!(assoc_L (++)).
Qed.

Lemma star_loop_caps m :
  (∀ st st1, st1 ∈ m st →
     (∃ w, rest st = w ++ rest st1) ∧ caps_within st st1) →
  ∀ fuel st st', st' ∈ star_loop m fuel st →
    (∃ w, rest st = w ++ rest st') ∧ caps_within st st'.
Proof.
  intros Hm fuel. induction fuel as [|fuel IH]; intros st st';
    rewrite elem_of_star_loop.
  - intros [->|(?&?&?&_)]; [|done]. split; [by exists []|by apply caps_within_refl].
  - intros [->|(f&st1&[= <-]&H1&_&H2)].
    { split; [by exists []|by apply caps_within_refl]. }
    destruct (Hm _ _ H1) as [[u Hu] Hc1]. destruct (IH _ _ H2) as [[w Hw] Hc2].
    split; [|by eapply caps_within_trans].
    exists (u ++ w). by rewrite Hu, Hw, (assoc_L (++)).
Qed.

Lemma star_loop_same_caps m :
  (∀ st st1, st1 ∈ m st → caps st1 = caps st) →
  ∀ fuel st st', st' ∈ star_loop m fuel st → caps st' = caps st.
Proof.
  intros Hm fuel. induction fuel as [|fuel IH]; intros st st';
    rewrite elem_of_star_loop.
  - by intros [->|(?&?&?&_)].
  - intros [->|(f&st1&[= <-]&H1&_&H2)]; [done|].
    by rewrite (IH _ _ H2), (Hm _ _ H1).
Qed.

(** What a match consumes is a word of the pattern. *)
Lemma ms_sound ic r :
  ∀ st st', st' ∈ ms ic r st →
    ∃ w, rest st = w ++ rest st' ∧ pos st' = pos st + length w ∧
         (regular r = true → lang ic r w).
Proof.
  induction r as [| a | | neg items | a IHa b IHb | a IHa b IHb | a IHa
                 | n a IHa | n | |]; intros st st'; simpl.
  - rewrite list_elem_of_singleton. intros ->. exists []. by rewrite Nat.add_0_r.
  - intros (c&r&Hr&Hp&->)%elem_of_step_if. exists [c]. simpl.
    split_and!; [done..|]. intros _. exists c. split; [done|]. by apply N.eqb_eq.
  - intros (c&r&Hr&Hp&->)%elem_of_step_if. exists [c]. simpl.
    split_and!; [done..|]. intros _. exists c. split; [done|].
    by apply negb_true_iff.
  - intros (c&r&Hr&Hp&->)%elem_of_step_if. exists [c]. simpl.
    split_and!; [done..|]. intros _. eauto.
  - intros (st1&H2&H1)%list_elem_of_bind.
    destruct (IHa _ _ H1) as (u&Hu&Hpu&Hlu).
    destruct (IHb _ _ H2) as (v&Hv&Hpv&Hlv).
    exists (u ++ v). rewrite Hu, Hv, Hpv, Hpu, length_app, (assoc_L (++)).
    split_and!; [done|lia|]. intros [??]%andb_true_iff. eauto 10.
  - intros [H|H]%elem_of_app.
    + destruct (IHa _ _ H) as (w&?&?&?). exists w. split_and!; [done..|].
      intros [??]%andb_true_iff. auto.
    + destruct (IHb _ _ H) as (w&?&?&?). exists w. split_and!; [done..|].
      intros [??]%andb_true_iff. auto.
  - intros H.
    destruct (star_loop_sound _ (λ w, regular a = true → lang ic a w) IHa _ _ _ H)
      as (ws&?&?&HF).
    exists (concat ws). split_and!; [done..|]. intros Hreg. exists ws.
    split; [done|]. eapply Forall_impl; [exact HF|]. simpl. intros x [??]. auto.
  - intros (st1&->&H1)%list_elem_of_fmap. simpl.
    destruct (IHa _ _ H1) as (w&?&?&?). eauto.
  - destruct (caps st !! n) as [[w|]|] eqn:E.
    + destruct (ci_prefix ic w (rest st)) eqn:Hpre.
      * rewrite list_elem_of_singleton. intros ->. simpl.
        exists (take (length w) (rest st)). rewrite take_drop.
        split_and!; [done| |done].
        rewrite length_take. f_equal.
        assert (∀ w s, ci_prefix ic w s = true → length w ≤ length s) as Hlen.
        { clear. induction w as [|a w IH]; intros [|c s]; simpl; try lia;
            try done. intros [_ ?%IH]%andb_true_iff. lia. }
        specialize (Hlen _ _ Hpre). lia.
      * by intros ?%elem_of_nil.
    + rewrite list_elem_of_singleton. intros ->. exists []. by rewrite Nat.add_0_r.
    + rewrite list_elem_of_singleton. intros ->. exists []. by rewrite Nat.add_0_r.
  - case_decide; [|by intros ?%elem_of_nil].
    rewrite list_elem_of_singleton. intros ->. exists []. by rewrite Nat.add_0_r.
  - destruct (rest st) eqn:E; [|by intros ?%elem_of_nil].
    rewrite list_elem_of_singleton. intros ->. exists []. by rewrite E, Nat.add_0_r.
Qed.

(** A word of the pattern is matched wherever it starts. *)
Lemma ms_complete ic r :
  regular r = true → ∀ w, lang ic r w →
  ∀ p s c, ∃ c', MS (p + length w) s c' ∈ ms ic r (MS p (w ++ s) c).
Proof.
  induction r as [| a | | neg items | a IHa b IHb | a IHa b IHb | a IHa
                 | n a IHa | n | |]; simpl; intros Hreg w Hw p s c; try done.
  - subst w. exists c. rewrite Nat.add_0_r. by apply list_elem_of_singleton.
  - destruct Hw as (x&->&Hx). exists c. apply elem_of_step_if. simpl.
    eexists _, _. split_and!; [done| |done]. by apply N.eqb_eq.
  - destruct Hw as (x&->&Hx). exists c. apply elem_of_step_if. simpl.
    eexists _, _. split_and!; [done| |done]. by apply negb_true_iff.
  - destruct Hw as (x&->&Hx). exists c. apply elem_of_step_if. simpl.
    eexists _, _. split_and!; done.
  - apply andb_true_iff in Hreg as [Ha Hb]. destruct Hw as (u&v&->&Hu&Hv).
    destruct (IHa Ha _ Hu p (v ++ s) c) as (c1&H1).
    destruct (IHb Hb _ Hv (p + length u) s c1) as (c2&H2).
    exists c2. apply list_elem_of_bind. eexists. rewrite <-(assoc_L (++)).
    split; [|exact H1]. by rewrite length_app, Nat.add_assoc.
  - apply andb_true_iff in Hreg as [Ha Hb]. destruct Hw as [Hw|Hw].
    + destruct (IHa Ha _ Hw p s c) as (c'&?). exists c'. apply elem_of_app. auto.
    + destruct (IHb Hb _ Hw p s c) as (c'&?). exists c'. apply elem_of_app. auto.
  - destruct Hw as (ws&->&HF).
    apply (star_loop_complete _ (lang ic a)); [by apply IHa|done|done].
  - destruct (IHa Hreg _ Hw p s c) as (c'&H). eexists.
    apply list_elem_of_fmap. eexists. split; [|exact H]. simpl. done.
Qed.

Lemma ms_caps ic r : ∀ st st', st' ∈ ms ic r st → caps_within st st'.
Proof.
  induction r as [| a | | neg items | a IHa b IHb | a IHa b IHb | a IHa
                 | n a IHa | n | |]; intros st st'; simpl.
  - intros ->%list_elem_of_singleton. by apply caps_within_refl.
  - intros (c&r&Hr&Hp&->)%elem_of_step_if. by apply caps_within_refl.
  - intros (c&r&Hr&Hp&->)%elem_of_step_if. by apply caps_within_refl.
  - intros (c&r&Hr&Hp&->)%elem_of_step_if. by apply caps_within_refl.
  - intros (st1&H2&H1)%list_elem_of_bind.
    destruct (ms_sound _ _ _ _ H1) as (u&Hu&_). destruct (ms_sound _ _ _ _ H2) as (w&Hw&_).
    eapply caps_within_trans; eauto.
  - intros [H|H]%elem_of_app; eauto.
  - intros H. eapply (star_loop_caps (ms ic a)); [|exact H].
    intros s s1 Hs. split; [|by apply IHa].
    destruct (ms_sound _ _ _ _ Hs) as (u&Hu&_). eauto.
  - intros (st1&->&H1)%list_elem_of_fmap. intros k v. simpl.
    destruct (ms_sound _ _ _ _ H1) as (w&Hw&Hp&_).
    destruct (decide (k = n ∧ n < length (caps st1))) as [[-> Hlt]|Hne].
    + rewrite list_lookup_insert_eq by done. intros [= <-]. right.
      exists [], []. rewrite Hp, Hw. simpl.
      replace (pos st + length w - pos st) with (length w) by lia.
      by rewrite take_app_length.
    + assert (<[n:=Some (take (pos st1 - pos st) (rest st))]> (caps st1) !! k
              = caps st1 !! k) as ->.
      { destruct (decide (k = n)) as [->|]; [|by rewrite list_lookup_insert_ne].
        rewrite list_insert_ge; [done|lia]. }
      by apply IHa.
  - destruct (caps st !! n) as [[w|]|] eqn:E.
    + destruct (ci_prefix ic w (rest st)); [|by intros ?%elem_of_nil].
      intros ->%list_elem_of_singleton. by apply caps_within_refl.
    + intros ->%list_elem_of_singleton. by apply caps_within_refl.
    + intros ->%list_elem_of_singleton. by apply caps_within_refl.
  - case_decide; [|by intros ?%elem_of_nil].
    intros ->%list_elem_of_singleton. by apply caps_within_refl.
  - destruct (rest st); [|by intros ?%elem_of_nil].
    intros ->%list_elem_of_singleton. by apply caps_within_refl.
Qed.

Lemma pure_regular r : pure r = true → regular r = true.
Proof.
  induction r; simpl; try done.
  - intros [??]%andb_true_iff. apply andb_true_iff. auto.
  - intros [??]%andb_true_iff. apply andb_true_iff. auto.
Qed.

Lemma ms_pure_caps ic r :
  pure r = true → ∀ st st', st' ∈ ms ic r st → caps st' = caps st.
Proof.
  induction r as [| a | | neg items | a IHa b IHb | a IHa b IHb | a IHa
                 | n a IHa | n | |]; simpl; intros Hp st st'; try done.
  - by intros ->%list_elem_of_singleton.
  - by intros (c&r&_&_&->)%elem_of_step_if.
  - by intros (c&r&_&_&->)%elem_of_step_if.
  - by intros (c&r&_&_&->)%elem_of_step_if.
  - apply andb_true_iff in Hp as [Ha Hb].
    intros (st1&H2&H1)%list_elem_of_bind.
    by rewrite (IHb Hb _ _ H2), (IHa Ha _ _ H1).
  - apply andb_true_iff in Hp as [Ha Hb]. intros [H|H]%elem_of_app; eauto.
  - apply star_loop_same_caps. by apply IHa.
Qed.

(** Matching a pattern without groups or assertions is membership in its
    language. *)
Lemma ms_pure ic r st st' :
  pure r = true →
  st' ∈ ms ic r st ↔
  ∃ w, rest st = w ++ rest st' ∧ lang ic r w ∧
       pos st' = pos st + length w ∧ caps st' = caps st.
Proof.
  intros Hp. split.
  - intros H. destruct (ms_sound _ _ _ _ H) as (w&?&?&HL).
    exists w. split_and!; [done|by apply HL, pure_regular|done|].
    by eapply ms_pure_caps.
  - intros (w&Hr&HL&Hpos&Hc).
    destruct (ms_complete ic r (pure_regular _ Hp) w HL (pos st) (rest st')
                (caps st)) as (c'&H).
    destruct st as [p s c], st' as [p' s' c0]. simpl in *. subst.
    pose proof (ms_pure_caps _ _ Hp _ _ H) as E. simpl in E. by subst.
Qed.

Lemma ms_Seq ic a b st st' :
  st' ∈ ms ic (a · b) st ↔ ∃ st1, st1 ∈ ms ic a st ∧ st' ∈ ms ic b st1.
Proof.
  simpl. rewrite list_elem_of_bind. split; intros (st1&?&?); eauto.
Qed.

Lemma ms_Group_pure ic n a st st' :
  pure a = true →
  st' ∈ ms ic (Group n a) st ↔
  ∃ w, rest st = w ++ rest st' ∧ lang ic a w ∧
       pos st' = pos st + length w ∧
       caps st' = <[n := Some w]> (caps st).
Proof.
  intros Hp. simpl. rewrite list_elem_of_fmap. split.
  - intros (st1&->&(w&Hr&HL&Hpos&Hc)%ms_pure); [|done]. simpl.
    exists w. split_and!; [done..|].
    rewrite Hc, Hpos, Hr. replace (pos st + length w - pos st) with (length w) by lia.
    by rewrite take_app_length.
  - intros (w&Hr&HL&Hpos&Hc). exists (MS (pos st') (rest st') (caps st)).
    split.
    + destruct st' as [p' s' c']. simpl in *. subst. f_equal.
      replace (pos st + length w - pos st) with (length w) by lia.
      by rewrite Hr, take_app_length.
    + apply ms_pure; [done|]. exists w. done.
Qed.

(** ** Searching a line *)

Lemma match_at_Some R p s m :
  match_at R p s = Some m →
  ∃ st, st ∈ ms (ignoreCase R) (source R) (MS p s (no_caps (source R))) ∧
        m = MR p (take (pos st - p) s) (caps st).
Proof.
  unfold match_at. destruct (ms _ _ _) as [|st l] eqn:E; [done|].
  intros [= <-]. exists st. split; [by left|done].
Qed.

Lemma exec_from_Some R s : ∀ p m,
  exec_from R p s = Some m →
  ∃ k, k ≤ length s ∧ match_at R (p + k) (drop k s) = Some m ∧
       ∀ j, j < k → match_at R (p + j) (drop j s) = None.
Proof.
  induction s as [|c s IH]; intros p m; simpl.
  - destruct (match_at R p []) eqn:E; [|done]. intros [= ->].
    exists 0. rewrite Nat.add_0_r. split_and!; [done..|lia].
  - destruct (match_at R p (c :: s)) eqn:E.
    + intros [= ->]. exists 0. rewrite Nat.add_0_r. split_and!; [lia|done|lia].
    + intros (k&Hk&Hm&Hlt)%IH. exists (S k). split_and!; [lia| |].
      * by rewrite <-Nat.add_succ_comm.
      * intros [|j] ?; [by rewrite Nat.add_0_r|].
        rewrite <-Nat.add_succ_comm. apply Hlt. lia.
Qed.

Lemma exec_from_None R s : ∀ p,
  exec_from R p s = None →
  ∀ k, k ≤ length s → match_at R (p + k) (drop k s) = None.
Proof.
  induction s as [|c s IH]; intros p; simpl.
  - destruct (match_at R p []) eqn:E; [done|]. intros _ [|k] ?; [|simpl in *; lia].
    by rewrite Nat.add_0_r.
  - destruct (match_at R p (c :: s)) eqn:E; [done|]. intros H [|k] ?.
    + by rewrite Nat.add_0_r.
    + rewrite <-Nat.add_succ_comm. apply (IH _ H). lia.
Qed.

Lemma starts_with_iff w s : starts_with w s = true ↔ ∃ post, s = w ++ post.
Proof.
  unfold starts_with. revert s. induction w as [|a w IH]; intros s; simpl.
  - split; eauto.
  - destruct s as [|c s]; [split; [done|by intros (?&?)]|].
    rewrite andb_true_iff, IH, N.eqb_eq. split.
    + intros [-> [post ->]]. eauto.
    + intros (post&[= -> ->]). eauto.
Qed.

Lemma index_from_first w s : ∀ p pre post,
  s = pre ++ w ++ post →
  (∀ pre' post', s = pre' ++ w ++ post' → length pre ≤ length pre') →
  index_from w p s = Z.of_nat (p + length pre).
Proof.
  induction s as [|c s IH]; intros p pre post Hs Hmin; simpl.
  - destruct pre; [|done]. destruct w; [|done]. simpl. by rewrite Nat.add_0_r.
  - destruct (starts_with w (c :: s)) eqn:E.
    + apply starts_with_iff in E as (post'&E).
      specialize (Hmin [] post' E). destruct pre; [|simpl in Hmin; lia].
      by rewrite Nat.add_0_r.
    + destruct pre as [|c' pre].
      { simpl in Hs. assert (starts_with w (c :: s) = true) as E'
          by (apply starts_with_iff; eauto). congruence. }
      injection Hs as <- ->. simpl. rewrite <-Nat.add_succ_comm.
      apply (IH _ _ post); [done|]. intros pre' post' Hs'.
      specialize (Hmin (c :: pre') post'). simpl in Hmin.
      rewrite Hs' in Hmin. specialize (Hmin eq_refl). lia.
Qed.

Lemma Regular_recognises R : Regular R → recognises R (Lang R).
Proof.
  intros Hreg. split.
  - intros p s m (st&Hst&->)%match_at_Some. simpl. split; [done|].
    apply ms_sound in Hst as (w&Hw&Hp&HL). simpl in *. subst s.
    exists (rest st). rewrite Hp.
    replace (p + length w - p) with (length w) by lia.
    rewrite take_app_length. split; [done|]. by apply HL.
  - intros p w post HL.
    destruct (ms_complete _ _ Hreg _ HL p post (no_caps (source R)))
      as (c'&Hin).
    unfold match_at. destruct (ms _ _ _); [by apply elem_of_nil in Hin|eauto].
Qed.

Lemma recognises_ext R (L L' : jstr → Prop) :
  (∀ w, L w ↔ L' w) → recognises R L → recognises R L'.
Proof.
  intros HL [Hs Hc]. split.
  - intros p s m Hm. destruct (Hs _ _ _ Hm) as (?&post&?&?). split; [done|].
    exists post. split; [done|]. by apply HL.
  - intros p w post Hw. apply Hc. by apply HL.
Qed.

(** [str.match], [R.test] and [indexOf] for a pattern that recognises [L]:
    the match is the leftmost word of [L]. *)
Section recognised.
Context (R : regexp) (L : jstr → Prop) (HR : recognises R L).

Lemma recognised_Some s m :
  str_match s R = Some m →
  ∃ pre post, leftmost L s pre (matched m) post ∧ length pre = index m.
Proof.
  destruct HR as [Hsound Hcomplete].
  intros (k&Hk&Hm&Hlt)%exec_from_Some. simpl in *.
  destruct (Hsound _ _ _ Hm) as (Hi&post&Hs&HL).
  exists (take k s), post. rewrite length_take_le by done.
  split; [|done]. split_and!; [by rewrite <-Hs, take_drop|done|].
  intros pre' w' post' -> HL'. rewrite length_take_le by done.
  destruct (decide (k ≤ length pre')) as [|Hgt]; [done|].
  specialize (Hlt (length pre') ltac:(lia)). rewrite drop_app_length in Hlt.
  destruct (Hcomplete (length pre') w' post' HL') as [? E]. congruence.
Qed.

Lemma recognised_None s : str_match s R = None → ¬ occurs_in L s.
Proof.
  destruct HR as [Hsound Hcomplete]. intros Hnone (pre&w&post&->&HL).
  pose proof (exec_from_None _ _ _ Hnone (length pre)) as H. simpl in H.
  rewrite drop_app_length, length_app in H.
  destruct (Hcomplete (length pre) w post HL) as [? E].
  rewrite H in E; [done|lia].
Qed.

Lemma recognised_is_Some s : occurs_in L s → is_Some (str_match s R).
Proof.
  intros Hs. destruct (str_match s R) eqn:E; [eauto|].
  by destruct (recognised_None _ E).
Qed.

Lemma recognised_test s : test R s = true ↔ occurs_in L s.
Proof.
  unfold test. destruct (str_match s R) as [m|] eqn:E.
  - split; [intros _|done].
    destruct (recognised_Some _ _ E) as (pre&post&(?&?&_)&_).
    by exists pre, (matched m), post.
  - split; [done|]. intros Hs. by destruct (recognised_None _ E).
Qed.

Lemma recognised_indexOf s m :
  str_match s R = Some m → indexOf s (matched m) = Z.of_nat (index m).
Proof.
  intros Hm. destruct (recognised_Some _ _ Hm) as (pre&post&(Hs&HL&Hmin)&Hlen).
  unfold indexOf. rewrite <-Hlen. apply (index_from_first _ _ 0 pre post Hs).
  intros pre' post' Hs'. by eapply Hmin.
Qed.
End recognised.

Lemma leftmost_pre L s pre w post pre' w' post' :
  leftmost L s pre w post → leftmost L s pre' w' post' →
  pre = pre' ∧ w ++ post = w' ++ post'.
Proof.
  intros (Hs&HL&Hmin) (Hs'&HL'&Hmin').
  assert (length pre = length pre') as Hlen.
  { apply Nat.le_antisymm; eauto. }
  rewrite Hs in Hs'. by apply app_inj_1 in Hs'.
Qed.

Lemma str_match_group_infix R s m k v :
  str_match s R = Some m → group m k = Some v → ∃ a b, s = a ++ v ++ b.
Proof.
  intros (j&Hj&(st&Hst&->)%match_at_Some&_)%exec_from_Some. unfold group. simpl.
  intros Hv. destruct (caps st !! k) as [[v'|]|] eqn:E; simplify_eq/=.
  destruct (ms_caps _ _ _ _ Hst _ _ E) as [Hc|(a&b&Hab)]; simpl in *.
  - unfold no_caps in Hc. apply lookup_replicate in Hc as [? _]. done.
  - exists (take j s ++ a), (b ++ rest st).
    rewrite <-(take_drop j s) at 1. by rewrite Hab, <-!(assoc_L (++)).
Qed.


(** *** Replacing every character of a class *)

Section replace_class.
Context (neg : bool) (items : list class_item) (new : jstr).
Let R := RegExp (Class neg items) false.
Let hit (c : N) : bool := xorb neg (class_has false items c).

Lemma match_at_class p s :
  match_at R p s
  = match s with
    | c :: _ => if hit c then Some (MR p [c] [None]) else None
    | [] => None
    end.
Proof.
  unfold match_at, R, hit. simpl. unfold step_if. simpl.
  destruct s as [|c s]; [done|]. destruct (xorb _ _); [|done]. simpl.
  by replace (p + 1 - p) with 1 by lia.
Qed.

Lemma replace_all_from_class fuel : ∀ p s,
  length s < fuel →
  replace_all_from R new fuel p s
  = s ≫= (λ c, if hit c then new else [c]).
Proof.
  induction fuel as [|fuel IH]; intros p s Hlen; [lia|].
  revert p Hlen. induction s as [|c s IHs]; intros p Hlen.
  - cbn [replace_all_from exec_from]. by rewrite match_at_class.
  - cbn [replace_all_from exec_from]. rewrite match_at_class.
    destruct (hit c) eqn:Hc.
    + cbn [index matched]. rewrite Nat.sub_diag. simpl take. simpl drop.
      cbn [length]. rewrite drop_0. rewrite IH by (simpl in Hlen; lia).
      by rewrite bind_cons, Hc.
    + simpl in Hlen. specialize (IHs (S p) ltac:(lia)).
      cbn [replace_all_from] in IHs.
      destruct (exec_from R (S p) s) as [m|] eqn:E.
      * apply exec_from_Some in E as (k&Hk&Hm&_).
        rewrite match_at_class in Hm.
        destruct (drop k s) as [|c' s'] eqn:Ed; [done|].
        destruct (hit c'); [|done]. injection Hm as <-.
        cbn [index matched] in *.
        replace (S (p + k) - p) with (S k) by lia.
        replace (S (p + k) - S p) with k in IHs by lia.
        rewrite bind_cons, Hc, <-IHs. reflexivity.
      * rewrite bind_cons, Hc, <-IHs. reflexivity.
Qed.

Lemma replace_all_class s :
  replace_all s R new = s ≫= (λ c, if hit c then new else [c]).
Proof. apply replace_all_from_class. lia. Qed.
End replace_class.

(** ** Characters and words *)

Lemma to_upper_cases c :
  to_upper c = c ∨ (65 ≤ to_upper c ≤ 90 ∧ 97 ≤ c ≤ 122)%N.
Proof.
  unfold to_upper. destruct (N.leb_spec 97 c), (N.leb_spec c 122); simpl; lia.
Qed.

Lemma to_lower_cases c :
  to_lower c = c ∨ (97 ≤ to_lower c ≤ 122 ∧ 65 ≤ c ≤ 90)%N.
Proof.
  unfold to_lower. destruct (N.leb_spec 65 c), (N.leb_spec c 90); simpl; lia.
Qed.

Lemma is_space_not_letter c : is_space c = true → ¬ letter c.
Proof.
  unfold is_space, letter.
  rewrite !orb_true_iff, andb_true_iff, !N.eqb_eq, !N.leb_le. lia.
Qed.

(** Case folding never reaches a character that is not a letter. *)
Lemma variants_not_letter ic (p : N → bool) c :
  (∀ x, p x = true → ¬ letter x) →
  existsb p (case_variants ic c) = p c.
Proof.
  intros Hp. destruct ic; simpl; [|by rewrite orb_false_r].
  destruct (p c) eqn:Ec; [done|]. simpl. rewrite orb_false_r.
  apply orb_false_iff. split.
  - destruct (p (to_upper c)) eqn:E; [|done]. pose proof (Hp _ E) as Hl.
    destruct (to_upper_cases c) as [Eq|?]; [congruence|]. unfold letter in Hl. lia.
  - destruct (p (to_lower c)) eqn:E; [|done]. pose proof (Hp _ E) as Hl.
    destruct (to_lower_cases c) as [Eq|?]; [congruence|]. unfold letter in Hl. lia.
Qed.

Lemma class_has_space ic c : class_has ic [CSpace] c = is_space c.
Proof.
  unfold class_has. cbn [existsb item_has]. rewrite orb_false_r.
  apply variants_not_letter, is_space_not_letter.
Qed.

Lemma item_has_CChar ic a c :
  ¬ letter a → existsb (item_has (CChar a)) (case_variants ic c) = (c =? a)%N.
Proof.
  intros Ha. apply (variants_not_letter ic (λ x, (x =? a)%N)).
  intros x ->%N.eqb_eq. done.
Qed.

Lemma class_has_chars ic (l : list N) c :
  Forall (λ a, ¬ letter a) l → class_has ic (CChar <$> l) c = true ↔ c ∈ l.
Proof.
  unfold class_has. induction 1 as [|a l Ha _ IH].
  - simpl. by rewrite elem_of_nil.
  - rewrite fmap_cons. cbn [existsb].
    rewrite item_has_CChar, orb_true_iff, IH, N.eqb_eq, elem_of_cons by done.
    done.
Qed.

Ltac not_letters :=
  repeat constructor; unfold letter, dquote, chr; simpl; lia.

Lemma class_has_quote ic c : class_has ic quote_chars c = true ↔ is_quote c.
Proof.
  change quote_chars with (CChar <$> [chr "'"; dquote; chr "`"]).
  rewrite class_has_chars by not_letters. unfold is_quote.
  rewrite !elem_of_cons, elem_of_nil. tauto.
Qed.

Lemma class_has_sep ic c :
  class_has ic [CChar (chr ":"); CChar (chr "=")] c = true
  ↔ c = chr ":" ∨ c = chr "=".
Proof.
  change [CChar (chr ":"); CChar (chr "=")] with (CChar <$> [chr ":"; chr "="]).
  rewrite class_has_chars by not_letters.
  rewrite !elem_of_cons, elem_of_nil. tauto.
Qed.

Lemma class_has_joiner ic c :
  class_has ic [CChar (chr "_"); CChar (chr "-")] c = true
  ↔ c = chr "_" ∨ c = chr "-".
Proof.
  change [CChar (chr "_"); CChar (chr "-")] with (CChar <$> [chr "_"; chr "-"]).
  rewrite class_has_chars by not_letters.
  rewrite !elem_of_cons, elem_of_nil. tauto.
Qed.

Lemma class_has_env_char c :
  class_has false
    [CRange (chr "A") (chr "Z"); CRange (chr "0") (chr "9"); CChar (chr "_")] c
  = is_env_char c.
Proof.
  unfold class_has, is_env_char, chr. cbn [existsb case_variants item_has].
  rewrite !orb_false_r. apply orb_assoc.
Qed.

Lemma lang_Seq ic a b w :
  lang ic (a · b) w ↔ ∃ u v, w = u ++ v ∧ lang ic a u ∧ lang ic b v.
Proof. done. Qed.

Lemma lang_Alt ic a b w : lang ic (a ∣ b) w ↔ lang ic a w ∨ lang ic b w.
Proof. done. Qed.

Lemma lang_Group ic n a w : lang ic (Group n a) w ↔ lang ic a w.
Proof. done. Qed.

Lemma lang_Opt ic a w : lang ic (Opt a) w ↔ lang ic a w ∨ w = [].
Proof. done. Qed.

Lemma lang_Class ic neg items w :
  lang ic (Class neg items) w
  ↔ ∃ c, w = [c] ∧ xorb neg (class_has ic items c) = true.
Proof. done. Qed.

Lemma lang_Char ic a w :
  lang ic (Char a) w ↔ ∃ c, w = [c] ∧ canonicalize ic c = canonicalize ic a.
Proof. done. Qed.

Lemma lang_Lit ic s w :
  lang ic (Lit s) w ↔ canonicalize ic <$> w = canonicalize ic <$> s.
Proof.
  revert w. induction s as [|a s IH]; intros w; simpl.
  - split; [by intros ->|]. by intros ?%fmap_nil_inv.
  - split.
    + intros (u&v&->&(c&->&Hc)&Hv%IH). rewrite fmap_app, !fmap_cons, Hc, Hv. done.
    + destruct w as [|c w]; [done|]. rewrite !fmap_cons. intros [= Hc Hw].
      exists [c], w. split_and!; [done|eauto|by apply IH].
Qed.

Lemma lang_Lit_ci s w : lang true (Lit s) w ↔ ci_eq w s.
Proof. apply lang_Lit. Qed.

Lemma regular_Lit s : regular (Lit s) = true.
Proof. induction s; simpl; auto. Qed.

Lemma lang_Star_one ic a p w :
  one_char ic a p → lang ic (Star a) w ↔ Forall (λ c, p c = true) w.
Proof.
  intros Ha. simpl. split.
  - intros (ws&->&HF). induction HF as [|x ws [_ (c&->&Hc)%Ha] _ IH]; simpl;
      [done|by constructor].
  - intros HF. exists ((λ c, [c]) <$> w). split.
    + clear. induction w as [|c w IH]; [done|]. rewrite fmap_cons. simpl. by rewrite <-IH.
    + induction HF as [|c w Hc _ IH]; simpl; constructor; [|done].
      split; [done|]. apply Ha. eauto.
Qed.

Lemma lang_Plus_one ic a p w :
  one_char ic a p → lang ic (Plus a) w ↔ w ≠ [] ∧ Forall (λ c, p c = true) w.
Proof.
  intros Ha. unfold Plus. change (lang ic (a · Star a) w) with
    (∃ u v, w = u ++ v ∧ lang ic a u ∧ lang ic (Star a) v).
  setoid_rewrite (lang_Star_one _ _ _ _ Ha). setoid_rewrite (Ha _). split.
  - intros (u&v&->&(c&->&Hc)&Hv). split; [done|]. by constructor.
  - intros [Hne HF]. destruct HF as [|c w Hc HF]; [done|].
    exists [c], w. eauto.
Qed.

Lemma one_char_Dot ic : one_char ic Dot (λ c, negb (is_line_terminator c)).
Proof. intros x. simpl. by setoid_rewrite negb_true_iff. Qed.

Lemma one_char_Class ic neg items :
  one_char ic (Class neg items) (λ c, xorb neg (class_has ic items c)).
Proof. by intros x. Qed.

Lemma lang_spaces ic w : lang ic (Star Space) w ↔ whitespace w.
Proof.
  rewrite (lang_Star_one ic Space (λ c, is_space c)); [done|].
  intros x. unfold Space. rewrite lang_Class. simpl.
  by setoid_rewrite class_has_space.
Qed.

Lemma lang_any ic w :
  lang ic (Star Dot) w ↔ Forall (λ c, is_line_terminator c = false) w.
Proof.
  rewrite (lang_Star_one _ _ _ _ (one_char_Dot _)).
  apply Forall_iff. intros c. apply negb_true_iff.
Qed.

Lemma lang_text w :
  lang true (Plus Dot) w
  ↔ w ≠ [] ∧ Forall (λ c, is_line_terminator c = false) w.
Proof.
  rewrite (lang_Plus_one _ _ _ _ (one_char_Dot _)). f_equiv.
  apply Forall_iff. intros c. apply negb_true_iff.
Qed.

Lemma lang_quote ic w :
  lang ic (Class false quote_chars) w ↔ ∃ c, w = [c] ∧ is_quote c.
Proof. rewrite lang_Class. simpl. by setoid_rewrite class_has_quote. Qed.

Lemma lang_unquoted ic w :
  lang ic (Plus (Class true quote_chars)) w
  ↔ w ≠ [] ∧ Forall (λ c, ¬ is_quote c) w.
Proof.
  rewrite (lang_Plus_one _ _ _ _ (one_char_Class _ _ _)).
  f_equiv. apply Forall_iff. intros c. rewrite <-(class_has_quote ic).
  destruct (class_has ic quote_chars c); simpl; intuition congruence.
Qed.

Lemma ci_eq_app u v a b : ci_eq u a → ci_eq v b → ci_eq (u ++ v) (a ++ b).
Proof. unfold ci_eq. rewrite !fmap_app. by intros -> ->. Qed.

Lemma ci_eq_app_inv w a b :
  ci_eq w (a ++ b) → ∃ u v, w = u ++ v ∧ ci_eq u a ∧ ci_eq v b.
Proof.
  unfold ci_eq. rewrite fmap_app. intros (u&v&?&?&->)%fmap_app_inv. eauto.
Qed.

Lemma ci_eq_length w s : ci_eq w s → length w = length s.
Proof. unfold ci_eq. intros H. by rewrite <-(length_fmap to_upper w), H, length_fmap. Qed.

Lemma ci_eq_not_letter c a : ¬ letter a → ci_eq [c] [a] ↔ c = a.
Proof.
  intros Ha. unfold ci_eq. simpl. split; [|by intros ->].
  intros [= H]. unfold letter in Ha.
  destruct (to_upper_cases c) as [Ec|?], (to_upper_cases a) as [Ea|?]; lia.
Qed.

Lemma ci_eq_exact w s : Forall (λ a, ¬ letter a) s → ci_eq w s → w = s.
Proof.
  intros Hs. revert w. induction Hs as [|a s Ha _ IH]; intros w Hw.
  - by apply fmap_nil_inv in Hw.
  - destruct w as [|c w]; [done|]. unfold ci_eq in Hw. rewrite !fmap_cons in Hw.
    injection Hw as Hc Hw. f_equal; [|by apply IH].
    by apply (ci_eq_not_letter c a Ha); unfold ci_eq; simpl; rewrite Hc.
Qed.

Lemma ci_contains_infix s a b kw :
  ci_contains s kw → ci_contains (a ++ s ++ b) kw.
Proof.
  intros (pre&w&post&->&Hw). exists (a ++ pre), w, (post ++ b).
  by rewrite <-!(assoc_L (++)).
Qed.

Lemma trim_start_spaces ws t : whitespace ws → trim_start (ws ++ t) = trim_start t.
Proof. induction 1 as [|c ws Hc _ IH]; simpl; [done|by rewrite Hc]. Qed.

Lemma trim_spaces ws t : whitespace ws → trim (ws ++ t) = trim t.
Proof. intros. unfold trim. by rewrite trim_start_spaces. Qed.

Lemma space_not_colon c : is_space c = true → c ≠ chr ":".
Proof.
  intros Hc ->. by vm_compute in Hc.
Qed.

Ltac ci_solve :=
  repeat apply ci_eq_app; first [assumption | by unfold ci_eq].


(** ** The patterns of the program *)

(** *** Secrets *)

Lemma lang_secret_kind tok : lang true secret_kind tok ↔ secret_token tok.
Proof.
  unfold secret_kind, secret_token. rewrite lang_Group. split.
  - intros [(u&?&->&Hu%lang_Lit_ci&o&k&->
             &[(c&->&Hc%class_has_joiner)%lang_Class| ->]%lang_Opt
             &Hk%lang_Lit_ci)
           |[?%lang_Lit_ci|[?%lang_Lit_ci|?%lang_Lit_ci]]].
    + destruct Hc as [-> | ->].
      * exists (js "api_key"). split; [repeat constructor|].
        change (js "api_key") with (js "api" ++ js "_" ++ js "key"). ci_solve.
      * exists (js "api-key"). split; [repeat constructor|].
        change (js "api-key") with (js "api" ++ js "-" ++ js "key"). ci_solve.
    + exists (js "apikey"). split; [repeat constructor|].
      change (js "apikey") with (js "api" ++ js "key"). ci_solve.
    + exists (js "apikey"). split; [repeat constructor|done].
    + exists (js "secret"). split; [repeat constructor|done].
    + exists (js "token"). split; [repeat constructor|done].
  - intros (name&Hname&Hci).
    rewrite !elem_of_cons, elem_of_nil in Hname.
    destruct Hname as [->|[->|[->|[->|[->|[]]]]]].
    + left. apply (ci_eq_app_inv _ (js "api") (js "_key")) in Hci as (u&v&->&Hu&Hv).
      apply (ci_eq_app_inv _ (js "_") (js "key")) in Hv as (o&k&->&Ho&Hk).
      destruct o as [|c [|??]]; try by apply ci_eq_length in Ho.
      apply ci_eq_not_letter in Ho as ->; [|unfold letter; simpl; lia].
      exists u, (chr "_" :: k). split_and!; [done|by apply lang_Lit_ci|].
      exists [chr "_"], k. split_and!; [done| |by apply lang_Lit_ci].
      left. exists (chr "_"). split; [done|]. by apply class_has_joiner; left.
    + right. left. by apply lang_Lit_ci.
    + left. apply (ci_eq_app_inv _ (js "api") (js "-key")) in Hci as (u&v&->&Hu&Hv).
      apply (ci_eq_app_inv _ (js "-") (js "key")) in Hv as (o&k&->&Ho&Hk).
      destruct o as [|c [|??]]; try by apply ci_eq_length in Ho.
      apply ci_eq_not_letter in Ho as ->; [|unfold letter; simpl; lia].
      exists u, (chr "-" :: k). split_and!; [done|by apply lang_Lit_ci|].
      exists [chr "-"], k. split_and!; [done| |by apply lang_Lit_ci].
      left. exists (chr "-"). split; [done|]. by apply class_has_joiner; right.
    + right. right. left. by apply lang_Lit_ci.
    + right. right. right. by apply lang_Lit_ci.
Qed.

Lemma Lang_secretRegex w : Lang secretRegex w ↔ secret_assignment w.
Proof.
  unfold Lang, secretRegex, secret_assignment, quoted_literal. simpl source.
  simpl ignoreCase. split.
  - intros (tok&?&->&Htok%lang_secret_kind&ws1&?&->&Hws1%lang_spaces
            &?&?&->&(sep&->&Hsep%class_has_sep)%lang_Class
            &ws2&?&->&Hws2%lang_spaces&?&?&->&(q1&->&Hq1)%lang_quote
            &lit&?&->&Hlit%lang_unquoted&(q2&->&Hq2)%lang_quote).
    destruct Hlit. exists tok, ws1, sep, ws2, (q1 :: lit ++ [q2]).
    split_and!; [done..|]. eauto 10.
  - intros (tok&ws1&sep&ws2&?&->&Htok&Hws1&Hsep&Hws2&q1&lit&q2&->&?&?&?&?).
    exists tok, (ws1 ++ sep :: ws2 ++ q1 :: lit ++ [q2]).
    split_and!; [done|by apply lang_secret_kind|].
    exists ws1, (sep :: ws2 ++ q1 :: lit ++ [q2]).
    split_and!; [done|by apply lang_spaces|].
    exists [sep], (ws2 ++ q1 :: lit ++ [q2]).
    split_and!; [done|apply lang_Class; exists sep; split; [done|by apply class_has_sep]|].
    exists ws2, (q1 :: lit ++ [q2]). split_and!; [done|by apply lang_spaces|].
    exists [q1], (lit ++ [q2]). split_and!; [done|apply lang_quote; eauto|].
    exists lit, [q2]. split_and!; [done|by apply lang_unquoted|apply lang_quote; eauto].
Qed.

Lemma recognises_secretRegex : recognises secretRegex secret_assignment.
Proof.
  eapply recognises_ext; [apply Lang_secretRegex|].
  by apply Regular_recognises.
Qed.

Lemma recognises_secretKindRegex : recognises secretKindRegex secret_token.
Proof.
  eapply recognises_ext; [apply lang_secret_kind|].
  by apply Regular_recognises.
Qed.

Lemma str_match_secretKind line m :
  str_match line secretKindRegex = Some m → group m 1 = Some (matched m).
Proof.
  intros (k&_&(st&Hst&->)%match_at_Some&_)%exec_from_Some.
  apply ms_Group_pure in Hst as (w&Hr&_&Hp&Hc); [|done]. simpl in *.
  unfold group. simpl. rewrite Hc, Hp, Hr. simpl.
  replace (k + length w - k) with (length w) by lia.
  by rewrite take_app_length.
Qed.

Lemma sanitize_env_name tok :
  replace_all (toUpperCase tok) nonEnvCharRegex (js "_") = env_name tok.
Proof.
  unfold nonEnvCharRegex. rewrite replace_all_class. unfold env_name.
  induction (toUpperCase tok) as [|c s IH]; [done|].
  rewrite bind_cons, fmap_cons, IH, class_has_env_char.
  by destruct (is_env_char c).
Qed.

(** *** Keywords *)

(** Containment up to case is decided by a literal pattern. *)
Lemma ci_contains_test s kw :
  ci_contains s kw ↔ test (RegExp (Lit kw) true) s = true.
Proof.
  symmetry. apply recognised_test.
  eapply recognises_ext; [|apply Regular_recognises, regular_Lit].
  intros w. apply lang_Lit_ci.
Qed.

Lemma recognises_authKeywordRegex :
  recognises authKeywordRegex (Lang authKeywordRegex).
Proof. by apply Regular_recognises. Qed.

Lemma recognises_sensitiveNameRegex :
  recognises sensitiveNameRegex (Lang sensitiveNameRegex).
Proof. by apply Regular_recognises. Qed.

Lemma test_sensitive_name name kw :
  kw ∈ sensitive_names → ci_contains name kw →
  test sensitiveNameRegex name = true.
Proof.
  intros Hkw (pre&w&post&->&Hw).
  apply (recognised_test _ _ recognises_sensitiveNameRegex).
  exists pre, w, post.
  split; [done|]. unfold sensitive_names in Hkw.
  rewrite !elem_of_cons, elem_of_nil in Hkw.
  destruct Hkw as [->|[->|[->|[->|[]]]]].
  - left. by apply lang_Lit_ci.
  - right; left. by apply lang_Lit_ci.
  - right; right; left. by apply lang_Lit_ci.
  - right; right; right. by apply lang_Lit_ci.
Qed.

Lemma test_auth_keywords line kw :
  kw ∈ auth_keywords → ci_contains line kw →
  test authKeywordRegex line = true.
Proof.
  intros Hkw (pre&w&post&->&Hw).
  apply (recognised_test _ _ recognises_authKeywordRegex).
  exists pre, w, post.
  split; [done|]. unfold auth_keywords in Hkw.
  rewrite !elem_of_cons, elem_of_nil in Hkw.
  destruct Hkw as [->|[->|[->|[->|[->|[]]]]]].
  - left. by apply lang_Lit_ci.
  - right; left. by apply lang_Lit_ci.
  - right; right; left. by apply lang_Lit_ci.
  - right; right; right; left.
    apply (ci_eq_app_inv _ (js "req") (js ".user")) in Hw as (u&v&->&Hu&Hv).
    apply (ci_eq_app_inv _ (js ".") (js "user")) in Hv as (o&k&->&Ho&Hk).
    destruct o as [|c [|??]]; try by apply ci_eq_length in Ho.
    apply ci_eq_not_letter in Ho as ->; [|unfold letter; simpl; lia].
    exists u, (chr "." :: k). split_and!; [done|by apply lang_Lit_ci|].
    exists [chr "."], k. split_and!; [done| |by apply lang_Lit_ci].
    by exists (chr ".").
  - right; right; right; right. by apply lang_Lit_ci.
Qed.

(** *** Prompt lines *)

Lemma lang_prompt_head h :
  lang true prompt_head h
  ↔ ∃ m ws4, h = m ++ ws4 ∧ prompt_marker m ∧ whitespace ws4.
Proof.
  unfold prompt_head, prompt_marker. split.
  - intros (ws1&?&->&Hws1%lang_spaces&mk&?&->&Hmk&ws2&?&->&Hws2%lang_spaces
            &kw&?&->&Hkw%lang_Lit_ci&ws3&?&->&Hws3%lang_spaces
            &?&ws4&->&(c&->&Hc)%lang_Char&Hws4%lang_spaces).
    exists (ws1 ++ mk ++ ws2 ++ kw ++ ws3 ++ [chr ":"]), ws4.
    assert (c = chr ":") as ->.
    { apply (ci_eq_not_letter c (chr ":")); [unfold letter, chr; simpl; lia|].
      unfold ci_eq. simpl. by f_equal. }
    split_and!; [by rewrite <-!(assoc_L (++))| |done].
    exists ws1, mk, ws2, kw, ws3. split_and!; try done.
    destruct Hmk as [Hmk%lang_Lit_ci|Hmk%lang_Lit_ci]; [left|right];
      (apply ci_eq_exact; [not_letters|done]).
  - intros (m&ws4&->&(ws1&mk&ws2&kw&ws3&->&Hws1&Hmk&Hws2&Hkw&Hws3)&Hws4).
    rewrite <-!(assoc_L (++)).
    exists ws1, (mk ++ ws2 ++ kw ++ ws3 ++ [chr ":"] ++ ws4).
    split_and!; [done|by apply lang_spaces|].
    exists mk, (ws2 ++ kw ++ ws3 ++ [chr ":"] ++ ws4). split_and!; [done| |].
    { destruct Hmk as [-> | ->]; [left|right]; by apply lang_Lit_ci. }
    exists ws2, (kw ++ ws3 ++ [chr ":"] ++ ws4).
    split_and!; [done|by apply lang_spaces|].
    exists kw, (ws3 ++ [chr ":"] ++ ws4). split_and!; [done|by apply lang_Lit_ci|].
    exists ws3, ([chr ":"] ++ ws4). split_and!; [done|by apply lang_spaces|].
    exists [chr ":"], ws4. split_and!; [done| |by apply lang_spaces].
    apply lang_Char. by exists (chr ":").
Qed.

(** A match of the prompt pattern starts at 0, ends at the end of the
    line, and captures what follows the head. *)
Lemma ms_promptRegex p s c st' :
  st' ∈ ms true (source promptRegex) (MS p s c) ↔
  p = 0 ∧ ∃ h txt, s = h ++ txt ∧ lang true prompt_head h ∧
    lang true (Plus Dot) txt ∧
    st' = MS (length s) [] (<[1 := Some txt]> c).
Proof.
  simpl source. rewrite ms_Seq. split.
  - intros (st0&H0&(st1&(h&Hh&HLh&Hp1&Hc1)%ms_pure
                    &(st2&(txt&Ht&HLt&Hp2&Hc2)%ms_Group_pure&H3)%ms_Seq)%ms_Seq);
      [|done..].
    simpl in H0, H3. case_decide as Hp0; [|by apply elem_of_nil in H0].
    apply list_elem_of_singleton in H0 as ->. simpl in *. subst p.
    destruct (rest st2) eqn:E2; [|by apply elem_of_nil in H3].
    apply list_elem_of_singleton in H3 as ->. rewrite app_nil_r in Ht.
    split; [done|]. exists h, txt. rewrite Hh, Ht. split_and!; [done..|].
    destruct st2 as [p2 s2 c2]. simpl in *. subst.
    rewrite length_app. f_equal. lia.
  - intros (->&h&txt&->&HLh&HLt&->). exists (MS 0 (h ++ txt) c). split.
    { simpl. by left. }
    apply ms_Seq. exists (MS (length h) txt c). split.
    { apply ms_pure; [done|]. by exists h. }
    apply ms_Seq. exists (MS (length (h ++ txt)) [] (<[1:=Some txt]> c)). split.
    + apply ms_Group_pure; [done|]. exists txt. simpl.
      by rewrite app_nil_r, length_app.
    + simpl. by left.
Qed.

Lemma match_at_promptRegex_later p s : match_at promptRegex (S p) s = None.
Proof.
  unfold match_at. destruct (ms _ _ _) as [|st l] eqn:E; [done|].
  assert (st ∈ ms (ignoreCase promptRegex) (source promptRegex)
            (MS (S p) s (no_caps (source promptRegex)))) as H
    by (rewrite E; by left).
  by apply ms_promptRegex in H as [? _].
Qed.

Lemma exec_from_promptRegex_later s : ∀ p, exec_from promptRegex (S p) s = None.
Proof.
  induction s as [|c s IH]; intros p; cbn [exec_from];
    rewrite match_at_promptRegex_later; [done|apply IH].
Qed.

Lemma str_match_promptRegex s :
  str_match s promptRegex = match_at promptRegex 0 s.
Proof.
  unfold str_match. destruct s as [|c s]; cbn [exec_from];
    destruct (match_at promptRegex 0 _); try done.
  apply exec_from_promptRegex_later.
Qed.

(** The head of a prompt line holds its only colon at the end. *)
Lemma prompt_marker_colon m :
  prompt_marker m → ∃ b, m = b ++ [chr ":"] ∧ Forall (λ c, c ≠ chr ":") b.
Proof.
  intros (ws1&mk&ws2&kw&ws3&->&Hws1&Hmk&Hws2&Hkw&Hws3).
  exists (ws1 ++ mk ++ ws2 ++ kw ++ ws3). split; [by rewrite <-!(assoc_L (++))|].
  rewrite !Forall_app. split_and!.
  - eapply Forall_impl; [exact Hws1|]. apply space_not_colon.
  - destruct Hmk as [-> | ->]; by repeat constructor.
  - eapply Forall_impl; [exact Hws2|]. apply space_not_colon.
  - apply Forall_forall. intros c Hc ->.
    assert (to_upper (chr ":") ∈ to_upper <$> kw) as Hin
      by (apply list_elem_of_fmap; eauto).
    rewrite Hkw in Hin. vm_compute in Hin.
    repeat (apply elem_of_cons in Hin as [Hin|Hin]; [done|]).
    by apply elem_of_nil in Hin.
  - eapply Forall_impl; [exact Hws3|]. apply space_not_colon.
Qed.

Lemma prompt_marker_unique m1 m2 t1 t2 :
  prompt_marker m1 → prompt_marker m2 → m1 ++ t1 = m2 ++ t2 →
  m1 = m2 ∧ t1 = t2.
Proof.
  intros (b1&->&H1)%prompt_marker_colon (b2&->&H2)%prompt_marker_colon.
  rewrite <-!(assoc_L (++)). simpl. intros E.
  by destruct (first_occurrence_unique _ _ _ _ _ H1 H2 E) as [-> ->].
Qed.

(** What the loop takes from a line: the trimmed text of a prompt line,
    and nothing from any other line. *)
Lemma userPrompt_of_prompt_line line text :
  prompt_line line text → userPrompt_of line = Some (trim text).
Proof.
  intros (h&->&Hh&ws&txt&->&Hws&Hne&Htxt).
  unfold userPrompt_of. rewrite str_match_promptRegex. unfold match_at.
  destruct (ms _ _ _) as [|st l] eqn:E.
  - assert (MS (length (h ++ ws ++ txt)) [] (<[1:=Some txt]> (no_caps (source promptRegex)))
            ∈ ms (ignoreCase promptRegex) (source promptRegex)
                (MS 0 (h ++ ws ++ txt) (no_caps (source promptRegex)))) as H.
    { apply ms_promptRegex. split; [done|]. exists (h ++ ws), txt.
      split_and!; [by rewrite <-(assoc_L (++))| |by apply lang_text|done].
      apply lang_prompt_head. eauto. }
    rewrite E in H. by apply elem_of_nil in H.
  - assert (st ∈ ms (ignoreCase promptRegex) (source promptRegex)
              (MS 0 (h ++ ws ++ txt) (no_caps (source promptRegex)))) as H
      by (rewrite E; by left).
    apply ms_promptRegex in H as (_&h'&txt'&Hs&(m'&ws'&->&Hm'&Hws')%lang_prompt_head
                                  &_&->).
    simpl. f_equal.
    rewrite <-(assoc_L (++)) in Hs.
    destruct (prompt_marker_unique _ _ _ _ Hh Hm' Hs) as [_ ->].
    by rewrite trim_spaces.
Qed.

Lemma userPrompt_of_Some line p :
  userPrompt_of line = Some p → ∃ text, prompt_line line text ∧ p = trim text.
Proof.
  unfold userPrompt_of. rewrite str_match_promptRegex.
  destruct (match_at promptRegex 0 line) as [m|] eqn:E; [|done]. simpl.
  intros [= <-]. apply match_at_Some in E as (st&H&->).
  apply ms_promptRegex in H as (_&h&txt&->&(m'&ws'&->&Hm'&Hws')%lang_prompt_head
                                &[Hne Htxt]%lang_text&->).
  simpl. exists (ws' ++ txt). split; [|by rewrite trim_spaces].
  exists m'. split_and!; [by rewrite <-(assoc_L (++))|done|].
  by exists ws', txt.
Qed.

(** *** Literals *)

Lemma starts_with_cons q s : starts_with [q] s = true ↔ ∃ s', s = q :: s'.
Proof.
  rewrite starts_with_iff. split; intros (s'&->); eauto.
Qed.

Lemma ms_quotedRegex p s c st' :
  1 < length c →
  st' ∈ ms false (source quotedRegex) (MS p s c) ↔
  ∃ q lit, s = q :: lit ++ q :: rest st' ∧ is_quote q ∧ lit ≠ [] ∧
    Forall (λ c, ¬ is_quote c) lit ∧
    pos st' = p + length (q :: lit ++ [q]) ∧
    caps st' = <[2 := Some lit]> (<[1 := Some [q]]> c).
Proof.
  intros Hc. simpl source. rewrite ms_Seq. split.
  - intros (st1&(w1&Hr1&(q&->&Hq)%lang_quote&Hp1&Hc1)%ms_Group_pure
             &(st2&(lit&Hr2&[Hne Hlit]%lang_unquoted&Hp2&Hc2)%ms_Group_pure
               &H3)%ms_Seq); [|done..].
    simpl in *. rewrite Hc2, Hc1 in H3.
    rewrite list_lookup_insert_ne, list_lookup_insert_eq in H3 by (done || lia).
    change (ci_prefix false [q] (rest st2)) with (starts_with [q] (rest st2)) in H3.
    destruct (starts_with [q] (rest st2)) eqn:E; [|by apply elem_of_nil in H3].
    apply starts_with_cons in E as (s'&E).
    apply list_elem_of_singleton in H3 as ->. unfold advance. simpl.
    rewrite E. simpl. rewrite drop_0.
    exists q, lit. rewrite Hr1, Hr2, E, Hp2, Hp1, Hc2, Hc1, length_app. simpl.
    split_and!; [done..|lia|done].
  - intros (q&lit&->&Hq&Hne&Hlit&Hp&Hcaps).
    exists (MS (p + 1) (lit ++ q :: rest st') (<[1:=Some [q]]> c)). split.
    { apply ms_Group_pure; [done|]. exists [q].
      split_and!; [done|apply lang_quote; by exists q|done..]. }
    apply ms_Seq.
    exists (MS (p + 1 + length lit) (q :: rest st')
              (<[2:=Some lit]> (<[1:=Some [q]]> c))). split.
    { apply ms_Group_pure; [done|]. exists lit.
      split_and!; [done|by apply lang_unquoted|done..]. }
    simpl. rewrite list_lookup_insert_ne, list_lookup_insert_eq by (done || lia).
    simpl. rewrite N.eqb_refl. simpl. apply list_elem_of_singleton.
    destruct st' as [p' s' c']. simpl in *. subst. unfold advance. simpl.
    rewrite drop_0. f_equal. rewrite length_app. simpl. lia.
Qed.

Lemma recognises_quotedRegex : recognises quotedRegex same_quoted.
Proof.
  split.
  - intros p s m (st&Hst&->)%match_at_Some. simpl.
    apply ms_quotedRegex in Hst as (q&lit&->&Hq&Hne&Hlit&Hp&_); [|simpl; lia].
    split; [done|]. exists (rest st). rewrite Hp.
    replace (p + length (q :: lit ++ [q]) - p) with (length (q :: lit ++ [q]))
      by lia.
    assert (q :: lit ++ q :: rest st = (q :: lit ++ [q]) ++ rest st) as ->
      by (simpl; by rewrite <-(assoc_L (++))).
    rewrite take_app_length. split; [done|]. by exists q, lit.
  - intros p w post (q&lit&->&Hq&Hne&Hlit). unfold match_at.
    destruct (ms _ _ _) as [|st l] eqn:E; [|eauto].
    assert (MS (p + length (q :: lit ++ [q])) post
              (<[2:=Some lit]> (<[1:=Some [q]]> (no_caps (source quotedRegex))))
            ∈ ms (ignoreCase quotedRegex) (source quotedRegex)
                (MS p ((q :: lit ++ [q]) ++ post) (no_caps (source quotedRegex))))
      as H.
    { apply ms_quotedRegex; [simpl; lia|]. exists q, lit. simpl.
      by rewrite <-(assoc_L (++)). }
    rewrite E in H. by apply elem_of_nil in H.
Qed.

Lemma same_quoted_prefix_unique w w' post post' :
  same_quoted w → same_quoted w' → w ++ post = w' ++ post' → w = w'.
Proof.
  intros (q&lit&->&Hq&_&Hlit) (q'&lit'&->&_&_&Hlit'). simpl.
  rewrite <-!(assoc_L (++)). simpl. intros [= <- E].
  assert (∀ l, Forall (λ c, ¬ is_quote c) l → Forall (λ x, x ≠ q) l) as Hne.
  { intros l Hl. eapply Forall_impl; [exact Hl|]. by intros c Hc ->. }
  by destruct (first_occurrence_unique q lit lit' _ _ (Hne _ Hlit) (Hne _ Hlit') E)
    as [-> _].
Qed.

Lemma Lang_assignedLiteralRegex w :
  Lang assignedLiteralRegex w ↔ assigned_literal w.
Proof.
  unfold Lang, assignedLiteralRegex, assigned_literal. simpl source.
  simpl ignoreCase. split.
  - intros (?&?&->&(c&->&Hc)%lang_Char&?&?&->&(q1&->&Hq1)%lang_quote
            &mid&?&->&Hmid%lang_any&(q2&->&Hq2)%lang_quote).
    simpl in Hc. subst c. exists q1, mid, q2. done.
  - intros (q1&mid&q2&->&Hq1&Hq2&Hmid).
    exists [chr "="], (q1 :: mid ++ [q2]). split_and!; [done|by exists (chr "=")|].
    exists [q1], (mid ++ [q2]). split_and!; [done|apply lang_quote; eauto|].
    exists mid, [q2]. split_and!; [done|by apply lang_any|apply lang_quote; eauto].
Qed.

Lemma recognises_assignedLiteralRegex :
  recognises assignedLiteralRegex assigned_literal.
Proof.
  eapply recognises_ext; [apply Lang_assignedLiteralRegex|].
  by apply Regular_recognises.
Qed.

(** ** The pattern scanner *)

Lemma new_Range_line i c1 c2 : startLine (new_Range i c1 i c2) = i.
Proof. unfold new_Range. by case_decide. Qed.

Lemma new_Range_ordered i c1 c2 :
  c1 ≤ c2 →
  new_Range i c1 i c2
  = {| startLine := i; startCol := c1; endLine := i; endCol := c2 |}.
Proof. intros. unfold new_Range. rewrite decide_True; [done|lia]. Qed.

Lemma secret_rule_push line i acc :
  secret_rule line i acc = acc ++ secret_rule line i [].
Proof. unfold secret_rule. destruct (str_match _ _); [done|by rewrite app_nil_r]. Qed.

Lemma auth_rule_push lines line i acc :
  auth_rule lines line i acc = acc ++ auth_rule lines line i [].
Proof.
  unfold auth_rule. destruct (str_match _ _); [|by rewrite app_nil_r].
  repeat case_match; by rewrite ?app_nil_r.
Qed.

Lemma secret_rule_elem line i d :
  d ∈ secret_rule line i [] → on_line i d ∧ code d = hardcoded_secret.
Proof.
  unfold secret_rule. destruct (str_match _ _); [|by intros ?%elem_of_nil].
  intros ->%list_elem_of_singleton. split; [apply new_Range_line|done].
Qed.

Lemma auth_rule_elem lines line i d :
  d ∈ auth_rule lines line i [] → on_line i d ∧ code d = missing_auth.
Proof.
  unfold auth_rule. repeat case_match; try by intros ?%elem_of_nil.
  intros ->%list_elem_of_singleton. split; [apply new_Range_line|done].
Qed.

Lemma findIssues_split document :
  findIssuesWithRegex document
  = concat (imap (λ j x, secret_rule x j []) (doc_lines document))
    ++ concat (imap (λ j x, auth_rule (doc_lines document) x j [])
                 (doc_lines document)).
Proof.
  unfold findIssuesWithRegex.
  rewrite (forEach_push (auth_rule _)) by apply auth_rule_push.
  rewrite (forEach_push secret_rule) by apply secret_rule_push. done.
Qed.

(** The diagnostics of one kind on one line are those its rule pushed. *)
Lemma secret_on_line document i line :
  doc_lines document !! i = Some line →
  filter (λ d, code d = hardcoded_secret ∧ on_line i d)
    (findIssuesWithRegex document)
  = secret_rule line i [].
Proof.
  intros Hi. rewrite findIssues_split, filter_app.
  rewrite (filter_key_imap (λ d, startLine (range d))
             (λ j x, secret_rule x j []) _
             (λ j x d H, proj1 (secret_rule_elem x j d H)) _ 0 i), Hi. simpl.
  rewrite (filter_none _ (concat _)).
  - rewrite app_nil_r. apply filter_all. by intros d [_ ?]%secret_rule_elem.
  - intros d (ds&Hds&Hd)%elem_of_concat.
    apply list_elem_of_lookup in Hds as (j&Hj). rewrite list_lookup_imap in Hj.
    destruct (_ !! j); simplify_eq/=. apply auth_rule_elem in Hd as [_ Hc].
    rewrite Hc. by intros [? _].
Qed.

Lemma auth_on_line document i line :
  doc_lines document !! i = Some line →
  filter (λ d, code d = missing_auth ∧ on_line i d)
    (findIssuesWithRegex document)
  = auth_rule (doc_lines document) line i [].
Proof.
  intros Hi. rewrite findIssues_split, filter_app.
  rewrite (filter_key_imap (λ d, startLine (range d))
             (λ j x, auth_rule (doc_lines document) x j []) _
             (λ j x d H, proj1 (auth_rule_elem _ x j d H)) _ 0 i), Hi. simpl.
  rewrite (filter_none _ (concat _)).
  - simpl. apply filter_all. by intros d [_ ?]%auth_rule_elem.
  - intros d (ds&Hds&Hd)%elem_of_concat.
    apply list_elem_of_lookup in Hds as (j&Hj). rewrite list_lookup_imap in Hj.
    destruct (_ !! j); simplify_eq/=. apply secret_rule_elem in Hd as [_ Hc].
    rewrite Hc. by intros [? _].
Qed.

(** *** Hardcoded secrets *)

(** C1, as amended.  On every line of the document that contains a secret
    assignment (one of the five tokens in any case, optional whitespace, a
    colon or an equals sign, optional whitespace, a quote character, one or
    more characters that are not quote characters, a quote character) the
    scan reports exactly one diagnostic with the code [hardcoded_secret]: a
    warning with the fixed message, from the first character of the
    leftmost such assignment, which is where the pattern matched, to the
    end of the line. *)
Theorem hardcoded_secret_reported document i line :
  doc_lines document !! i = Some line →
  occurs_in secret_assignment line →
  ∃ m pre post,
    str_match line secretRegex = Some m ∧
    leftmost secret_assignment line pre (matched m) post ∧
    filter (λ d, code d = hardcoded_secret ∧ on_line i d)
      (findIssuesWithRegex document)
    = [{| range := line_range i (length pre) (length line);
          message :=
            js "Hardcoded secret detected. Consider using environment variables.";
          severity := Warning; code := hardcoded_secret |}].
Proof.
  intros Hi Hline. rewrite (secret_on_line _ _ _ Hi). unfold secret_rule.
  destruct (recognised_is_Some _ _ recognises_secretRegex _ Hline) as [m Hm].
  rewrite Hm.
  pose proof (recognised_indexOf _ _ recognises_secretRegex _ _ Hm) as Hidx.
  destruct (recognised_Some _ _ recognises_secretRegex _ _ Hm)
    as (pre&post&Hlm&Hlen).
  exists m, pre, post. split_and!; [done..|].
  rewrite Hidx, (proj2 (Z.leb_le _ _)) by lia.
  rewrite Nat2Z.id, <-Hlen, new_Range_ordered; [done|].
  destruct Hlm as (->&_). rewrite length_app. lia.
Qed.

Lemma hardcoded_secret_reported_witness :
  doc_lines config_doc !! 1 = Some api_key_line ∧
  occurs_in secret_assignment api_key_line ∧
  ∃ m pre post,
    str_match api_key_line secretRegex = Some m ∧
    leftmost secret_assignment api_key_line pre (matched m) post ∧
    filter (λ d, code d = hardcoded_secret ∧ on_line 1 d)
      (findIssuesWithRegex config_doc)
    = [{| range := line_range 1 (length pre) (length api_key_line);
          message :=
            js "Hardcoded secret detected. Consider using environment variables.";
          severity := Warning; code := hardcoded_secret |}].
Proof.
  assert (doc_lines config_doc !! 1 = Some api_key_line) as Hl
    by (vm_compute; reflexivity).
  assert (occurs_in secret_assignment api_key_line) as Hs.
  { apply (recognised_test _ _ recognises_secretRegex). vm_compute. reflexivity. }
  split_and!; [exact Hl|exact Hs|].
  exact (hardcoded_secret_reported config_doc 1 api_key_line Hl Hs).
Defined.

(** The claim as worded fails: a line that assigns the empty literal to a
    token holds a token, an equals sign and a literal in quotes, and the
    scan reports nothing for it. *)
Lemma empty_literal_counterexample :
  doc_lines empty_literal_doc !! 1 = Some empty_literal_line ∧
  occurs_in worded_secret_assignment empty_literal_line ∧
  findIssuesWithRegex empty_literal_doc = [].
Proof.
  split_and!; [vm_compute; reflexivity| |vm_compute; reflexivity].
  exists (js "const "), (js "token = " ++ [dquote; dquote]), [].
  split; [reflexivity|].
  exists (js "token"), (js " "), (chr "="), (js " "), [dquote; dquote].
  split_and!; [reflexivity| |repeat constructor|by right|repeat constructor|].
  - exists (js "token"). split; [|reflexivity]. do 4 right. by left.
  - exists dquote, [], dquote. split_and!; [reflexivity|..]; right; by left.
Qed.

(** *** Missing authorization *)

Lemma extracted_name_infix line m :
  str_match line funcRegex = Some m →
  ∃ a b, line = a ++ extracted_name m ++ b.
Proof.
  intros Hm. unfold extracted_name, or_else.
  destruct (group m 2) as [[|??]|] eqn:E2;
    [|by eapply str_match_group_infix|];
    (destruct (group m 3) as [[|??]|] eqn:E3;
       [|by eapply str_match_group_infix|]);
    (destruct (group m 4) as [[|??]|] eqn:E4;
       [|by eapply str_match_group_infix|]);
    by exists [], line.
Qed.

Lemma has_auth_here lines i line :
  lines !! i = Some line → test authKeywordRegex line = true →
  has_auth lines i = true.
Proof.
  intros Hi Ht. unfold has_auth.
  pose proof (lookup_lt_Some _ _ _ Hi) as Hlt.
  rewrite (drop_S _ _ _ Hi).
  destruct (length lines `min` (i + 8) - i) as [|n] eqn:E; [lia|].
  simpl. by rewrite Ht.
Qed.

Lemma has_auth_window lines i :
  i < length lines →
  has_auth lines i = existsb (test authKeywordRegex) (auth_window lines i).
Proof.
  intros Hi. unfold has_auth, auth_window. f_equal.
  destruct (decide (i + 8 ≤ length lines)).
  - f_equal. lia.
  - rewrite !take_ge; [done|rewrite length_drop; lia..].
Qed.

(** What the rule does for a definition with a sensitive name, in terms of
    the keyword test of the program. *)
Lemma missing_auth_rule document i line m kw :
  doc_lines document !! i = Some line →
  str_match line funcRegex = Some m →
  kw ∈ sensitive_names → ci_contains (extracted_name m) kw →
  filter (λ d, code d = missing_auth ∧ on_line i d)
    (findIssuesWithRegex document)
  = if existsb (test authKeywordRegex) (auth_window (doc_lines document) i)
    then []
    else [{| range := line_range i 0 (length line);
             message := missing_auth_message (extracted_name m);
             severity := Warning; code := missing_auth |}].
Proof.
  intros Hi Hm Hkw Hname. rewrite (auth_on_line _ _ _ Hi). unfold auth_rule.
  rewrite Hm, (test_sensitive_name _ _ Hkw Hname).
  rewrite has_auth_window by by eapply lookup_lt_Some.
  destruct (existsb _ _); [done|]. simpl.
  by rewrite new_Range_ordered by lia.
Qed.

(** A keyword of the list anywhere in the window silences the rule. *)
Lemma auth_keyword_silences document i line m name_kw line' kw :
  doc_lines document !! i = Some line →
  str_match line funcRegex = Some m →
  name_kw ∈ sensitive_names → ci_contains (extracted_name m) name_kw →
  line' ∈ auth_window (doc_lines document) i →
  kw ∈ auth_keywords → ci_contains line' kw →
  filter (λ d, code d = missing_auth ∧ on_line i d)
    (findIssuesWithRegex document) = [].
Proof.
  intros Hi Hm Hn Hname Hin Hkw Hc.
  rewrite (missing_auth_rule _ _ _ _ _ Hi Hm Hn Hname).
  assert (existsb (test authKeywordRegex) (auth_window (doc_lines document) i)
          = true) as ->; [|done].
  apply existsb_exists. exists line'. split; [by apply list_elem_of_In|].
  by eapply test_auth_keywords.
Qed.

(** C2.  [login_doc] defines [login], and none of the three lines of the
    window holds one of the five keywords, in any case.  The claim calls
    for a warning on the definition line; the scan reports nothing: the
    dot of [req.user] is not escaped in the pattern of the program, so
    that [req_user] passes for the keyword. *)
Theorem unescaped_dot_hides_missing_auth :
  doc_lines login_doc
  = [js "function login(req, res) {"; js "  return db.find(req_user(req));";
     js "}"] ∧
  (∃ m, str_match (js "function login(req, res) {") funcRegex = Some m ∧
        extracted_name m = js "login") ∧
  auth_window (doc_lines login_doc) 0 = doc_lines login_doc ∧
  Forall (λ line, Forall (λ kw, ¬ ci_contains line kw) auth_keywords)
    (doc_lines login_doc) ∧
  test authKeywordRegex (js "  return db.find(req_user(req));") = true ∧
  findIssuesWithRegex login_doc = [].
Proof.
  split_and!.
  - vm_compute. reflexivity.
  - eexists. split; vm_compute; reflexivity.
  - vm_compute. reflexivity.
  - assert (doc_lines login_doc
            = [js "function login(req, res) {";
               js "  return db.find(req_user(req));"; js "}"]) as ->
      by (vm_compute; reflexivity).
    repeat constructor; rewrite ci_contains_test; vm_compute; discriminate.
  - vm_compute. reflexivity.
  - vm_compute. reflexivity.
Qed.

(** C9.  A definition whose extracted name contains [auth], in any case,
    never gets a [missing_auth] diagnostic: the name is part of the
    definition line, the window starts with that line, and [auth] is one of
    the keywords, so the line passes the keyword test by itself. *)
Theorem auth_named_function_exempt document i line m :
  doc_lines document !! i = Some line →
  str_match line funcRegex = Some m →
  ci_contains (extracted_name m) (js "auth") →
  test authKeywordRegex line = true ∧
  has_auth (doc_lines document) i = true ∧
  filter (λ d, code d = missing_auth ∧ on_line i d)
    (findIssuesWithRegex document) = [].
Proof.
  intros Hi Hm Hname.
  assert (test authKeywordRegex line = true) as Ht.
  { apply (test_auth_keywords _ (js "auth")); [by repeat constructor|].
    destruct (extracted_name_infix _ _ Hm) as (a&b&Hl).
    rewrite Hl. by apply ci_contains_infix. }
  pose proof (has_auth_here _ _ _ Hi Ht) as Hw. split_and!; [done..|].
  rewrite (auth_on_line _ _ _ Hi). unfold auth_rule.
  rewrite Hm, Hw. by destruct (test sensitiveNameRegex _).
Qed.

Lemma auth_named_function_exempt_witness :
  doc_lines authorize_doc !! 0 = Some authorize_line ∧
  str_match authorize_line funcRegex = Some authorize_match ∧
  ci_contains (extracted_name authorize_match) (js "auth") ∧
  test authKeywordRegex authorize_line = true ∧
  has_auth (doc_lines authorize_doc) 0 = true ∧
  filter (λ d, code d = missing_auth ∧ on_line 0 d)
    (findIssuesWithRegex authorize_doc) = [].
Proof.
  assert (doc_lines authorize_doc !! 0 = Some authorize_line) as Hl
    by (vm_compute; reflexivity).
  assert (str_match authorize_line funcRegex = Some authorize_match) as Hm
    by (vm_compute; reflexivity).
  assert (ci_contains (extracted_name authorize_match) (js "auth")) as Hc.
  { apply ci_contains_test. vm_compute. reflexivity. }
  split_and!; [exact Hl|exact Hm|exact Hc|..];
    apply (auth_named_function_exempt authorize_doc 0 authorize_line
             authorize_match Hl Hm Hc).
Defined.

(** ** Prompt extraction *)

Lemma extractPrompts_lines document :
  isTargetDoc document = true →
  extractPrompts document
  = concat (imap (λ j x, from_option (λ p, [(j, p)]) [] (userPrompt_of x))
              (doc_lines document)).
Proof.
  intros Ht. unfold extractPrompts. rewrite Ht. simpl.
  rewrite (forEach_push (λ line i acc,
             match userPrompt_of line with
             | Some userPrompt => acc ++ [(i, userPrompt)]
             | None => acc
             end)).
  - reflexivity.
  - intros x i acc. destruct (userPrompt_of x); [done|by rewrite app_nil_r].
Qed.

(** The loop of [detectAndEnhancePrompts] requests an enhancement for
    these pairs, in this order. *)
Lemma detect_loop_requests document lines : ∀ i ds w,
  (forEach (detect_line document) i lines (ds, w)).2
  = foldl (λ w q, triggerEnhancementRequest document q.1 q.2 w) w
      (concat (imap (λ j x, from_option (λ p, [(i + j, p)]) []
                              (userPrompt_of x)) lines)).
Proof.
  induction lines as [|x lines IH]; intros i ds w; simpl; [done|].
  unfold detect_line at 2. rewrite Nat.add_0_r.
  assert (imap ((λ j x0, from_option (λ p, [(i + j, p)]) []
                           (userPrompt_of x0)) ∘ S) lines
          = imap (λ j x0, from_option (λ p, [(S i + j, p)]) []
                            (userPrompt_of x0)) lines) as ->.
  { apply imap_ext. intros j y _. simpl. destruct (userPrompt_of y); [|done].
    simpl. do 2 f_equal. lia. }
  destruct (userPrompt_of x); simpl; by rewrite IH.
Qed.

Lemma detect_requests document w :
  isTargetDoc document = true →
  (forEach (detect_line document) 0 (doc_lines document) ([], w)).2
  = foldl (λ w q, triggerEnhancementRequest document q.1 q.2 w) w
      (extractPrompts document).
Proof.
  intros Ht. by rewrite detect_loop_requests, (extractPrompts_lines _ Ht).
Qed.

(** ** The store and the requests *)

(** *** The loop of [detectAndEnhancePrompts] *)

Lemma detect_loop_fst document lines : ∀ i ds w,
  (forEach (detect_line document) i lines (ds, w)).1
  = ds ++ concat (imap (λ j x, loading_of (i + j) x) lines).
Proof.
  induction lines as [|x lines IH]; intros i ds w; simpl.
  - by rewrite app_nil_r.
  - unfold detect_line at 2. unfold loading_of at 1. rewrite Nat.add_0_r.
    assert (imap ((λ j x0, loading_of (i + j) x0) ∘ S) lines
            = imap (λ j x0, loading_of (S i + j) x0) lines) as ->.
    { apply imap_ext. intros j y _. simpl. f_equal. lia. }
    destruct (userPrompt_of x); simpl; rewrite IH; [|done].
    by rewrite <-(assoc_L (++)).
Qed.

Lemma trigger_store document i p w :
  enhancedDiagnosticsStore (triggerEnhancementRequest document i p w)
  = enhancedDiagnosticsStore w.
Proof. unfold triggerEnhancementRequest. by repeat case_match. Qed.

Lemma detect_loop_store document lines : ∀ i ds w,
  enhancedDiagnosticsStore (forEach (detect_line document) i lines (ds, w)).2
  = enhancedDiagnosticsStore w.
Proof.
  induction lines as [|x lines IH]; intros i ds w; simpl; [done|].
  unfold detect_line at 2. destruct (userPrompt_of x); simpl; rewrite IH; [|done].
  apply trigger_store.
Qed.

Lemma loading_of_line j x d : d ∈ loading_of j x → on_line j d.
Proof.
  unfold loading_of. destruct (userPrompt_of x); simpl.
  - intros ->%list_elem_of_singleton. apply new_Range_line.
  - by intros ?%elem_of_nil.
Qed.

Lemma detect_stored document w :
  isTargetDoc document = true →
  enhancedDiagnosticsStore (detectAndEnhancePrompts document w)
  = <[uri document := concat (imap loading_of (doc_lines document))]>
      (enhancedDiagnosticsStore w).
Proof.
  intros Ht. unfold detectAndEnhancePrompts. rewrite Ht. simpl.
  destruct (forEach _ _ _ _) as [ds w'] eqn:E. simpl.
  pose proof (detect_loop_fst document (doc_lines document) 0 [] w) as H1.
  pose proof (detect_loop_store document (doc_lines document) 0 [] w) as H2.
  rewrite E in H1, H2. simpl in *. by rewrite H1, H2.
Qed.

Lemma detect_skips document w :
  isTargetDoc document = false → detectAndEnhancePrompts document w = w.
Proof. intros Ht. unfold detectAndEnhancePrompts. by rewrite Ht. Qed.

(** *** Settling a request *)

Lemma settle_stored document i result w line :
  lineAt document i = Some line →
  enhancedDiagnosticsStore (settle document i result w).1
  = <[uri document :=
        filter (λ d, startLine (range d) ≠ i) (stored w (uri document))
          ++ [outcome_diagnostic i line result]]> (enhancedDiagnosticsStore w).
Proof.
  intros Hl. unfold settle. rewrite Hl. by destruct result.
Qed.

Lemma settle_stored_gone document i result w :
  lineAt document i = None →
  enhancedDiagnosticsStore (settle document i result w).1
  = enhancedDiagnosticsStore w.
Proof.
  intros Hl. unfold settle. rewrite Hl. by destruct result.
Qed.

Lemma outcome_diagnostic_line i line result :
  on_line i (outcome_diagnostic i line result).
Proof. destruct result; apply new_Range_line. Qed.

Lemma slot_after_settle document i result w line :
  lineAt document i = Some line →
  slot (settle document i result w).1 (uri document) i
  = [outcome_diagnostic i line result].
Proof.
  intros Hl. unfold slot, stored. rewrite (settle_stored _ _ _ _ _ Hl).
  rewrite lookup_insert_eq. simpl. rewrite filter_app.
  rewrite (filter_none _ (filter _ _)).
  - simpl. rewrite filter_cons_True; [done|]. apply outcome_diagnostic_line.
  - intros d [Hne _]%list_elem_of_filter. done.
Qed.

Lemma slot_after_detect document w i line userPrompt :
  isTargetDoc document = true →
  doc_lines document !! i = Some line →
  userPrompt_of line = Some userPrompt →
  slot (detectAndEnhancePrompts document w) (uri document) i
  = [loading_diagnostic i line].
Proof.
  intros Ht Hi Hp. unfold slot, stored. rewrite (detect_stored _ _ Ht).
  rewrite lookup_insert_eq. simpl.
  rewrite (filter_key_imap_all (λ d, startLine (range d)) loading_of
             loading_of_line), Hi.
  simpl. unfold loading_of. by rewrite Hp.
Qed.

Lemma in_flight_settle document i result w :
  in_flight (settle document i result w).1 (uri document) i = false.
Proof.
  assert (∀ w' thrown,
    in_flight (set_pendingTimers
                 (alter (delete (inFlightKey i)) (uri document)
                    (pendingTimers w')) w', thrown : option JsError).1
      (uri document) i = false) as H.
  { intros w' thrown. unfold in_flight. simpl. rewrite lookup_alter_eq.
    destruct (pendingTimers w' !! uri document); simpl; [|done].
    by rewrite lookup_delete_eq. }
  unfold settle. repeat case_match; simplify_eq; apply H.
Qed.


(** C4, as amended.  The slot of a prompt line is empty at first.  A scan
    puts the loading diagnostic there and nothing else: an information with
    the message [[NVIDIA] Loading enhanced prompt...] and the code
    [enhanced_prompt_loading].  When the request of the line settles and
    the document still has the line, whatever the slot held is replaced by
    exactly one warning: [[NVIDIA] <text>] with the code [enhanced_prompt]
    on success, [[NVIDIA] Failed to generate enhancement: <reason>] with
    the code [enhanced_prompt_failed] on failure. *)
Theorem enhancement_slot_lifecycle document w i line userPrompt :
  isTargetDoc document = true →
  doc_lines document !! i = Some line →
  userPrompt_of line = Some userPrompt →
  (∀ e, slot (init_world e) (uri document) i = []) ∧
  slot (detectAndEnhancePrompts document w) (uri document) i
  = [{| range := {| startLine := i; startCol := 0; endLine := i;
                    endCol := 1 `max` length line |};
        message := js "[NVIDIA] Loading enhanced prompt...";
        severity := Information; code := enhanced_prompt_loading |}] ∧
  ∀ now line' w',
    uri now = uri document → lineAt now i = Some line' →
    (∀ enhanced,
       slot (settle now i (inr enhanced) w').1 (uri document) i
       = [{| range := {| startLine := i; startCol := 0; endLine := i;
                         endCol := 1 `max` length line' |};
             message := js "[NVIDIA] " ++ enhanced;
             severity := Warning; code := enhanced_prompt |}]) ∧
    (∀ err,
       slot (settle now i (inl err) w').1 (uri document) i
       = [{| range := {| startLine := i; startCol := 0; endLine := i;
                         endCol := 1 `max` length line' |};
             message := js "[NVIDIA] Failed to generate enhancement: "
                          ++ failure_reason err;
             severity := Warning; code := enhanced_prompt_failed |}]).
Proof.
  intros Ht Hi Hp. split_and!.
  - intros e. unfold slot, stored. simpl. by rewrite lookup_empty.
  - rewrite (slot_after_detect _ _ _ _ _ Ht Hi Hp). unfold loading_diagnostic.
    by rewrite new_Range_ordered by lia.
  - intros now line' w' <- Hl. split.
    + intros enhanced. rewrite (slot_after_settle _ _ _ _ _ Hl). simpl.
      unfold enhanced_diagnostic. by rewrite new_Range_ordered by lia.
    + intros err. rewrite (slot_after_settle _ _ _ _ _ Hl). simpl.
      unfold failed_diagnostic. by rewrite new_Range_ordered by lia.
Qed.

Lemma enhancement_slot_lifecycle_witness :
  isTargetDoc prompt_doc = true ∧
  doc_lines prompt_doc !! 1 = Some (js "// PROMPT: Create login website") ∧
  userPrompt_of (js "// PROMPT: Create login website")
  = Some (js "Create login website") ∧
  slot (detectAndEnhancePrompts prompt_doc (init_world no_key))
    (uri prompt_doc) 1
  = [{| range := {| startLine := 1; startCol := 0; endLine := 1;
                    endCol := 31 |};
        message := js "[NVIDIA] Loading enhanced prompt...";
        severity := Information; code := enhanced_prompt_loading |}].
Proof.
  split_and!; [reflexivity..|].
  apply (enhancement_slot_lifecycle prompt_doc (init_world no_key) 1
           (js "// PROMPT: Create login website") (js "Create login website"));
    reflexivity.
Defined.

(** The loading diagnostic does not read [Loading enhanced prompt...]: its
    message starts with the [[NVIDIA]] tag, like the other two. *)
Lemma loading_message_counterexample :
  slot (detectAndEnhancePrompts prompt_doc (init_world no_key))
    (uri prompt_doc) 1
  ≠ [{| range := {| startLine := 1; startCol := 0; endLine := 1;
                    endCol := 31 |};
        message := js "Loading enhanced prompt...";
        severity := Information; code := enhanced_prompt_loading |}].
Proof. vm_compute. discriminate. Qed.

(** *** Requests in flight *)


(** C5.  The first call for a line that is not in flight marks it and calls
    the client once; it reaches the remote service if a key is set.  A
    second call for the same line, before the first has settled, changes
    nothing.  Settling clears the marker, on success and on failure. *)
Theorem duplicate_request_suppressed document lineNumber p1 p2 w :
  in_flight w (uri document) lineNumber = false →
  let w1 := triggerEnhancementRequest document lineNumber p1 w in
  in_flight w1 (uri document) lineNumber = true ∧
  triggerEnhancementRequest document lineNumber p2 w1 = w1 ∧
  clientCalls w1 = clientCalls w ++ [p1] ∧
  length (remoteCalls w1)
  = length (remoteCalls w)
    + (if truthy (OPENAI_API_KEY (env w)) then 1 else 0) ∧
  ∀ now result w',
    uri now = uri document →
    in_flight (settle now lineNumber result w').1 (uri document) lineNumber
    = false.
Proof.
  intros Hfree. simpl.
  assert (∀ p, triggerEnhancementRequest document lineNumber p w
    = let tm := <[inFlightKey lineNumber := InFlight]>
                  (default ∅ (pendingTimers w !! uri document)) in
      let wait := getEnhancedPromptFromNvidia (env w) p in
      {| env := env w;
         pendingTimers := <[uri document := tm]> (pendingTimers w);
         enhancedDiagnosticsStore := enhancedDiagnosticsStore w;
         diagnosticCollection := diagnosticCollection w;
         clientCalls := clientCalls w ++ [p];
         remoteCalls :=
           remoteCalls w ++ (if wait is Remote request then [request] else []);
         tasks := tasks w ++ [EnhanceTask (uri document) lineNumber wait] |})
    as Hfirst.
  { intros p. unfold triggerEnhancementRequest, in_flight in *.
    destruct (pendingTimers w !! uri document) as [tm|] eqn:E; simpl.
    - rewrite E. simpl. destruct (tm !! inFlightKey lineNumber); [done|]. done.
    - rewrite lookup_insert_eq. simpl. rewrite lookup_empty.
      f_equal. apply insert_insert_eq. }
  rewrite Hfirst. simpl. split_and!.
  - unfold in_flight. simpl. by rewrite !lookup_insert_eq.
  - unfold triggerEnhancementRequest. simpl.
    by repeat (rewrite lookup_insert_eq; simpl).
  - done.
  - rewrite length_app. f_equal. unfold getEnhancedPromptFromNvidia.
    by destruct (truthy (OPENAI_API_KEY (env w))).
  - intros now result w' <-. apply in_flight_settle.
Qed.

Lemma duplicate_request_suppressed_witness :
  in_flight (init_world with_key) (uri prompt_doc) 1 = false ∧
  triggerEnhancementRequest prompt_doc 1 (js "Create login website")
    (triggerEnhancementRequest prompt_doc 1 (js "Create login website")
       (init_world with_key))
  = triggerEnhancementRequest prompt_doc 1 (js "Create login website")
      (init_world with_key).
Proof.
  split; [reflexivity|].
  apply (duplicate_request_suppressed prompt_doc 1 (js "Create login website")
           (js "Create login website") (init_world with_key)).
  reflexivity.
Defined.

(** *** The store invariant *)

Lemma store_inv_set_store docKey ds w :
  NoDup ((λ d, startLine (range d)) <$> ds) → store_inv w →
  store_inv (set_store docKey ds w).
Proof.
  intros Hds Hw k ds'. simpl. rewrite lookup_insert.
  case_decide; [by intros [= <-]|apply Hw].
Qed.

Lemma store_inv_same w w' :
  enhancedDiagnosticsStore w' = enhancedDiagnosticsStore w →
  store_inv w → store_inv w'.
Proof. intros E Hw k ds. rewrite E. apply Hw. Qed.

Lemma store_inv_detect document w :
  store_inv w → store_inv (detectAndEnhancePrompts document w).
Proof.
  intros Hw. destruct (isTargetDoc document) eqn:Ht;
    [|by rewrite detect_skips].
  intros k ds. rewrite (detect_stored _ _ Ht), lookup_insert.
  case_decide; [|apply Hw]. intros [= <-].
  apply StronglySorted_lt_NoDup.
  assert (∀ j x, length (loading_of j x) ≤ 1) as Hlen.
  { intros j x. unfold loading_of. destruct (userPrompt_of x); simpl; lia. }
  by destruct (sorted_key_imap (λ d, startLine (range d)) loading_of
                 loading_of_line Hlen (doc_lines document) 0).
Qed.

Lemma store_inv_settle document i result w :
  store_inv w → store_inv (settle document i result w).1.
Proof.
  intros Hw. destruct (lineAt document i) as [line|] eqn:Hl.
  - intros k ds. rewrite (settle_stored _ _ _ _ _ Hl), lookup_insert.
    case_decide; [|apply Hw]. intros [= <-].
    rewrite fmap_app. simpl. apply NoDup_app. split_and!.
    + apply (sublist_NoDup _
                 ((λ d, startLine (range d)) <$> stored w (uri document))).
      * unfold stored. destruct (_ !! uri document) eqn:E; simpl;
          [by eapply Hw|constructor].
      * apply fmap_sublist, sublist_filter.
    + intros n (d&->&[Hne _]%list_elem_of_filter)%list_elem_of_fmap.
      intros Heq%list_elem_of_singleton. apply Hne. rewrite Heq.
      apply outcome_diagnostic_line.
    + apply NoDup_singleton.
  - by eapply store_inv_same; [apply settle_stored_gone|].
Qed.

Lemma store_inv_step w e : store_inv w → store_inv (step w e).
Proof.
  intros Hw. destruct e as [document|k document outcome]; simpl.
  - unfold runSecurityScanAndEnhanced.
    by eapply store_inv_same; [|apply store_inv_detect].
  - destruct (tasks w !! k) as [[docKey i wait|docKey ds]|]; [| |done].
    + case_decide; [|done]. apply store_inv_settle.
      by eapply store_inv_same.
    + by eapply store_inv_same.
Qed.

Lemma store_inv_init e : store_inv (init_world e).
Proof. intros k ds. simpl. by rewrite lookup_empty. Qed.

Lemma store_inv_run events : ∀ w, store_inv w → store_inv (run events w).
Proof.
  unfold run. induction events as [|ev events IH]; intros w Hw; simpl; [done|].
  by apply IH, store_inv_step.
Qed.


(** C7.  Whatever scans are started and whatever requests settle, with
    success or failure, no two stored diagnostics of a document start on
    the same line.  The two operations that write the store keep it so:
    [store_inv_detect] for the list a scan puts in place, and
    [store_inv_settle] for the filter and push of a settled request. *)
Theorem store_one_per_line e events : store_inv (run events (init_world e)).
Proof. apply store_inv_run, store_inv_init. Qed.

(** *** Documents of other languages *)

Lemma findIssues_text document document' :
  getText document' = getText document →
  findIssuesWithRegex document' = findIssuesWithRegex document.
Proof.
  intros E. unfold findIssuesWithRegex, doc_lines. by rewrite E.
Qed.


Lemma secret_rule_reports line i :
  occurs_in secret_assignment line →
  ∃ d, secret_rule line i [] = [d] ∧ code d = hardcoded_secret ∧
    severity d = Warning ∧ message d = secret_message ∧ on_line i d.
Proof.
  intros Hline. unfold secret_rule.
  destruct (recognised_is_Some _ _ recognises_secretRegex _ Hline) as [m ->].
  eexists. split; [reflexivity|]. split_and!; [done..|]. apply new_Range_line.
Qed.

(** C10.  The scanner reads the text of a document and nothing else, so it
    runs the same for every language.  For a document whose language is
    not one of the three, no prompt is extracted, the enhancement step
    changes nothing and calls no client; a full scan still publishes the
    scanner's diagnostics, after whatever is stored for the document: the
    hardcoded-secret warning of every line with a secret assignment, and
    the missing-authorization warning of every definition with a sensitive
    name and no keyword in its window. *)
Theorem security_scan_any_language document w outcome :
  isTargetDoc document = false →
  (∀ document', getText document' = getText document →
     findIssuesWithRegex document' = findIssuesWithRegex document) ∧
  extractPrompts document = [] ∧
  detectAndEnhancePrompts document w = w ∧
  clientCalls (runSecurityScanAndEnhanced document w) = clientCalls w ∧
  ∃ published,
    diagnosticCollection
      (run [Scan document; Continue (length (tasks w)) document outcome] w)
      !! uri document
    = Some published ∧
    published = stored w (uri document) ++ findIssuesWithRegex document ∧
    (∀ i line, doc_lines document !! i = Some line →
       occurs_in secret_assignment line →
       ∃ d, d ∈ published ∧ code d = hardcoded_secret ∧
         severity d = Warning ∧ message d = secret_message ∧ on_line i d) ∧
    (∀ i line m kw, doc_lines document !! i = Some line →
       str_match line funcRegex = Some m →
       kw ∈ sensitive_names → ci_contains (extracted_name m) kw →
       existsb (test authKeywordRegex) (auth_window (doc_lines document) i)
       = false →
       ∃ d, d ∈ published ∧ code d = missing_auth ∧ severity d = Warning ∧
         message d = missing_auth_message (extracted_name m) ∧ on_line i d).
Proof.
  intros Ht. split_and!.
  - intros document'. apply findIssues_text.
  - unfold extractPrompts. by rewrite Ht.
  - by apply detect_skips.
  - unfold runSecurityScanAndEnhanced. by rewrite detect_skips.
  - eexists. split_and!; [|reflexivity|..].
    + unfold run. simpl. unfold runSecurityScanAndEnhanced.
      rewrite detect_skips by done. simpl.
      rewrite lookup_app_r, Nat.sub_diag by done. simpl.
      by rewrite lookup_insert_eq.
    + intros i line Hi Hline.
      destruct (secret_rule_reports line i Hline) as (d&Hd&?&?&?&?).
      exists d. split_and!; try done. apply elem_of_app. right.
      assert (d ∈ filter (λ d, code d = hardcoded_secret ∧ on_line i d)
                    (findIssuesWithRegex document)) as Hin.
      { rewrite (secret_on_line _ _ _ Hi), Hd. by left. }
      by apply list_elem_of_filter in Hin as [_ ?].
    + intros i line m kw Hi Hm Hkw Hc Hno.
      pose proof (missing_auth_rule _ _ _ _ _ Hi Hm Hkw Hc) as Hf.
      rewrite Hno in Hf.
      exists {| range := line_range i 0 (length line);
                message := missing_auth_message (extracted_name m);
                severity := Warning; code := missing_auth |}.
      split_and!; [|done..].
      apply elem_of_app. right.
      eapply (proj1 (list_elem_of_filter _ _ _)). rewrite Hf. by left.
Qed.

Lemma security_scan_any_language_witness :
  let d := {| range := line_range 1 0 13; message := secret_message;
              severity := Warning; code := hardcoded_secret |} in
  isTargetDoc go_doc = false ∧
  findIssuesWithRegex go_doc = [d] ∧
  diagnosticCollection
    (run [Scan go_doc; Continue 0 go_doc (Completed None)]
       (init_world with_key))
    !! uri go_doc
  = Some [d] ∧
  ∃ published,
    diagnosticCollection
      (run [Scan go_doc; Continue 0 go_doc (Completed None)]
         (init_world with_key))
      !! uri go_doc
    = Some published ∧
    published
    = stored (init_world with_key) (uri go_doc) ++ findIssuesWithRegex go_doc.
Proof.
  intros d.
  assert (isTargetDoc go_doc = false) as Ht by reflexivity.
  split; [exact Ht|]. split; [vm_compute; reflexivity|].
  split; [vm_compute; reflexivity|].
  destruct (security_scan_any_language go_doc (init_world with_key)
              (Completed None) Ht) as (_&_&_&_&published&Hp&Hstored&_).
  exists published. by split.
Defined.

(** *** Failures of the enhancement client *)

(** A failure is reported on the line, next to the scanner's diagnostics,
    as long as the document still has the line. *)
Lemma settle_failure_reported document i err w line :
  lineAt document i = Some line →
  ∃ w', settle document i (inl err) w = (w', None) ∧
    slot w' (uri document) i = [failed_diagnostic i line err] ∧
    diagnosticCollection w' !! uri document
    = Some (stored w' (uri document) ++ findIssuesWithRegex document).
Proof.
  intros Hl. eexists. split_and!.
  - unfold settle. rewrite Hl. reflexivity.
  - pose proof (slot_after_settle document i (inl err) w line Hl) as H.
    unfold settle in H. rewrite Hl in H. exact H.
  - unfold stored. simpl. by rewrite !lookup_insert_eq.
Qed.

Lemma missing_key_rejected e userPrompt outcome :
  truthy (OPENAI_API_KEY e) = false →
  awaited_result (getEnhancedPromptFromNvidia e userPrompt) outcome
  = inl (new_Error missing_key_message) ∧
  failure_reason (new_Error missing_key_message)
  = js "OPENAI_API_KEY is not set" ++ js " (map NVIDIA_API -> OPENAI_API_KEY or set it directly).".
Proof.
  intros He. unfold getEnhancedPromptFromNvidia. rewrite He. done.
Qed.


(** C6.  The request for line 1 of [prompt_doc] is under way when the line
    is deleted; then the remote call fails.  The claim has the failure
    caught and turned into a diagnostic.  Here the handler throws in its
    turn, on [document.lineAt]: the error leaves the request, and nothing
    is stored or published for the failure. *)
Theorem failure_after_line_deleted :
  let w1 := run [Scan prompt_doc] (init_world with_key) in
  let wait :=
    getEnhancedPromptFromNvidia (env w1) (js "Create login website") in
  let failure := Failed (new_Error (js "connect ETIMEDOUT")) in
  let w2 := run [Continue 0 shrunk_doc failure] w1 in
  tasks w1 !! 0 = Some (EnhanceTask (uri prompt_doc) 1 wait) ∧
  awaited_result wait failure = inl (new_Error (js "connect ETIMEDOUT")) ∧
  lineAt shrunk_doc 1 = None ∧
  (settle shrunk_doc 1 (awaited_result wait failure) w1).2
  = Some illegal_line ∧
  stored w2 (uri prompt_doc) = stored w1 (uri prompt_doc) ∧
  diagnosticCollection w2 = diagnosticCollection w1 ∧
  Forall (λ d, code d ≠ enhanced_prompt_failed) (stored w2 (uri prompt_doc)).
Proof.
  cbv zeta. split_and!.
  - vm_compute. reflexivity.
  - vm_compute. reflexivity.
  - vm_compute. reflexivity.
  - vm_compute. reflexivity.
  - vm_compute. reflexivity.
  - vm_compute. reflexivity.
  - vm_compute. repeat constructor. discriminate.
Qed.

(** ** The quick fix for hardcoded secrets *)

Lemma secret_fix_eq document range diag line sm :
  lineAt document (startLine range) = Some line →
  str_match line secretKindRegex = Some sm →
  secret_fix document range diag
  = Some {| title := js "Replace literal with process.env reference";
            diagnostics := [diag];
            edit :=
              match str_match line quotedRegex with
              | Some quoteMatch =>
                  let quoteStart :=
                    Z.to_nat (indexOf line (matched quoteMatch)) in
                  {| edit_range :=
                       new_Range (startLine range) quoteStart
                         (startLine range)
                         (quoteStart + length (matched quoteMatch));
                     newText := js "process.env." ++ env_name (matched sm) |}
              | None =>
                  {| edit_range :=
                       new_Range (startLine range) 0 (startLine range)
                         (length line);
                     newText :=
                       replace line assignedLiteralRegex
                         (js "= process.env." ++ env_name (matched sm)) |}
              end;
            command := js "SafePrompt.runScan";
            command_title := js "Rescan (SafePrompt)" |}.
Proof.
  intros Hl Hsm. unfold secret_fix. rewrite Hl. cbn [mbind option_bind].
  rewrite Hsm, (str_match_secretKind _ _ Hsm). cbn [default].
  by rewrite sanitize_env_name.
Qed.



(** For the scenario line of the specification, the scan reports one
    hardcoded secret and the fix names the variable [APIKEY]. *)
Lemma quick_fix_api_key :
  findIssuesWithRegex api_key_doc
  = [{| range := line_range 0 6 25; message := secret_message;
        severity := Warning; code := hardcoded_secret |}] ∧
  fixed_line api_key_doc
    {| range := line_range 0 6 25; message := secret_message;
       severity := Warning; code := hardcoded_secret |}
  = Some (js "const apiKey = process.env.APIKEY").
Proof. split; vm_compute; reflexivity. Qed.


(** * Further properties of the code *)

(** ** Lines of a document *)

Lemma match_at_newline p s :
  match_at newlineRegex p s
  = match s with
    | [] => None
    | c :: s' =>
        if (c =? 10)%N then Some (MR p [10%N] [None])
        else
          match s' with
          | c' :: _ =>
              if ((c =? 13) && (c' =? 10))%N
              then Some (MR p [13%N; 10%N] [None]) else None
          | [] => None
          end
    end.
Proof.
  unfold match_at. simpl.
  destruct s as [|c s]; [done|].
  unfold step_if. simpl.
  destruct (c =? 13)%N eqn:E13; simpl.
  - apply N.eqb_eq in E13 as ->.
    destruct s as [|c' s]; [done|]. simpl.
    destruct (c' =? 10)%N eqn:E10; simpl; [|done].
    apply N.eqb_eq in E10 as ->.
    by replace (p + 1 + 1 - p) with 2 by lia.
  - destruct (c =? 10)%N eqn:E10; simpl.
    + apply N.eqb_eq in E10 as ->. by replace (p + 1 - p) with 1 by lia.
    + by destruct s.
Qed.

Lemma split_from_lines fuel : ∀ s p q piece,
  length s < fuel → p + length piece = q →
  split_from newlineRegex fuel p q piece s = lines_from piece s.
Proof.
  induction fuel as [|fuel IH]; intros s p q piece Hf Hp; [lia|].
  destruct s as [|c s]; [done|].
  cbn [split_from lines_from]. rewrite match_at_newline.
  simpl in Hf.
  destruct (c =? 10)%N.
  - cbn [matched length]. rewrite decide_False by lia.
    f_equal. cbn [drop]. rewrite drop_0. apply IH; [lia|done].
  - destruct s as [|c' s].
    + apply IH; [simpl; lia|rewrite length_app; simpl; lia].
    + destruct ((c =? 13) && (c' =? 10))%N.
      * cbn [matched length]. rewrite decide_False by lia.
        f_equal. cbn [drop]. rewrite drop_0. apply IH; [simpl in *; lia|done].
      * apply IH; [simpl in *; lia|rewrite length_app; simpl; lia].
Qed.

Lemma doc_lines_lines document :
  doc_lines document = lines_from [] (getText document).
Proof.
  unfold doc_lines, split. destruct (getText document) as [|c s] eqn:E.
  - by rewrite match_at_newline.
  - apply split_from_lines; simpl; lia.
Qed.

Lemma lines_from_piece s : ∀ piece,
  lines_from piece s
  = match lines_from [] s with
    | l :: ls => (piece ++ l) :: ls
    | [] => []
    end.
Proof.
  induction s as [s IH] using (induction_ltof1 _ (@length N)).
  unfold ltof in IH. intros piece.
  destruct s as [|c s]; [by cbn; rewrite app_nil_r|].
  cbn [lines_from]. destruct (c =? 10)%N; [by rewrite app_nil_r|].
  destruct s as [|c' s]; [done|].
  destruct ((c =? 13) && (c' =? 10))%N; [by rewrite app_nil_r|].
  rewrite (IH (c' :: s) ltac:(simpl; lia) (piece ++ [c])).
  rewrite (IH (c' :: s) ltac:(simpl; lia) ([] ++ [c])).
  destruct (lines_from [] (c' :: s)); [done|].
  by rewrite <-(assoc_L (++)).
Qed.

Lemma lines_from_nonempty s piece : lines_from piece s ≠ [].
Proof.
  rewrite lines_from_piece.
  revert piece. induction s as [s IH] using (induction_ltof1 _ (@length N)).
  unfold ltof in IH. intros piece.
  destruct s as [|c s]; [done|].
  cbn [lines_from]. destruct (c =? 10)%N; [done|].
  destruct s as [|c' s]; [done|].
  destruct ((c =? 13) && (c' =? 10))%N; [done|].
  rewrite lines_from_piece.
  specialize (IH (c' :: s) ltac:(simpl; lia) []).
  by destruct (lines_from [] (c' :: s)).
Qed.

Lemma lines_from_last l : ∀ piece,
  Forall (λ c, c ≠ 10%N) l → lines_from piece l = [piece ++ l].
Proof.
  induction l as [|c l IH]; intros piece Hl; [by cbn; rewrite app_nil_r|].
  apply Forall_cons in Hl as [Hc Hl]. cbn [lines_from].
  apply N.eqb_neq in Hc as ->.
  rewrite (IH (piece ++ [c]) Hl), <-(assoc_L (++)).
  destruct l as [|c' l]; [done|].
  apply Forall_cons in Hl as [Hc' _]. apply N.eqb_neq in Hc' as ->.
  by rewrite andb_false_r.
Qed.

Lemma lines_from_lf l r : ∀ piece,
  Forall (λ c, c ≠ 10%N) l → last l ≠ Some 13%N →
  lines_from piece (l ++ 10%N :: r) = (piece ++ l) :: lines_from [] r.
Proof.
  induction l as [|c l IH]; intros piece Hl Hlast; [by cbn; rewrite app_nil_r|].
  apply Forall_cons in Hl as [Hc Hl].
  rewrite <-app_comm_cons. cbn [lines_from].
  apply N.eqb_neq in Hc as ->.
  assert (lines_from (piece ++ [c]) (l ++ 10%N :: r)
          = (piece ++ c :: l) :: lines_from [] r) as E.
  { rewrite IH, <-(assoc_L (++)); [done..|]. by destruct l. }
  destruct l as [|c' l].
  - cbn [app] in *. simpl in Hlast.
    destruct (N.eqb_spec c 13) as [->|_]; [done|]. exact E.
  - rewrite <-app_comm_cons. rewrite <-app_comm_cons in E.
    apply Forall_cons in Hl as [Hc' _]. apply N.eqb_neq in Hc' as ->.
    by rewrite andb_false_r.
Qed.

Lemma lines_from_crlf l r : ∀ piece,
  Forall (λ c, c ≠ 10%N) l →
  lines_from piece (l ++ 13%N :: 10%N :: r) = (piece ++ l) :: lines_from [] r.
Proof.
  induction l as [|c l IH]; intros piece Hl; [by cbn; rewrite app_nil_r|].
  apply Forall_cons in Hl as [Hc Hl].
  rewrite <-app_comm_cons. cbn [lines_from].
  apply N.eqb_neq in Hc as ->.
  assert (lines_from (piece ++ [c]) (l ++ 13%N :: 10%N :: r)
          = (piece ++ c :: l) :: lines_from [] r) as E.
  { by rewrite IH, <-(assoc_L (++)). }
  destruct l as [|c' l].
  - cbn [app] in *. change (13 =? 10)%N with false.
    by rewrite andb_false_r.
  - rewrite <-app_comm_cons. rewrite <-app_comm_cons in E.
    apply Forall_cons in Hl as [Hc' _]. apply N.eqb_neq in Hc' as ->.
    by rewrite andb_false_r.
Qed.

Lemma lines_from_unlines eol ls :
  eol = [10%N] ∨ eol = [13%N; 10%N] → ls ≠ [] →
  Forall (λ l, Forall (λ c, c ≠ 10%N) l ∧ last l ≠ Some 13%N) ls →
  lines_from [] (unlines eol ls) = ls.
Proof.
  intros Heol Hne Hls. induction ls as [|l ls IH]; [done|]. clear Hne.
  apply Forall_cons in Hls as [[Hl Hlast] Hls].
  destruct ls as [|l' ls]; [by apply lines_from_last|].
  cbn [unlines]. cbn [unlines] in IH.
  destruct Heol as [-> | ->].
  - change ([10%N] ++ ?x) with (10%N :: x).
    rewrite (lines_from_lf l _ [] Hl Hlast). f_equal. by apply IH.
  - change ([13%N; 10%N] ++ ?x) with (13%N :: 10%N :: x).
    rewrite (lines_from_crlf l _ [] Hl). f_equal. by apply IH.
Qed.

Lemma lines_from_no_lf s : ∀ piece,
  Forall (λ c, c ≠ 10%N) piece →
  Forall (Forall (λ c, c ≠ 10%N)) (lines_from piece s).
Proof.
  induction s as [s IH] using (induction_ltof1 _ (@length N)).
  unfold ltof in IH. intros piece Hp.
  destruct s as [|c s]; [by repeat constructor|].
  cbn [lines_from]. destruct (N.eqb_spec c 10) as [->|Hc].
  { constructor; [done|]. apply IH; [simpl; lia|constructor]. }
  assert (Forall (λ c, c ≠ 10%N) (piece ++ [c])) as Hp'.
  { apply Forall_app. split; [done|by repeat constructor]. }
  destruct s as [|c' s]; [apply IH; [simpl; lia|done]|].
  destruct ((c =? 13) && (c' =? 10))%N.
  - constructor; [done|]. apply IH; [simpl; lia|constructor].
  - apply IH; [simpl; lia|done].
Qed.

(** *** The shape of the scanner's diagnostics *)

Lemma secret_rule_shape line i d :
  d ∈ secret_rule line i [] →
  ∃ c, c ≤ length line ∧
    d = {| range := line_range i c (length line); message := secret_message;
           severity := Warning; code := hardcoded_secret |}.
Proof.
  unfold secret_rule. destruct (str_match line secretRegex) as [m|] eqn:E;
    [|by intros ?%elem_of_nil].
  rewrite (recognised_indexOf _ _ recognises_secretRegex _ _ E).
  destruct (recognised_Some _ _ recognises_secretRegex _ _ E)
    as (pre&post&(Hs&_)&Hpre).
  assert (index m ≤ length line) as Hle.
  { rewrite <-Hpre, Hs, length_app. lia. }
  replace (0 <=? Z.of_nat (index m))%Z with true by (symmetry; apply Z.leb_le; lia).
  rewrite Nat2Z.id, new_Range_ordered by done.
  intros ->%list_elem_of_singleton. by exists (index m).
Qed.

Lemma auth_rule_shape lines line i d :
  d ∈ auth_rule lines line i [] →
  ∃ m, str_match line funcRegex = Some m ∧
    test sensitiveNameRegex (extracted_name m) = true ∧
    has_auth lines i = false ∧
    d = {| range := line_range i 0 (length line);
           message := missing_auth_message (extracted_name m);
           severity := Warning; code := missing_auth |}.
Proof.
  unfold auth_rule. destruct (str_match line funcRegex) as [m|];
    [|by intros ?%elem_of_nil].
  cbv zeta. destruct (test sensitiveNameRegex _) eqn:Hn;
    [|by intros ?%elem_of_nil].
  destruct (has_auth lines i) eqn:Ha; [by intros ?%elem_of_nil|].
  rewrite new_Range_ordered by lia.
  intros ->%list_elem_of_singleton. by exists m.
Qed.

Lemma findIssues_elem document d :
  d ∈ findIssuesWithRegex document ↔
  ∃ i line, doc_lines document !! i = Some line ∧
    (d ∈ secret_rule line i [] ∨ d ∈ auth_rule (doc_lines document) line i []).
Proof.
  rewrite findIssues_split, elem_of_app, !elem_of_concat. split.
  - intros [(l&(i&line&->&Hi)%elem_of_lookup_imap&Hd)
           |(l&(i&line&->&Hi)%elem_of_lookup_imap&Hd)]; eauto 6.
  - intros (i&line&Hi&[Hd|Hd]); [left|right];
      (eexists; split; [apply elem_of_lookup_imap; eauto|done]).
Qed.

Lemma sensitive_name_found name :
  test sensitiveNameRegex name = true →
  ∃ kw, kw ∈ sensitive_names ∧ ci_contains name kw.
Proof.
  intros (pre&w&post&->&Hw)%(recognised_test _ _ recognises_sensitiveNameRegex).
  unfold sensitive_names.
  destruct Hw as [Hw%lang_Lit_ci|[Hw%lang_Lit_ci|[Hw%lang_Lit_ci|Hw%lang_Lit_ci]]];
    eexists; (split; [|by exists pre, w, post]).
  - by left.
  - right. by left.
  - do 2 right. by left.
  - do 3 right. by left.
Qed.

Lemma has_auth_false lines i :
  i < length lines → has_auth lines i = false →
  Forall (λ l, Forall (λ kw, ¬ ci_contains l kw) auth_keywords)
    (auth_window lines i).
Proof.
  intros Hi. rewrite has_auth_window by done. intros Hex.
  apply Forall_forall. intros l Hl. apply Forall_forall. intros kw Hkw Hc.
  assert (existsb (test authKeywordRegex) (auth_window lines i) = true) as E.
  { apply existsb_exists. exists l. split; [by apply list_elem_of_In|].
    by eapply test_auth_keywords. }
  congruence.
Qed.

(** X1.  Every diagnostic of the scanner is a warning of one of its two
    kinds, and its range lies within one line of the document: it starts at
    a column of that line and ends at the end of the line. *)
Theorem scanner_diagnostics_shape document d :
  d ∈ findIssuesWithRegex document →
  severity d = Warning ∧
  (code d = hardcoded_secret ∨ code d = missing_auth) ∧
  ∃ i line c, doc_lines document !! i = Some line ∧ c ≤ length line ∧
    range d = line_range i c (length line).
Proof.
  intros (i&line&Hi&[Hd|Hd])%findIssues_elem.
  - apply secret_rule_shape in Hd as (c&Hc&->). simpl.
    split_and!; [done|by left|]. by exists i, line, c.
  - apply auth_rule_shape in Hd as (m&_&_&_&->). simpl.
    split_and!; [done|by right|]. exists i, line, 0. split_and!; [done|lia|done].
Qed.

Lemma scanner_diagnostics_shape_witness :
  let d := {| range := line_range 0 6 25; message := secret_message;
              severity := Warning; code := hardcoded_secret |} in
  d ∈ findIssuesWithRegex api_key_doc ∧
  severity d = Warning ∧
  (code d = hardcoded_secret ∨ code d = missing_auth) ∧
  ∃ i line c, doc_lines api_key_doc !! i = Some line ∧ c ≤ length line ∧
    range d = line_range i c (length line).
Proof.
  intros d.
  assert (d ∈ findIssuesWithRegex api_key_doc) as Hd by (vm_compute; left).
  split; [exact Hd|]. exact (scanner_diagnostics_shape api_key_doc d Hd).
Defined.

Lemma secret_rule_none line i :
  ¬ occurs_in secret_assignment line
  ∨ Forall (λ c, ¬ is_quote c) line
  ∨ Forall (λ c, c ≠ chr ":" ∧ c ≠ chr "=") line →
  secret_rule line i [] = [].
Proof.
  intros Hno. unfold secret_rule.
  destruct (str_match line secretRegex) as [m|] eqn:E; [|done].
  exfalso.
  destruct (recognised_Some _ _ recognises_secretRegex _ _ E)
    as (pre&post&(Hs&Hw&_)&_).
  destruct Hno as [Hno|[Hno|Hno]].
  - apply Hno. by exists pre, (matched m), post.
  - destruct Hw as (tok&ws1&sep&ws2&lit&Hm&_&_&_&_&q1&l&q2&->&Hq1&_).
    rewrite Hs, Hm in Hno. revert Hno.
    repeat (rewrite Forall_app || rewrite Forall_cons). tauto.
  - destruct Hw as (tok&ws1&sep&ws2&lit&Hm&_&_&Hsep&_).
    rewrite Hs, Hm in Hno. revert Hno.
    repeat (rewrite Forall_app || rewrite Forall_cons).
    destruct Hsep as [-> | ->]; tauto.
Qed.

(** X2.  A line gets a hardcoded-secret warning only if it holds a secret
    assignment; in particular a line without a quote character, or without
    a colon or equals sign, never gets one. *)
Theorem no_secret_no_warning document i line :
  doc_lines document !! i = Some line →
  ¬ occurs_in secret_assignment line
  ∨ Forall (λ c, ¬ is_quote c) line
  ∨ Forall (λ c, c ≠ chr ":" ∧ c ≠ chr "=") line →
  filter (λ d, code d = hardcoded_secret ∧ on_line i d)
    (findIssuesWithRegex document) = [].
Proof.
  intros Hi Hno. rewrite (secret_on_line _ _ _ Hi). by apply secret_rule_none.
Qed.

Lemma no_secret_no_warning_witness :
  doc_lines login_doc !! 0 = Some (js "function login(req, res) {") ∧
  ¬ occurs_in secret_assignment (js "function login(req, res) {") ∧
  filter (λ d, code d = hardcoded_secret ∧ on_line 0 d)
    (findIssuesWithRegex login_doc) = [].
Proof.
  assert (doc_lines login_doc !! 0 = Some (js "function login(req, res) {"))
    as Hl by (vm_compute; reflexivity).
  assert (¬ occurs_in secret_assignment (js "function login(req, res) {"))
    as Hs.
  { intros H%(recognised_test _ _ recognises_secretRegex).
    vm_compute in H. discriminate. }
  split_and!; [exact Hl|exact Hs|].
  exact (no_secret_no_warning login_doc 0 _ Hl (or_introl Hs)).
Defined.

(** X3.  A missing-authorization warning is only given for a line that
    holds a function definition whose name contains one of the sensitive
    words, and only when no line of its window contains an authorization
    keyword; it spans that line and quotes the name. *)
Theorem missing_auth_only_when_unguarded document d :
  d ∈ findIssuesWithRegex document → code d = missing_auth →
  ∃ i line m kw,
    doc_lines document !! i = Some line ∧
    str_match line funcRegex = Some m ∧
    kw ∈ sensitive_names ∧ ci_contains (extracted_name m) kw ∧
    Forall (λ l, Forall (λ k, ¬ ci_contains l k) auth_keywords)
      (auth_window (doc_lines document) i) ∧
    d = {| range := line_range i 0 (length line);
           message := missing_auth_message (extracted_name m);
           severity := Warning; code := missing_auth |}.
Proof.
  intros (i&line&Hi&[Hd|Hd])%findIssues_elem Hcode.
  { apply secret_rule_shape in Hd as (c&_&->). discriminate Hcode. }
  apply auth_rule_shape in Hd as (m&Hm&Hn&Ha&->).
  apply sensitive_name_found in Hn as (kw&Hkw&Hc).
  exists i, line, m, kw. split_and!; try done.
  apply has_auth_false; [|done]. by eapply lookup_lt_Some.
Qed.

Lemma missing_auth_only_when_unguarded_witness :
  let d := {| range := line_range 0 0 26;
              message := missing_auth_message (js "login");
              severity := Warning; code := missing_auth |} in
  d ∈ findIssuesWithRegex unguarded_doc ∧ code d = missing_auth ∧
  ∃ i line m kw,
    doc_lines unguarded_doc !! i = Some line ∧
    str_match line funcRegex = Some m ∧
    kw ∈ sensitive_names ∧ ci_contains (extracted_name m) kw ∧
    Forall (λ l, Forall (λ k, ¬ ci_contains l k) auth_keywords)
      (auth_window (doc_lines unguarded_doc) i) ∧
    d = {| range := line_range i 0 (length line);
           message := missing_auth_message (extracted_name m);
           severity := Warning; code := missing_auth |}.
Proof.
  intros d.
  assert (d ∈ findIssuesWithRegex unguarded_doc) as Hd by (vm_compute; left).
  assert (code d = missing_auth) as Hc by reflexivity.
  split_and!; [exact Hd|exact Hc|].
  exact (missing_auth_only_when_unguarded unguarded_doc d Hd Hc).
Defined.

Lemma secret_rule_length line i : length (secret_rule line i []) ≤ 1.
Proof. unfold secret_rule. destruct (str_match _ _); simpl; lia. Qed.

Lemma auth_rule_length lines line i : length (auth_rule lines line i []) ≤ 1.
Proof.
  unfold auth_rule. destruct (str_match _ _); [|simpl; lia]. cbv zeta.
  destruct (test _ _); [|simpl; lia]. destruct (has_auth _ _); simpl; lia.
Qed.

(** X4.  The scanner lists the hardcoded-secret warnings first and the
    missing-authorization warnings after them, each kind in line order with
    at most one per line. *)
Theorem scanner_order document :
  ∃ secrets auths,
    findIssuesWithRegex document = secrets ++ auths ∧
    Forall (λ d, code d = hardcoded_secret) secrets ∧
    Forall (λ d, code d = missing_auth) auths ∧
    StronglySorted lt ((λ d, startLine (range d)) <$> secrets) ∧
    StronglySorted lt ((λ d, startLine (range d)) <$> auths).
Proof.
  eexists _, _. split; [apply findIssues_split|]. split_and!.
  - apply Forall_forall. intros d (l&(i&x&->&_)%elem_of_lookup_imap&Hd)%elem_of_concat.
    by apply secret_rule_elem in Hd as [_ ?].
  - apply Forall_forall. intros d (l&(i&x&->&_)%elem_of_lookup_imap&Hd)%elem_of_concat.
    by apply auth_rule_elem in Hd as [_ ?].
  - apply (sorted_key_imap (λ d, startLine (range d))
             (λ j x, secret_rule x j []) (λ j x d H, proj1 (secret_rule_elem x j d H))
             (λ j x, secret_rule_length x j) (doc_lines document) 0).
  - apply (sorted_key_imap (λ d, startLine (range d))
             (λ j x, auth_rule (doc_lines document) x j [])
             (λ j x d H, proj1 (auth_rule_elem _ x j d H))
             (λ j x, auth_rule_length _ x j) (doc_lines document) 0).
Qed.

(** X5.  Splitting undoes joining: a text made of lines joined by line
    feeds, or by carriage return and line feed, is split into exactly those
    lines, provided no line holds a line feed or ends in a carriage
    return. *)
Theorem line_ends_round_trip document eol ls :
  eol = [10%N] ∨ eol = [13%N; 10%N] → ls ≠ [] →
  Forall (λ l, Forall (λ c, c ≠ 10%N) l ∧ last l ≠ Some 13%N) ls →
  getText document = unlines eol ls →
  doc_lines document = ls.
Proof.
  intros Heol Hne Hls Ht. rewrite doc_lines_lines, Ht.
  by apply lines_from_unlines.
Qed.

Lemma line_ends_round_trip_witness :
  let ls := [js "function login(req, res) {";
             js "  return db.find(req_user(req));"; js "}"] in
  getText login_doc_crlf = unlines [13%N; 10%N] ls ∧
  doc_lines login_doc_crlf = ls.
Proof.
  intros ls. split; [reflexivity|].
  apply (line_ends_round_trip login_doc_crlf [13%N; 10%N] ls);
    [by right|done| |reflexivity].
  repeat constructor; vm_compute; discriminate.
Defined.

(** X6.  The scanner and the prompt extractor do not depend on the style
    of the line ends: the same lines joined by line feeds or by carriage
    return and line feed give the same diagnostics and the same prompts. *)
Theorem line_end_style_irrelevant lf crlf ls :
  ls ≠ [] →
  Forall (λ l, Forall (λ c, c ≠ 10%N) l ∧ last l ≠ Some 13%N) ls →
  getText lf = unlines [10%N] ls → getText crlf = unlines [13%N; 10%N] ls →
  findIssuesWithRegex lf = findIssuesWithRegex crlf ∧
  (languageId lf = languageId crlf →
   extractPrompts lf = extractPrompts crlf).
Proof.
  intros Hne Hls Hlf Hcrlf.
  assert (doc_lines lf = doc_lines crlf) as E.
  { rewrite !doc_lines_lines, Hlf, Hcrlf.
    rewrite !lines_from_unlines; auto. }
  split.
  - unfold findIssuesWithRegex. by rewrite E.
  - intros Hlang. unfold extractPrompts, isTargetDoc. by rewrite E, Hlang.
Qed.

Lemma line_end_style_irrelevant_witness :
  let ls := [js "function login(req, res) {";
             js "  return db.find(req_user(req));"; js "}"] in
  getText login_doc = unlines [10%N] ls ∧
  getText login_doc_crlf = unlines [13%N; 10%N] ls ∧
  findIssuesWithRegex login_doc = findIssuesWithRegex login_doc_crlf ∧
  (languageId login_doc = languageId login_doc_crlf →
   extractPrompts login_doc = extractPrompts login_doc_crlf).
Proof.
  intros ls.
  assert (Forall (λ l, Forall (λ c, c ≠ 10%N) l ∧ last l ≠ Some 13%N) ls)
    as Hls by (repeat constructor; vm_compute; discriminate).
  split_and!; [reflexivity|reflexivity|..];
    apply (line_end_style_irrelevant login_doc login_doc_crlf ls
             ltac:(done) Hls eq_refl eq_refl).
Defined.

(** X7.  A document always has a first line, even when its text is empty,
    and no line of a document holds a line feed. *)
Theorem document_lines_shape document :
  is_Some (lineAt document 0) ∧
  Forall (Forall (λ c, c ≠ 10%N)) (doc_lines document) ∧
  (getText document = [] → doc_lines document = [[]]).
Proof.
  unfold lineAt. rewrite doc_lines_lines. split_and!.
  - pose proof (lines_from_nonempty (getText document) []).
    by destruct (lines_from [] (getText document)).
  - by apply lines_from_no_lf.
  - by intros ->.
Qed.

(** ** The timer maps *)

Lemma js_inj s1 s2 : js s1 = js s2 → s1 = s2.
Proof.
  unfold js. intros H.
  rewrite <-(string_of_list_ascii_of_string s1),
    <-(string_of_list_ascii_of_string s2). f_equal.
  revert H. generalize (list_ascii_of_string s1) (list_ascii_of_string s2).
  induction l as [|a l IH]; intros [|b l']; try done.
  rewrite !fmap_cons. intros [= Ha Hl]. f_equal; [|by apply IH].
  by rewrite <-(ascii_N_embedding a), <-(ascii_N_embedding b), Ha.
Qed.

Lemma inFlightKey_inj i j : inFlightKey i = inFlightKey j → i = j.
Proof.
  unfold inFlightKey. intros H%app_inv_head%js_inj. by apply pretty_nat_inj in H.
Qed.

Lemma in_flight_entry w docKey i :
  in_flight w docKey i = true ↔ is_Some (entry w docKey (inFlightKey i)).
Proof.
  unfold in_flight, entry. destruct (pendingTimers w !! docKey) as [m|]; simpl.
  - destruct (m !! inFlightKey i); split; (done || by intros [? ?]).
  - split; (done || by intros [? ?]).
Qed.

Lemma in_flight_ext w w' docKey i :
  entry w' docKey (inFlightKey i) = entry w docKey (inFlightKey i) →
  in_flight w' docKey i = in_flight w docKey i.
Proof.
  intros H. apply eq_true_iff_eq. by rewrite !in_flight_entry, H.
Qed.

Lemma entry_trigger document i p w docKey key :
  entry (triggerEnhancementRequest document i p w) docKey key
  = if decide (docKey = uri document ∧ key = inFlightKey i)
    then Some (default InFlight (entry w docKey key))
    else entry w docKey key.
Proof.
  unfold triggerEnhancementRequest, entry. cbv zeta.
  destruct (pendingTimers w !! uri document) as [m|] eqn:Em.
  - rewrite Em. simpl. destruct (m !! inFlightKey i) as [e|] eqn:Ee.
    + case_decide as H; [|done]. destruct H as [-> ->]. by rewrite Em; simpl; rewrite Ee.
    + simpl. destruct (decide (docKey = uri document)) as [->|Hk].
      * rewrite lookup_insert_eq, Em. simpl.
        destruct (decide (key = inFlightKey i)) as [->|Hkey].
        -- rewrite lookup_insert_eq, Ee. by rewrite decide_True.
        -- rewrite lookup_insert_ne by done. rewrite decide_False; [done|tauto].
      * rewrite lookup_insert_ne by done. rewrite decide_False; [done|tauto].
  - simpl. rewrite lookup_insert_eq. simpl. rewrite lookup_empty. simpl.
    destruct (decide (docKey = uri document)) as [->|Hk].
    + rewrite lookup_insert_eq, Em. simpl.
      destruct (decide (key = inFlightKey i)) as [->|Hkey].
      * rewrite lookup_insert_eq. by rewrite decide_True.
      * rewrite lookup_insert_ne by done. rewrite lookup_empty.
        rewrite decide_False; [done|tauto].
    + rewrite !lookup_insert_ne by done. rewrite decide_False; [done|tauto].
Qed.

Lemma entry_store_and_publish document i diag w docKey key :
  entry (store_and_publish document i diag w) docKey key = entry w docKey key.
Proof. done. Qed.

Lemma settle_pendingTimers document i result w :
  pendingTimers (settle document i result w).1
  = alter (delete (inFlightKey i)) (uri document) (pendingTimers w).
Proof.
  unfold settle. cbv zeta.
  repeat (case_match; simplify_eq/=); done.
Qed.

Lemma entry_settle document i result w docKey key :
  entry (settle document i result w).1 docKey key
  = if decide (docKey = uri document ∧ key = inFlightKey i)
    then None else entry w docKey key.
Proof.
  unfold entry. rewrite settle_pendingTimers.
  destruct (decide (docKey = uri document)) as [->|Hk].
  - rewrite lookup_alter_eq. destruct (pendingTimers w !! uri document) as [m|];
      simpl; [|by case_decide].
    destruct (decide (key = inFlightKey i)) as [->|Hkey].
    + rewrite lookup_delete_eq. by rewrite decide_True.
    + rewrite lookup_delete_ne by done. rewrite decide_False; [done|tauto].
  - rewrite lookup_alter_ne by done. rewrite decide_False; [done|tauto].
Qed.

Lemma settle_tasks document i result w :
  tasks (settle document i result w).1 = tasks w.
Proof.
  unfold settle. cbv zeta. repeat (case_match; simplify_eq/=); done.
Qed.

Lemma settle_env document i result w :
  env (settle document i result w).1 = env w.
Proof.
  unfold settle. cbv zeta. repeat (case_match; simplify_eq/=); done.
Qed.

Lemma settle_calls document i result w :
  clientCalls (settle document i result w).1 = clientCalls w ∧
  remoteCalls (settle document i result w).1 = remoteCalls w.
Proof.
  unfold settle. cbv zeta. repeat (case_match; simplify_eq/=); done.
Qed.

Lemma in_flight_trigger document i p w docKey j :
  in_flight (triggerEnhancementRequest document i p w) docKey j
  = in_flight w docKey j || bool_decide (docKey = uri document ∧ j = i).
Proof.
  apply eq_true_iff_eq.
  rewrite orb_true_iff, bool_decide_eq_true, !in_flight_entry, entry_trigger.
  case_decide as H.
  - destruct H as [-> ->%inFlightKey_inj]. split; [by right|by eexists].
  - split; [by left|]. intros [?|[-> ->]]; [done|]. by destruct H.
Qed.

Lemma trigger_tasks document i p w :
  tasks (triggerEnhancementRequest document i p w)
  = tasks w
    ++ (if in_flight w (uri document) i then []
        else [EnhanceTask (uri document) i
                (getEnhancedPromptFromNvidia (env w) p)]).
Proof.
  unfold triggerEnhancementRequest, in_flight. cbv zeta.
  destruct (pendingTimers w !! uri document) as [m|] eqn:Em.
  - rewrite Em. simpl. destruct (m !! inFlightKey i); [by rewrite app_nil_r|done].
  - simpl. rewrite lookup_insert_eq. simpl. by rewrite lookup_empty.
Qed.

Lemma trigger_calls document i p w :
  clientCalls (triggerEnhancementRequest document i p w)
  = clientCalls w ++ (if in_flight w (uri document) i then [] else [p]) ∧
  remoteCalls (triggerEnhancementRequest document i p w)
  = remoteCalls w
    ++ (if in_flight w (uri document) i then []
        else if getEnhancedPromptFromNvidia (env w) p is Remote request
             then [request] else []).
Proof.
  unfold triggerEnhancementRequest, in_flight. cbv zeta.
  destruct (pendingTimers w !! uri document) as [m|] eqn:Em.
  - rewrite Em. simpl. destruct (m !! inFlightKey i); [by rewrite !app_nil_r|done].
  - simpl. rewrite lookup_insert_eq. simpl. by rewrite lookup_empty.
Qed.

Lemma trigger_env document i p w :
  env (triggerEnhancementRequest document i p w) = env w.
Proof.
  unfold triggerEnhancementRequest. cbv zeta.
  repeat (case_match; simplify_eq/=); done.
Qed.

Lemma trigger_collection document i p w :
  diagnosticCollection (triggerEnhancementRequest document i p w)
  = diagnosticCollection w.
Proof.
  unfold triggerEnhancementRequest. cbv zeta.
  repeat (case_match; simplify_eq/=); done.
Qed.

(** ** A scan as a sequence of requests *)

Lemma detect_requested document w :
  let w' := detectAndEnhancePrompts document w in
  pendingTimers w' = pendingTimers (requested document w) ∧
  tasks w' = tasks (requested document w) ∧
  clientCalls w' = clientCalls (requested document w) ∧
  remoteCalls w' = remoteCalls (requested document w) ∧
  env w' = env (requested document w).
Proof.
  unfold detectAndEnhancePrompts, requested. cbv zeta.
  destruct (isTargetDoc document) eqn:Ht; simpl.
  - rewrite <-(detect_requests _ _ Ht).
    by destruct (forEach _ _ _ _) as [ds w'].
  - unfold extractPrompts. by rewrite Ht.
Qed.

Lemma extractPrompts_sorted document :
  StronglySorted lt (fst <$> extractPrompts document).
Proof.
  destruct (isTargetDoc document) eqn:Ht;
    [|unfold extractPrompts; rewrite Ht; constructor].
  rewrite (extractPrompts_lines _ Ht).
  set (g := λ (j : nat) (x : jstr),
              from_option (λ p, [(j, p)]) [] (userPrompt_of x)).
  assert (∀ j x d, d ∈ g j x → d.1 = j) as Hg.
  { intros j x d. unfold g. destruct (userPrompt_of x); simpl.
    - by intros ->%list_elem_of_singleton.
    - by intros ?%elem_of_nil. }
  assert (∀ j x, length (g j x) ≤ 1) as Hlen.
  { intros j x. unfold g. destruct (userPrompt_of x); simpl; lia. }
  by destruct (sorted_key_imap fst g Hg Hlen (doc_lines document) 0).
Qed.

Lemma extractPrompts_elem document i p :
  (i, p) ∈ extractPrompts document →
  ∃ line, doc_lines document !! i = Some line ∧ userPrompt_of line = Some p.
Proof.
  destruct (isTargetDoc document) eqn:Ht;
    [|unfold extractPrompts; rewrite Ht; by intros ?%elem_of_nil].
  rewrite (extractPrompts_lines _ Ht).
  intros (ds&(j&line&->&Hj)%elem_of_lookup_imap&Hd)%elem_of_concat.
  destruct (userPrompt_of line) as [q|] eqn:Eq; simpl in Hd;
    [|by apply elem_of_nil in Hd].
  apply list_elem_of_singleton in Hd as [= -> ->]. eauto.
Qed.

Section requests.
Context (document : Document).
Let trig (w : World) (q : nat * jstr) : World :=
  triggerEnhancementRequest document q.1 q.2 w.

Lemma in_flight_requests l : ∀ w docKey j,
  in_flight (foldl trig w l) docKey j
  = in_flight w docKey j
    || bool_decide (docKey = uri document ∧ j ∈ fst <$> l).
Proof.
  induction l as [|q l IH]; intros w docKey j; simpl.
  - rewrite bool_decide_eq_false_2; [by rewrite orb_false_r|].
    by intros [_ ?%elem_of_nil].
  - rewrite IH. unfold trig. rewrite in_flight_trigger, <-orb_assoc.
    f_equal. apply eq_true_iff_eq.
    rewrite orb_true_iff, !bool_decide_eq_true, elem_of_cons. tauto.
Qed.

Lemma clientCalls_requests l : ∀ w,
  NoDup (fst <$> l) →
  clientCalls (foldl trig w l)
  = clientCalls w
    ++ (snd <$> filter (λ q, in_flight w (uri document) q.1 = false) l).
Proof.
  induction l as [|q l IH]; intros w Hnd; simpl; [by rewrite app_nil_r|].
  rewrite fmap_cons in Hnd. apply NoDup_cons in Hnd as [Hq Hnd].
  rewrite IH by done. unfold trig.
  rewrite (proj1 (trigger_calls _ _ _ _)), <-(assoc_L (++)). f_equal.
  rewrite filter_cons.
  rewrite (filter_ext_in
             (λ q0, in_flight (triggerEnhancementRequest document q.1 q.2 w)
                      (uri document) q0.1 = false)
             (λ q0, in_flight w (uri document) q0.1 = false)).
  - destruct (in_flight w (uri document) q.1) eqn:E.
    + by rewrite decide_False by done.
    + by rewrite decide_True by done.
  - intros q0 Hq0. rewrite in_flight_trigger.
    rewrite bool_decide_eq_false_2; [by rewrite orb_false_r|].
    intros [_ E]. apply Hq. rewrite <-E. apply list_elem_of_fmap. eauto.
Qed.

Lemma env_requests l : ∀ w, env (foldl trig w l) = env w.
Proof.
  induction l as [|q l IH]; intros w; simpl; [done|].
  rewrite IH. apply trigger_env.
Qed.

Lemma store_requests l : ∀ w,
  enhancedDiagnosticsStore (foldl trig w l) = enhancedDiagnosticsStore w.
Proof.
  induction l as [|q l IH]; intros w; simpl; [done|].
  rewrite IH. apply trigger_store.
Qed.

Lemma collection_requests l : ∀ w,
  diagnosticCollection (foldl trig w l) = diagnosticCollection w.
Proof.
  induction l as [|q l IH]; intros w; simpl; [done|].
  rewrite IH. apply trigger_collection.
Qed.
End requests.

Lemma in_flight_same w w' docKey i :
  pendingTimers w' = pendingTimers w →
  in_flight w' docKey i = in_flight w docKey i.
Proof. unfold in_flight. by intros ->. Qed.

Lemma pending_same w w' : tasks w' = tasks w → pending w' = pending w.
Proof. unfold pending. by intros ->. Qed.

Lemma fmap_concat_imap {A B C D} (f : B → D) (f' : C → D)
    (g : nat → A → list B) (g' : nat → A → list C) l :
  (∀ j x, f <$> g j x = f' <$> g' j x) →
  f <$> concat (imap g l) = f' <$> concat (imap g' l).
Proof.
  revert g g'. induction l as [|x l IH]; intros g g' Hg; [done|].
  simpl. rewrite !fmap_app, Hg. f_equal. apply IH. intros j y. apply Hg.
Qed.

(** X8.  A scan calls the enhancement client once for every prompt line
    that has no request in flight, in line order, and for no other line. *)
Theorem scan_requests document w :
  clientCalls (detectAndEnhancePrompts document w)
  = clientCalls w
    ++ (snd <$> filter (λ q, in_flight w (uri document) q.1 = false)
                  (extractPrompts document)).
Proof.
  destruct (detect_requested document w) as (_&_&->&_).
  apply clientCalls_requests, StronglySorted_lt_NoDup, extractPrompts_sorted.
Qed.

(** X9.  After a scan of a document of a supported language, the store of
    the document holds one Loading diagnostic for every prompt line, in line
    order, and nothing else; every prompt line has a request in flight; and
    what is published for the document is the store followed by the
    diagnostics of the scanner. *)
Theorem scan_resets_store document w :
  isTargetDoc document = true →
  let w' := detectAndEnhancePrompts document w in
  Forall (λ d, code d = enhanced_prompt_loading ∧ severity d = Information)
    (stored w' (uri document)) ∧
  (λ d, startLine (range d)) <$> stored w' (uri document)
  = fst <$> extractPrompts document ∧
  (∀ i p, (i, p) ∈ extractPrompts document →
     in_flight w' (uri document) i = true) ∧
  diagnosticCollection w' !! uri document
  = Some (stored w' (uri document) ++ findIssuesWithRegex document).
Proof.
  intros Ht w'.
  assert (stored w' (uri document)
          = concat (imap loading_of (doc_lines document))) as Hst.
  { unfold stored, w'. by rewrite (detect_stored _ _ Ht), lookup_insert_eq. }
  split_and!.
  - rewrite Hst. apply Forall_forall.
    intros d (l&(j&x&->&_)%elem_of_lookup_imap&Hd)%elem_of_concat.
    unfold loading_of in Hd. destruct (userPrompt_of x); simpl in Hd;
      [|by apply elem_of_nil in Hd].
    by apply list_elem_of_singleton in Hd as ->.
  - rewrite Hst, (extractPrompts_lines _ Ht). apply fmap_concat_imap.
    intros j x. unfold loading_of. destruct (userPrompt_of x); [|done].
    simpl. by rewrite new_Range_line.
  - intros i p Hip.
    destruct (detect_requested document w) as (Hp&_).
    rewrite (in_flight_same _ _ _ _ Hp). unfold requested.
    rewrite in_flight_requests. apply orb_true_iff. right.
    apply bool_decide_eq_true. split; [done|].
    apply list_elem_of_fmap. by exists (i, p).
  - rewrite Hst. unfold w', detectAndEnhancePrompts. rewrite Ht. simpl.
    destruct (forEach _ _ _ _) as [ds w1] eqn:E. simpl.
    rewrite lookup_insert_eq. do 2 f_equal.
    pose proof (detect_loop_fst document (doc_lines document) 0 [] w) as H.
    by rewrite E in H.
Qed.

Lemma scan_resets_store_witness :
  isTargetDoc prompt_doc = true ∧
  stored (detectAndEnhancePrompts prompt_doc (init_world with_key))
    (uri prompt_doc)
  = [loading_diagnostic 1 (js "// PROMPT: Create login website")] ∧
  (λ d, startLine (range d))
    <$> stored (detectAndEnhancePrompts prompt_doc (init_world with_key))
          (uri prompt_doc)
  = fst <$> extractPrompts prompt_doc.
Proof.
  assert (isTargetDoc prompt_doc = true) as Ht by (vm_compute; reflexivity).
  split_and!; [exact Ht|vm_compute; reflexivity|].
  apply (scan_resets_store prompt_doc (init_world with_key) Ht).
Defined.

(** ** Requests under way *)

Lemma pending_trigger document i p w :
  pending (triggerEnhancementRequest document i p w)
  = pending w
    ++ (if in_flight w (uri document) i then [] else [(uri document, i)]).
Proof.
  unfold pending. rewrite trigger_tasks, omap_app.
  by destruct (in_flight w (uri document) i).
Qed.

Lemma requests_inv_trigger document i p w :
  requests_inv w → requests_inv (triggerEnhancementRequest document i p w).
Proof.
  intros [Hnd Hin]. split.
  - rewrite pending_trigger.
    destruct (in_flight w (uri document) i) eqn:E; [by rewrite app_nil_r|].
    apply NoDup_app. split_and!; [done| |apply NoDup_singleton].
    intros x Hx ->%list_elem_of_singleton. apply Hin in Hx. congruence.
  - intros docKey j.
    rewrite in_flight_trigger, pending_trigger, orb_true_iff,
      bool_decide_eq_true, elem_of_app, Hin.
    destruct (in_flight w (uri document) i) eqn:E.
    + rewrite elem_of_nil. split; [|tauto].
      intros [?|[-> ->]]; [by left|]. left. by apply Hin.
    + rewrite list_elem_of_singleton. split.
      * intros [?|[-> ->]]; [by left|by right].
      * intros [?|[= -> ->]]; [by left|by right].
Qed.

Lemma requests_inv_same w w' :
  pendingTimers w' = pendingTimers w → tasks w' = tasks w →
  requests_inv w → requests_inv w'.
Proof.
  intros Hp Ht [Hnd Hin]. split; [by rewrite (pending_same _ _ Ht)|].
  intros docKey i.
  by rewrite (in_flight_same _ _ _ _ Hp), (pending_same _ _ Ht).
Qed.

Lemma requests_inv_requested document w :
  requests_inv w → requests_inv (requested document w).
Proof.
  unfold requested. generalize (extractPrompts document). intros l.
  revert w. induction l as [|q l IH]; intros w Hw; [done|].
  simpl. by apply IH, requests_inv_trigger.
Qed.

Lemma requests_inv_detect document w :
  requests_inv w → requests_inv (detectAndEnhancePrompts document w).
Proof.
  intros Hw. destruct (detect_requested document w) as (Hp&Ht&_).
  eapply requests_inv_same; [exact Hp|exact Ht|].
  by apply requests_inv_requested.
Qed.

Lemma pending_delete_publish w k docKey ds :
  tasks w !! k = Some (PublishTask docKey ds) →
  pending (set_tasks (delete k (tasks w)) w) = pending w.
Proof.
  intros Hk. unfold pending. simpl.
  rewrite <-(take_drop_middle _ _ _ Hk) at 2.
  by rewrite delete_take_drop, !omap_app.
Qed.

Lemma pending_delete_enhance w k docKey i wait :
  tasks w !! k = Some (EnhanceTask docKey i wait) →
  ∃ l1 l2, pending w = l1 ++ (docKey, i) :: l2 ∧
    pending (set_tasks (delete k (tasks w)) w) = l1 ++ l2.
Proof.
  intros Hk. unfold pending. simpl. eexists _, _. split.
  - rewrite <-(take_drop_middle _ _ _ Hk) at 1. by rewrite omap_app.
  - by rewrite delete_take_drop, omap_app.
Qed.

Lemma requests_inv_settle document i result w k wait :
  tasks w !! k = Some (EnhanceTask (uri document) i wait) →
  requests_inv w →
  requests_inv (settle document i result (set_tasks (delete k (tasks w)) w)).1.
Proof.
  intros Hk [Hnd Hin].
  destruct (pending_delete_enhance _ _ _ _ _ Hk) as (l1&l2&E1&E2).
  rewrite E1 in Hnd. apply NoDup_app in Hnd as (Hnd1&Hdisj&Hnd2).
  apply NoDup_cons in Hnd2 as [Hnot2 Hnd2].
  set (w1 := set_tasks (delete k (tasks w)) w).
  assert (pending (settle document i result w1).1 = l1 ++ l2) as Hp.
  { rewrite <-E2. apply pending_same, settle_tasks. }
  split.
  - rewrite Hp. apply NoDup_app. split_and!; [done| |done].
    intros x Hx Hx2. apply (Hdisj x Hx). by right.
  - intros docKey j. rewrite Hp, in_flight_entry, entry_settle.
    case_decide as Hd.
    + destruct Hd as [-> ->%inFlightKey_inj]. split; [by intros [? ?]|].
      intros [H1|H2]%elem_of_app; [|done].
      destruct (Hdisj _ H1). by left.
    + change (entry w1 docKey (inFlightKey j))
        with (entry w docKey (inFlightKey j)).
      rewrite <-in_flight_entry, Hin, E1, !elem_of_app, elem_of_cons.
      split; [|tauto]. intros [?|[[= -> ->]|?]]; [by left| |by right].
      by destruct Hd.
Qed.

Lemma requests_inv_step w e : requests_inv w → requests_inv (step w e).
Proof.
  intros Hw. destruct e as [document|k document outcome]; simpl.
  - unfold runSecurityScanAndEnhanced.
    apply requests_inv_detect with (document := document) in Hw.
    destruct Hw as [Hnd Hin]. split.
    + unfold pending. simpl. rewrite omap_app. simpl. by rewrite app_nil_r.
    + intros docKey i. unfold pending. simpl. rewrite omap_app. simpl.
      rewrite app_nil_r. apply Hin.
  - destruct (tasks w !! k) as [[docKey i wait|docKey ds]|] eqn:Hk; [| |done].
    + case_decide as Hu; [|done]. subst docKey. by eapply requests_inv_settle.
    + destruct Hw as [Hnd Hin]. unfold runSecurityScanAndEnhanced_resume.
      split.
      * change (NoDup (pending (set_tasks (delete k (tasks w)) w))).
        by rewrite (pending_delete_publish _ _ _ _ Hk).
      * intros docKey' i.
        change (in_flight w docKey' i = true
                ↔ (docKey', i) ∈ pending (set_tasks (delete k (tasks w)) w)).
        by rewrite (pending_delete_publish _ _ _ _ Hk).
Qed.

Lemma requests_inv_run events : ∀ w, requests_inv w → requests_inv (run events w).
Proof.
  induction events as [|e events IH]; intros w Hw; [done|].
  by apply IH, requests_inv_step.
Qed.

Lemma requests_inv_init e : requests_inv (init_world e).
Proof.
  split; [constructor|]. intros docKey i. unfold in_flight, pending. simpl.
  rewrite lookup_empty. split; [done|by intros ?%elem_of_nil].
Qed.

(** X10.  In every state the extension reaches, each document line has at
    most one request under way, and the line is marked as in flight exactly
    while that request is under way. *)
Theorem one_request_per_line e events :
  let w := run events (init_world e) in
  NoDup (pending w) ∧
  ∀ docKey i, in_flight w docKey i = true ↔ (docKey, i) ∈ pending w.
Proof. apply requests_inv_run, requests_inv_init. Qed.

(** ** Calls of the remote service *)

Lemma calls_inv_trigger document i p w :
  calls_inv w → calls_inv (triggerEnhancementRequest document i p w).
Proof.
  unfold calls_inv. intros Hw.
  destruct (trigger_calls document i p w) as [-> ->].
  rewrite trigger_env, omap_app, Hw. f_equal.
  destruct (in_flight w (uri document) i); [done|]. simpl. unfold request_of.
  by destruct (getEnhancedPromptFromNvidia (env w) p).
Qed.

Lemma calls_inv_same w w' :
  env w' = env w → clientCalls w' = clientCalls w →
  remoteCalls w' = remoteCalls w → calls_inv w → calls_inv w'.
Proof. unfold calls_inv. by intros -> -> ->. Qed.

Lemma calls_inv_requested document w :
  calls_inv w → calls_inv (requested document w).
Proof.
  unfold requested. generalize (extractPrompts document). intros l.
  revert w. induction l as [|q l IH]; intros w Hw; [done|].
  simpl. by apply IH, calls_inv_trigger.
Qed.

Lemma calls_inv_step w e : calls_inv w → calls_inv (step w e).
Proof.
  intros Hw. destruct e as [document|k document outcome]; simpl.
  - unfold runSecurityScanAndEnhanced.
    destruct (detect_requested document w) as (_&_&Hc&Hr&He).
    apply calls_inv_same with (w := requested document w); [done..|].
    by apply calls_inv_requested.
  - destruct (tasks w !! k) as [[docKey i wait|docKey ds]|]; [| |done].
    + case_decide; [|done]. eapply calls_inv_same; [| | |exact Hw].
      * by rewrite settle_env.
      * by rewrite (proj1 (settle_calls _ _ _ _)).
      * by rewrite (proj2 (settle_calls _ _ _ _)).
    + exact Hw.
Qed.

Lemma env_step w e : env (step w e) = env w.
Proof.
  destruct e as [document|k document outcome]; simpl.
  - unfold runSecurityScanAndEnhanced. simpl.
    destruct (detect_requested document w) as (_&_&_&_&->).
    apply env_requests.
  - destruct (tasks w !! k) as [[docKey i wait|docKey ds]|]; [| |done].
    + case_decide; [|done]. by rewrite settle_env.
    + done.
Qed.

Lemma env_run events : ∀ w, env (run events w) = env w.
Proof.
  induction events as [|e events IH]; intros w; [done|].
  change (env (run events (step w e)) = env w). by rewrite IH, env_step.
Qed.

Lemma calls_inv_run events : ∀ w, calls_inv w → calls_inv (run events w).
Proof.
  induction events as [|e events IH]; intros w Hw; [done|].
  by apply IH, calls_inv_step.
Qed.

(** X11.  The extension leaves the environment as it is after start-up.
    Without a credential it never sends a request to the remote service,
    whatever happens; with one, every call of the client sends exactly one
    request, with the fixed system prompt and the user message made from
    the prompt of that call. *)
Theorem remote_calls_follow_credential e events :
  let w := run events (init_world e) in
  env w = startup e ∧
  (truthy (OPENAI_API_KEY (startup e)) = false → remoteCalls w = []) ∧
  (truthy (OPENAI_API_KEY (startup e)) = true →
   messages <$> remoteCalls w
   = (λ p, [(js "system", systemPrompt); (js "user", userMessage p)])
       <$> clientCalls w).
Proof.
  intros w.
  assert (env w = startup e) as He by apply env_run.
  assert (calls_inv w) as Hc by (by apply calls_inv_run).
  unfold calls_inv in Hc. rewrite He in Hc. split_and!; [done|..].
  - intros Hk. rewrite Hc. clear Hc. induction (clientCalls w) as [|p l IH];
      [done|]. simpl. unfold request_of at 1, getEnhancedPromptFromNvidia.
    by rewrite Hk.
  - intros Hk. rewrite Hc. clear Hc. induction (clientCalls w) as [|p l IH];
      [done|]. simpl. unfold request_of at 1, getEnhancedPromptFromNvidia.
    rewrite Hk. simpl. f_equal. exact IH.
Qed.

Lemma remote_calls_follow_credential_witness :
  truthy (OPENAI_API_KEY (startup no_key)) = false ∧
  remoteCalls (run [Scan prompt_doc] (init_world no_key)) = [] ∧
  clientCalls (run [Scan prompt_doc] (init_world no_key))
  = [js "Create login website"].
Proof.
  assert (truthy (OPENAI_API_KEY (startup no_key)) = false) as Hk
    by reflexivity.
  split_and!; [exact Hk| |vm_compute; reflexivity].
  exact (proj1 (proj2 (remote_calls_follow_credential no_key [Scan prompt_doc]))
           Hk).
Defined.

(** ** What is published *)

Lemma publishes_trigger document i p w :
  publishes (triggerEnhancementRequest document i p w) = publishes w.
Proof.
  unfold publishes. rewrite trigger_tasks, omap_app.
  destruct (in_flight w (uri document) i); by rewrite app_nil_r.
Qed.

Lemma publishes_requested document w :
  publishes (requested document w) = publishes w.
Proof.
  unfold requested. generalize (extractPrompts document). intros l.
  revert w. induction l as [|q l IH]; intros w; [done|].
  simpl. by rewrite IH, publishes_trigger.
Qed.

Lemma detect_collection document w :
  isTargetDoc document = true →
  diagnosticCollection (detectAndEnhancePrompts document w)
  = <[uri document := concat (imap loading_of (doc_lines document))
                        ++ findIssuesWithRegex document]>
      (diagnosticCollection w).
Proof.
  intros Ht. unfold detectAndEnhancePrompts. rewrite Ht. simpl.
  pose proof (detect_loop_fst document (doc_lines document) 0 [] w) as H1.
  pose proof (detect_requests document w Ht) as H2.
  destruct (forEach _ _ _ _) as [ds w1]. simpl in *. subst.
  f_equal. apply collection_requests.
Qed.

Lemma settle_collection document i result w line :
  lineAt document i = Some line →
  diagnosticCollection (settle document i result w).1
  = <[uri document :=
        (filter (λ d, startLine (range d) ≠ i) (stored w (uri document))
           ++ [outcome_diagnostic i line result])
          ++ findIssuesWithRegex document]> (diagnosticCollection w).
Proof.
  intros Hl. unfold settle. cbv zeta. rewrite Hl. by destruct result.
Qed.

Lemma settle_collection_gone document i result w :
  lineAt document i = None →
  diagnosticCollection (settle document i result w).1 = diagnosticCollection w.
Proof.
  intros Hl. unfold settle. cbv zeta. rewrite Hl. by destruct result.
Qed.

Lemma sync_inv_update docKey ds sd w w' :
  scanned docKey sd →
  enhancedDiagnosticsStore w' = <[docKey := ds]> (enhancedDiagnosticsStore w) →
  diagnosticCollection w' = <[docKey := ds ++ sd]> (diagnosticCollection w) →
  publishes w' = publishes w →
  sync_inv w → sync_inv w'.
Proof.
  intros Hsd Hs Hc Hp [Hw1 Hw2]. split; [|by rewrite Hp].
  intros k ds'. unfold stored. rewrite Hc, Hs.
  destruct (decide (k = docKey)) as [->|Hk].
  - rewrite !lookup_insert_eq. intros [= <-]. by exists sd.
  - rewrite !lookup_insert_ne by done. apply Hw1.
Qed.

Lemma sync_inv_same w w' :
  enhancedDiagnosticsStore w' = enhancedDiagnosticsStore w →
  diagnosticCollection w' = diagnosticCollection w →
  publishes w' = publishes w →
  sync_inv w → sync_inv w'.
Proof.
  intros Hs Hc Hp [Hw1 Hw2]. split; [|by rewrite Hp].
  intros k ds. unfold stored. rewrite Hc, Hs. apply Hw1.
Qed.

Lemma sync_inv_detect document w :
  sync_inv w → sync_inv (detectAndEnhancePrompts document w).
Proof.
  intros Hw. destruct (isTargetDoc document) eqn:Ht;
    [|by rewrite detect_skips].
  eapply sync_inv_update; [| | | |exact Hw].
  - by exists document.
  - by apply detect_stored.
  - by apply detect_collection.
  - destruct (detect_requested document w) as (_&Htk&_).
    unfold publishes. rewrite Htk. apply publishes_requested.
Qed.

Lemma publishes_delete w k t :
  tasks w !! k = Some t →
  publishes (set_tasks (delete k (tasks w)) w) `sublist_of` publishes w.
Proof.
  intros Hk. unfold publishes. simpl.
  rewrite <-(take_drop_middle _ _ _ Hk) at 2.
  rewrite delete_take_drop, !omap_app. apply sublist_app; [done|].
  simpl. destruct t; [done|]. by apply sublist_cons.
Qed.

Lemma sync_inv_delete w k t :
  tasks w !! k = Some t → sync_inv w →
  sync_inv (set_tasks (delete k (tasks w)) w).
Proof.
  intros Hk [Hw1 Hw2]. split; [exact Hw1|].
  apply Forall_forall. intros q Hq.
  apply (proj1 (Forall_forall _ _) Hw2).
  eapply elem_of_sublist; [exact Hq|]. by eapply publishes_delete.
Qed.

Lemma sync_inv_settle document i result w :
  sync_inv w → sync_inv (settle document i result w).1.
Proof.
  intros Hw.
  assert (publishes (settle document i result w).1 = publishes w) as Hp.
  { unfold publishes. by rewrite settle_tasks. }
  destruct (lineAt document i) as [line|] eqn:Hl.
  - eapply sync_inv_update; [| | |exact Hp|exact Hw].
    + by exists document.
    + by apply settle_stored.
    + by apply settle_collection.
  - eapply sync_inv_same; [| |exact Hp|exact Hw].
    + by apply settle_stored_gone.
    + by apply settle_collection_gone.
Qed.

Lemma sync_inv_step w e : sync_inv w → sync_inv (step w e).
Proof.
  intros Hw. destruct e as [document|k document outcome]; simpl.
  - unfold runSecurityScanAndEnhanced.
    apply sync_inv_detect with (document := document) in Hw.
    destruct Hw as [Hw1 Hw2]. split; [exact Hw1|].
    unfold publishes. simpl. rewrite omap_app. apply Forall_app. split; [done|].
    repeat constructor. by exists document.
  - destruct (tasks w !! k) as [[docKey i wait|docKey ds]|] eqn:Hk; [| |done].
    + case_decide; [|done]. by eapply sync_inv_settle, sync_inv_delete.
    + assert ((docKey, ds) ∈ publishes w) as Hin.
      { unfold publishes. apply list_elem_of_omap.
        exists (PublishTask docKey ds).
        split; [by eapply list_elem_of_lookup_2|done]. }
      pose proof (sync_inv_delete _ _ _ Hk Hw) as [Hd1 Hd2].
      destruct Hw as [Hw1 Hw2].
      pose proof (proj1 (Forall_forall _ _) Hw2 _ Hin) as Hsc. simpl in Hsc.
      split; [|exact Hd2].
      intros k' ds'. unfold runSecurityScanAndEnhanced_resume, stored. simpl.
      destruct (decide (k' = docKey)) as [->|Hne].
      * rewrite lookup_insert_eq. intros [= <-]. by exists ds.
      * rewrite lookup_insert_ne by done. apply Hw1.
Qed.

Lemma sync_inv_run events : ∀ w, sync_inv w → sync_inv (run events w).
Proof.
  induction events as [|e events IH]; intros w Hw; [done|].
  by apply IH, sync_inv_step.
Qed.

(** X12.  In every state the extension reaches, what is published for a
    document is the diagnostics stored for it at that moment, followed by
    what the scanner reports for a version of the document: the published
    list never lags behind the store. *)
Theorem published_follows_store e events docKey ds :
  diagnosticCollection (run events (init_world e)) !! docKey = Some ds →
  ∃ document,
    uri document = docKey ∧
    ds = stored (run events (init_world e)) docKey
           ++ findIssuesWithRegex document.
Proof.
  intros Hds.
  assert (sync_inv (init_world e)) as Hi.
  { split; [|constructor]. intros k ds'. simpl. by rewrite lookup_empty. }
  destruct (sync_inv_run events _ Hi) as [H _].
  destruct (H _ _ Hds) as (sd&(document&Hu&->)&->). by exists document.
Qed.

Lemma published_follows_store_witness :
  let w := run [Scan prompt_doc] (init_world no_key) in
  let ds := [loading_diagnostic 1 (js "// PROMPT: Create login website")] in
  diagnosticCollection w !! uri prompt_doc = Some ds ∧
  ∃ document,
    uri document = uri prompt_doc ∧
    ds = stored w (uri prompt_doc) ++ findIssuesWithRegex document.
Proof.
  intros w ds.
  assert (diagnosticCollection w !! uri prompt_doc = Some ds) as H
    by (vm_compute; reflexivity).
  split; [exact H|].
  exact (published_follows_store no_key [Scan prompt_doc] _ _ H).
Defined.

(** ** Trimming *)

Lemma trim_start_split s :
  ∃ ws, s = ws ++ trim_start s ∧ whitespace ws.
Proof.
  induction s as [|c s (ws&Hs&Hws)]; [exists []; split; [done|constructor]|].
  simpl. destruct (is_space c) eqn:Hc.
  - exists (c :: ws). split; [by rewrite Hs at 1|by constructor].
  - exists []. split; [done|constructor].
Qed.

Lemma trim_start_head s c : head (trim_start s) = Some c → is_space c = false.
Proof.
  induction s as [|a s IH]; [done|]. simpl.
  destruct (is_space a) eqn:Ha; [done|]. by intros [= <-].
Qed.

Lemma trim_start_fix s :
  (∀ c, head s = Some c → is_space c = false) → trim_start s = s.
Proof. destruct s as [|a s]; [done|]. simpl. intros H. by rewrite H. Qed.

Lemma trim_split s :
  ∃ ws1 ws2, s = ws1 ++ trim s ++ ws2 ∧ whitespace ws1 ∧ whitespace ws2.
Proof.
  destruct (trim_start_split s) as (ws1&Hs&Hws1).
  destruct (trim_start_split (reverse (trim_start s))) as (ws&Ht&Hws).
  exists ws1, (reverse ws). unfold trim. split_and!; [|done|].
  - rewrite <-reverse_app, <-Ht, reverse_involutive. exact Hs.
  - unfold whitespace. by rewrite Forall_reverse.
Qed.

Lemma trim_ends s c :
  head (trim s) = Some c ∨ last (trim s) = Some c → is_space c = false.
Proof.
  unfold trim. rewrite head_reverse, last_reverse. intros [H|H].
  - destruct (trim_start_split (reverse (trim_start s))) as (ws&Ht&Hws).
    apply (trim_start_head s).
    rewrite <-(reverse_involutive (trim_start s)), Ht, reverse_app, head_app,
      head_reverse, H. done.
  - by eapply trim_start_head.
Qed.

Lemma trim_fix s :
  (∀ c, head s = Some c ∨ last s = Some c → is_space c = false) →
  trim s = s.
Proof.
  intros H. unfold trim. rewrite (trim_start_fix s) by auto.
  rewrite trim_start_fix; [apply reverse_involutive|].
  intros c. rewrite head_reverse. auto.
Qed.

Lemma trim_idemp s : trim (trim s) = trim s.
Proof. apply trim_fix, trim_ends. Qed.

Lemma trim_nil s : trim s = [] ↔ whitespace s.
Proof.
  split.
  - intros H. destruct (trim_split s) as (ws1&ws2&Hs&H1&H2).
    rewrite Hs, H. by apply Forall_app.
  - intros H. unfold trim.
    by rewrite <-(app_nil_r s), (trim_start_spaces s [] H).
Qed.

Lemma trim_Forall (P : N → Prop) s : Forall P s → Forall P (trim s).
Proof.
  destruct (trim_split s) as (ws1&ws2&Hs&_). rewrite Hs at 1.
  rewrite !Forall_app. tauto.
Qed.

(** X13.  Every prompt handed to the enhancement client is trimmed (it
    neither starts nor ends with whitespace) and holds no line
    terminator. *)
Theorem prompts_are_trimmed document i p :
  (i, p) ∈ extractPrompts document →
  trim p = p ∧
  (∀ c, head p = Some c ∨ last p = Some c → is_space c = false) ∧
  Forall (λ c, is_line_terminator c = false) p.
Proof.
  intros (line&_&Hp)%extractPrompts_elem.
  apply userPrompt_of_Some in Hp as (text&(h&_&_&ws&txt&->&Hws&_&Htxt)&->).
  split_and!.
  - apply trim_idemp.
  - apply trim_ends.
  - rewrite trim_spaces by done. by apply trim_Forall.
Qed.

Lemma prompts_are_trimmed_witness :
  (1, js "Create login website") ∈ extractPrompts prompt_doc ∧
  trim (js "Create login website") = js "Create login website".
Proof.
  assert ((1, js "Create login website") ∈ extractPrompts prompt_doc) as H
    by (vm_compute; left).
  split; [exact H|]. apply (prompts_are_trimmed prompt_doc 1 _ H).
Defined.

(** ** The enhancement client *)

(** X14.  The text the client returns is the content of the completion,
    trimmed, and it is never empty; a completion without content, or with
    nothing but whitespace, is turned into the error
    [Empty response from NVIDIA model]; an error of the remote call is
    passed on as it is. *)
Theorem client_result content err :
  getEnhancedPromptFromNvidia_resume (Failed err) = inl err ∧
  match getEnhancedPromptFromNvidia_resume (Completed content) with
  | inr enhanced =>
      ∃ text, content = Some text ∧ enhanced = trim text ∧ enhanced ≠ [] ∧
        trim enhanced = enhanced
  | inl err' =>
      err' = new_Error (js "Empty response from NVIDIA model") ∧
      (content = None ∨ ∃ text, content = Some text ∧ whitespace text)
  end.
Proof.
  split; [done|]. unfold getEnhancedPromptFromNvidia_resume.
  destruct content as [text|]; simpl; [|by split; [|left]].
  destruct text as [|c text]; simpl.
  { split; [done|]. right. exists []. split; [done|constructor]. }
  destruct (trim (c :: text)) as [|a t] eqn:E; simpl.
  - split; [done|]. right. eexists. split; [done|]. by apply trim_nil.
  - exists (c :: text). split_and!; [done|by rewrite E|done|].
    rewrite <-E. apply trim_idemp.
Qed.

(** X15.  The client has a credential exactly when one of the two
    environment variables is set at start-up: [OPENAI_API_KEY] is used when
    it is set, [NVIDIA_API] stands in when it is not, and with neither the
    client fails with the missing-key error before it sends anything. *)
Theorem credential_fallback e userPrompt :
  let e' := env (init_world e) in
  (truthy (OPENAI_API_KEY e) = true → OPENAI_API_KEY e' = OPENAI_API_KEY e) ∧
  (truthy (OPENAI_API_KEY e) = false → truthy (NVIDIA_API e) = true →
   OPENAI_API_KEY e' = NVIDIA_API e) ∧
  (truthy (OPENAI_API_KEY e) || truthy (NVIDIA_API e) = true →
   ∃ request, getEnhancedPromptFromNvidia e' userPrompt = Remote request) ∧
  (truthy (OPENAI_API_KEY e) || truthy (NVIDIA_API e) = false →
   getEnhancedPromptFromNvidia e' userPrompt
   = Rejected (new_Error missing_key_message)).
Proof.
  simpl. unfold startup, getEnhancedPromptFromNvidia.
  destruct (truthy (OPENAI_API_KEY e)) eqn:Ho,
    (truthy (NVIDIA_API e)) eqn:Hn; simpl; rewrite ?Ho, ?Hn; simpl;
    split_and!; try done; intros; eauto.
Qed.

Lemma credential_fallback_witness :
  truthy (OPENAI_API_KEY nvidia_only) = false ∧
  truthy (NVIDIA_API nvidia_only) = true ∧
  OPENAI_API_KEY (env (init_world nvidia_only)) = Some (js "nvapi-key").
Proof.
  split_and!; [reflexivity|reflexivity|].
  exact (proj1 (proj2 (credential_fallback nvidia_only [])) eq_refl eq_refl).
Defined.

(** ** The quick fix for hardcoded secrets, continued *)

Lemma secret_fix_name document range diag line :
  lineAt document (startLine range) = Some line →
  ∃ name,
    name = match str_match line secretKindRegex with
           | Some sm => env_name (matched sm)
           | None => js "SECRET"
           end ∧
    secret_fix document range diag
    = Some {| title := js "Replace literal with process.env reference";
              diagnostics := [diag];
              edit :=
                match str_match line quotedRegex with
                | Some quoteMatch =>
                    let quoteStart :=
                      Z.to_nat (indexOf line (matched quoteMatch)) in
                    {| edit_range :=
                         new_Range (startLine range) quoteStart
                           (startLine range)
                           (quoteStart + length (matched quoteMatch));
                       newText := js "process.env." ++ name |}
                | None =>
                    {| edit_range :=
                         new_Range (startLine range) 0 (startLine range)
                           (length line);
                       newText :=
                         replace line assignedLiteralRegex
                           (js "= process.env." ++ name) |}
                end;
              command := js "SafePrompt.runScan";
              command_title := js "Rescan (SafePrompt)" |}.
Proof.
  intros Hl. eexists. split; [reflexivity|].
  destruct (str_match line secretKindRegex) as [sm|] eqn:Hsm.
  - by apply secret_fix_eq.
  - unfold secret_fix. rewrite Hl. cbn [mbind option_bind]. by rewrite Hsm.
Qed.

Lemma env_name_chars tok : Forall (λ c, is_env_char c = true) (env_name tok).
Proof.
  unfold env_name. apply Forall_fmap, Forall_forall. intros c _. simpl.
  by destruct (is_env_char c) eqn:E.
Qed.

Lemma secret_token_nonempty tok : secret_token tok → tok ≠ [].
Proof.
  intros (name&Hname&Hci) ->. apply ci_eq_length in Hci.
  rewrite !elem_of_cons, elem_of_nil in Hname.
  by destruct Hname as [->|[->|[->|[->|[->|[]]]]]].
Qed.

Lemma fix_name_valid line :
  let name := match str_match line secretKindRegex with
              | Some sm => env_name (matched sm)
              | None => js "SECRET"
              end in
  name ≠ [] ∧ Forall (λ c, is_env_char c = true) name.
Proof.
  destruct (str_match line secretKindRegex) as [sm|] eqn:Hsm; simpl.
  - split; [|apply env_name_chars].
    destruct (recognised_Some _ _ recognises_secretKindRegex _ _ Hsm)
      as (pre&post&(_&Htok%secret_token_nonempty&_)&_).
    unfold env_name, toUpperCase. by destruct (matched sm).
  - split; [done|]. repeat constructor.
Qed.

Lemma is_env_char_not_quote c : is_env_char c = true → ¬ is_quote c.
Proof. by intros H [->|[->| ->]]. Qed.

Lemma same_quoted_leftmost pre q lit post :
  Forall (λ c, ¬ is_quote c) pre → is_quote q → lit ≠ [] →
  Forall (λ c, ¬ is_quote c) lit →
  leftmost same_quoted (pre ++ (q :: lit ++ [q]) ++ post) pre
    (q :: lit ++ [q]) post.
Proof.
  intros Hpre Hq Hne Hlit. split_and!; [done|by exists q, lit|].
  intros pre' w' post' Hs (q'&lit'&->&Hq'&_).
  destruct (decide (length pre ≤ length pre')) as [|Hlt]; [done|]. exfalso.
  assert (pre !! length pre' = Some q') as Hin.
  { rewrite <-(lookup_app_l pre ((q :: lit ++ [q]) ++ post)) by lia.
    rewrite Hs. rewrite lookup_app_r by lia. by rewrite Nat.sub_diag. }
  apply list_elem_of_lookup_2 in Hin.
  by apply (proj1 (Forall_forall _ _) Hpre) in Hin.
Qed.

Lemma secret_fix_quoted document range diag line pre w post :
  lineAt document (startLine range) = Some line →
  leftmost same_quoted line pre w post →
  ∃ action name,
    secret_fix document range diag = Some action ∧
    name ≠ [] ∧ Forall (λ c, is_env_char c = true) name ∧
    (¬ occurs_in secret_token line → name = js "SECRET") ∧
    edit action
    = {| edit_range :=
           line_range (startLine range) (length pre) (length pre + length w);
         newText := js "process.env." ++ name |} ∧
    apply_edit line (edit action) = pre ++ js "process.env." ++ name ++ post.
Proof.
  intros Hl Hlm. destruct (secret_fix_name _ _ diag _ Hl) as (name&Hname&->).
  destruct (fix_name_valid line) as [Hne Hchars]. rewrite <-Hname in Hne, Hchars.
  destruct (recognised_is_Some _ _ recognises_quotedRegex line) as [qm Hqm].
  { destruct Hlm as (?&?&_). by exists pre, w, post. }
  rewrite Hqm.
  destruct (recognised_Some _ _ recognises_quotedRegex _ _ Hqm)
    as (pre0&post0&Hlm0&Hlen0).
  destruct (leftmost_pre _ _ _ _ _ _ _ _ Hlm Hlm0) as [-> Hw].
  assert (w = matched qm) as ->.
  { eapply same_quoted_prefix_unique; [apply Hlm|apply Hlm0|exact Hw]. }
  apply app_inv_head in Hw as ->.
  eexists _, name. split_and!; [reflexivity|done|done| |..].
  - intros Hno. rewrite Hname.
    destruct (str_match line secretKindRegex) as [sm|] eqn:Hsm; [|done].
    destruct Hno.
    destruct (recognised_Some _ _ recognises_secretKindRegex _ _ Hsm)
      as (tpre&tpost&(?&?&_)&_). by exists tpre, (matched sm), tpost.
  - cbn [edit]. rewrite (recognised_indexOf _ _ recognises_quotedRegex _ _ Hqm).
    by rewrite Nat2Z.id, <-Hlen0, new_Range_ordered by lia.
  - cbn [edit]. rewrite (recognised_indexOf _ _ recognises_quotedRegex _ _ Hqm).
    rewrite Nat2Z.id, <-Hlen0, new_Range_ordered by lia.
    unfold apply_edit. cbn [edit_range newText startCol endCol line_range].
    destruct Hlm0 as (Hline&_). rewrite Hline at 1 2.
    rewrite take_app_length, (assoc_L (++) pre0 (matched qm)).
    by rewrite <-length_app, drop_app_length, <-!(assoc_L (++)).
Qed.



(** X17.  The fix removes the warning: on a line with one literal in
    quotes and no other quote character, the edited line has no quote
    character left, and a scan of a document with the edited line gives no
    hardcoded-secret warning for it. *)
Theorem fix_clears_warning document range diag pre q lit post :
  lineAt document (startLine range) = Some (pre ++ (q :: lit ++ [q]) ++ post) →
  is_quote q → lit ≠ [] →
  Forall (λ c, ¬ is_quote c) (pre ++ lit ++ post) →
  ∃ action,
    secret_fix document range diag = Some action ∧
    let line' := apply_edit (pre ++ (q :: lit ++ [q]) ++ post) (edit action) in
    Forall (λ c, ¬ is_quote c) line' ∧
    ∀ document' i, doc_lines document' !! i = Some line' →
      filter (λ d, code d = hardcoded_secret ∧ on_line i d)
        (findIssuesWithRegex document') = [].
Proof.
  intros Hl Hq Hne [Hpre [Hlit Hpost]%Forall_app]%Forall_app.
  assert (leftmost same_quoted (pre ++ (q :: lit ++ [q]) ++ post) pre
            (q :: lit ++ [q]) post) as Hlm
    by (by apply same_quoted_leftmost).
  destruct (secret_fix_quoted document range diag _ _ _ _ Hl Hlm)
    as (action&name&Hf&_&Hchars&_&_&Ha).
  exists action. split; [done|]. cbv zeta. rewrite Ha.
  assert (Forall (λ c, ¬ is_quote c) (pre ++ js "process.env." ++ name ++ post))
    as Hnq.
  { repeat (apply Forall_app; split); try done.
    - repeat constructor; by intros [?|[?|?]].
    - eapply Forall_impl; [exact Hchars|]. apply is_env_char_not_quote. }
  split; [done|]. intros document' i Hi. rewrite (secret_on_line _ _ _ Hi).
  apply secret_rule_none. by right; left.
Qed.

Lemma fix_clears_warning_witness :
  let pre := js "const apiKey = " in
  let lit := js "sk-12345" in
  lineAt api_key_doc 0 = Some (pre ++ (dquote :: lit ++ [dquote]) ++ []) ∧
  ∃ action,
    secret_fix api_key_doc (line_range 0 6 25)
      {| range := line_range 0 6 25; message := secret_message;
         severity := Warning; code := hardcoded_secret |} = Some action ∧
    let line' :=
      apply_edit (pre ++ (dquote :: lit ++ [dquote]) ++ []) (edit action) in
    Forall (λ c, ¬ is_quote c) line' ∧
    ∀ document' i, doc_lines document' !! i = Some line' →
      filter (λ d, code d = hardcoded_secret ∧ on_line i d)
        (findIssuesWithRegex document') = [].
Proof.
  intros pre lit.
  assert (lineAt api_key_doc 0
          = Some (pre ++ (dquote :: lit ++ [dquote]) ++ [])) as Hl
    by (vm_compute; reflexivity).
  split; [exact Hl|].
  apply (fix_clears_warning api_key_doc (line_range 0 6 25) _ pre dquote lit []
           Hl).
  - right. by left.
  - done.
  - repeat constructor; by intros [?|[?|?]].
Defined.

(** X18.  The provider gives one fix for every hardcoded-secret
    diagnostic of the context, in their order, each attached to its
    diagnostic and all with the same edit, and none for diagnostics of
    other kinds.  When the document has no line at the start of the range,
    the provider fails if the context holds a hardcoded-secret diagnostic,
    and gives no fix otherwise. *)
Theorem secret_fixes_offered document range ds :
  (is_Some (lineAt document (startLine range)) →
   ∃ actions,
     provideCodeActions document range ds = Some actions ∧
     diagnostics <$> actions
     = (λ d, [d]) <$> filter (λ d, code d = hardcoded_secret) ds ∧
     ∀ a b, a ∈ actions → b ∈ actions → edit a = edit b) ∧
  (lineAt document (startLine range) = None →
   provideCodeActions document range ds
   = if decide (Exists (λ d, code d = hardcoded_secret) ds)
     then None else Some []).
Proof.
  split.
  - intros [line Hl].
    assert (∃ e, ∀ diag, ∃ a, secret_fix document range diag = Some a ∧
              diagnostics a = [diag] ∧ edit a = e) as (e&He).
    { eexists. intros diag.
      destruct (secret_fix_name _ _ diag _ Hl) as (name&->&->).
      eexists. split_and!; [reflexivity..|]. cbn [edit]. reflexivity. }
    assert (∃ actions,
              provideCodeActions document range ds = Some actions ∧
              diagnostics <$> actions
              = (λ d, [d]) <$> filter (λ d, code d = hardcoded_secret) ds ∧
              Forall (λ a, edit a = e) actions) as (actions&Hp&Hd&Hall).
    { induction ds as [|d ds (actions&IH&Hd&Hall)]; simpl.
      { exists []. by split_and!. }
      rewrite filter_cons. case_decide as Hc; [|by exists actions].
      destruct (He d) as (a&->&Hda&Hea). cbn [mbind option_bind]. rewrite IH.
      cbn [mbind option_bind]. exists (a :: actions).
      split_and!; [done|by rewrite !fmap_cons, Hda, Hd|by constructor]. }
    exists actions. split_and!; [done..|].
    intros x y Hx Hy.
    by rewrite (proj1 (Forall_forall _ _) Hall _ Hx),
      (proj1 (Forall_forall _ _) Hall _ Hy).
  - intros Hl. induction ds as [|d ds IH].
    { by destruct (decide (Exists _ [])) as [?%Exists_nil|]. }
    cbn [provideCodeActions].
    destruct (decide (code d = hardcoded_secret)) as [Hc|Hc].
    + unfold secret_fix. rewrite Hl. cbn [mbind option_bind].
      by rewrite decide_True by (by left).
    + rewrite IH. destruct (decide (Exists _ ds)) as [Hex|Hex].
      * by rewrite decide_True by (by right).
      * rewrite decide_False; [done|]. by intros [?|?]%Exists_cons.
Qed.

Lemma secret_fixes_offered_witness :
  let d := {| range := line_range 5 0 4; message := secret_message;
              severity := Warning; code := hardcoded_secret |} in
  lineAt api_key_doc (startLine (line_range 5 0 4)) = None ∧
  provideCodeActions api_key_doc (line_range 5 0 4) [d] = None.
Proof.
  intros d.
  assert (lineAt api_key_doc (startLine (line_range 5 0 4)) = None) as Hl
    by (vm_compute; reflexivity).
  split; [exact Hl|].
  exact (proj2 (secret_fixes_offered api_key_doc (line_range 5 0 4) [d]) Hl).
Defined.

(** ** The quick fix for enhanced prompts *)

Lemma advance_0 st : advance 0 st = st.
Proof. destruct st. unfold advance. simpl. by rewrite Nat.add_0_r. Qed.

Lemma advance_advance n st : advance n (advance 1 st) = advance (S n) st.
Proof.
  destruct st as [p r c]. unfold advance. cbn [pos rest caps].
  rewrite drop_drop. f_equal. lia.
Qed.

Lemma ms_Lit tag : ∀ st,
  ms false (Lit tag) st
  = if starts_with tag (rest st) then [advance (length tag) st] else [].
Proof.
  induction tag as [|a tag IH]; intros st; [by cbn; rewrite advance_0|].
  cbn [Lit ms]. unfold step_if, starts_with. cbn [ci_prefix canonicalize].
  destruct (rest st) as [|c r] eqn:Er; [done|].
  rewrite (N.eqb_sym a c). destruct (c =? a)%N; [|done]. simpl.
  rewrite IH, app_nil_r. unfold starts_with. simpl. rewrite Er. simpl.
  rewrite drop_0. destruct (ci_prefix false tag r); [|done].
  by rewrite advance_advance.
Qed.

Lemma trim_start_length s : length (trim_start s) ≤ length s.
Proof.
  induction s as [|c s IH]; [done|]. simpl. destruct (is_space c); simpl; lia.
Qed.

Lemma ms_Space st :
  ms false Space st
  = match rest st with
    | c :: _ => if is_space c then [advance 1 st] else []
    | [] => []
    end.
Proof.
  unfold Space. cbn [ms]. unfold step_if. destruct (rest st); [done|].
  by rewrite class_has_space.
Qed.

Lemma star_space_head fuel : ∀ st,
  length (rest st) ≤ fuel →
  head (star_loop (ms false Space) fuel st)
  = Some (MS (pos st + (length (rest st) - length (trim_start (rest st))))
             (trim_start (rest st)) (caps st)).
Proof.
  assert (∀ st, rest st = [] →
            Some st = Some (MS (pos st + (0 - 0)) [] (caps st))) as Hnil.
  { intros [p r c] ?. simpl in *. subst. by rewrite Nat.add_0_r. }
  induction fuel as [|fuel IH]; intros st Hf.
  { destruct (rest st) as [|a r] eqn:Er; [|simpl in Hf; lia]. by apply Hnil. }
  cbn [star_loop]. rewrite ms_Space.
  destruct (rest st) as [|a r] eqn:Er; [by apply Hnil|].
  cbn [trim_start]. destruct (is_space a) eqn:Ha.
  - cbn [mbind list_bind]. rewrite app_nil_r.
    assert (rest (advance 1 st) = r) as Hr.
    { unfold advance. cbn [rest]. rewrite Er. simpl. apply drop_0. }
    rewrite Hr, decide_True by (simpl; lia).
    specialize (IH (advance 1 st)). rewrite Hr in IH.
    specialize (IH ltac:(simpl in Hf; lia)).
    destruct (star_loop _ fuel _) as [|x l]; [done|]. simpl in *.
    rewrite IH. do 2 f_equal. pose proof (trim_start_length r). lia.
  - cbn. destruct st as [p r' c]. simpl in *. subst r'.
    by rewrite Nat.sub_diag, Nat.add_0_r.
Qed.

Lemma match_at_tag tag s :
  match_at (tagRegex tag) 0 s
  = if starts_with tag s
    then Some (MR 0 (take (length s - length (trim_start (drop (length tag) s))) s)
                 (no_caps (source (tagRegex tag))))
    else None.
Proof.
  unfold match_at, tagRegex. cbn [source ignoreCase ms].
  rewrite decide_True by done. cbn [mbind list_bind]. rewrite app_nil_r.
  rewrite ms_Lit. cbn [rest].
  destruct (starts_with tag s) eqn:Hs; [|done].
  apply starts_with_iff in Hs as (post&->).
  cbn [mbind list_bind]. rewrite app_nil_r.
  pose proof (star_space_head (length (rest (advance (length tag)
                (MS 0 (tag ++ post) (no_caps (Bol · Lit tag · Star Space))))))
                (advance (length tag) (MS 0 (tag ++ post)
                   (no_caps (Bol · Lit tag · Star Space)))) (le_n _)) as H.
  destruct (star_loop _ _ _) as [|st l]; [done|]. simpl in H.
  injection H as ->. cbn [pos caps]. do 2 f_equal.
  rewrite drop_app_length, length_app. pose proof (trim_start_length post). f_equal. lia.
Qed.

Lemma match_at_tag_later tag p s : match_at (tagRegex tag) (S p) s = None.
Proof. done. Qed.

Lemma exec_from_tag_later tag s : ∀ p, exec_from (tagRegex tag) (S p) s = None.
Proof.
  induction s as [|c s IH]; intros p; cbn [exec_from];
    rewrite match_at_tag_later; [done|apply IH].
Qed.

Lemma str_match_tag tag s :
  str_match s (tagRegex tag) = match_at (tagRegex tag) 0 s.
Proof.
  unfold str_match. destruct s as [|c s]; cbn [exec_from];
    destruct (match_at (tagRegex tag) 0 _); try done.
  apply exec_from_tag_later.
Qed.

Lemma replace_tag tag s :
  replace s (tagRegex tag) []
  = if starts_with tag s then trim_start (drop (length tag) s) else s.
Proof.
  unfold replace. rewrite str_match_tag, match_at_tag.
  destruct (starts_with tag s) eqn:Hs; [|done].
  apply starts_with_iff in Hs as (post&->). cbn [index matched take app].
  rewrite drop_app_length.
  destruct (trim_start_split post) as (ws&Hp&_).
  rewrite take_0, app_nil_l, Nat.add_0_l.
  rewrite length_take_le by lia.
  replace (length (tag ++ post) - length (trim_start post))
    with (length (tag ++ ws))
    by (rewrite Hp at 1; rewrite !length_app; lia).
  rewrite Hp at 1.
  by rewrite (assoc_L (++)), drop_app_length.
Qed.

Lemma resume_trimmed content enhanced :
  getEnhancedPromptFromNvidia_resume (Completed content) = inr enhanced →
  trim enhanced = enhanced.
Proof.
  unfold getEnhancedPromptFromNvidia_resume.
  destruct (_ && _); [|done]. intros [= <-]. apply trim_idemp.
Qed.

(** X19.  The text of an enhancement makes the round trip through its
    diagnostic: for the diagnostic stored for a text the client returned,
    the provider offers one action that inserts, at the start of the line
    after the range, [# ENHANCED_PROMPT: ], the text and a line feed; a
    leading [[Enhanced]] tag of the text is dropped.  Diagnostics of other
    kinds, the Loading and the failure diagnostic among them, get no
    action. *)
Theorem insert_enhanced_prompt document range i line content enhanced ds :
  getEnhancedPromptFromNvidia_resume (Completed content) = inr enhanced →
  EnhancedPromptCodeActionProvider.provideCodeActions document range
    [enhanced_diagnostic i line enhanced]
  = [{| insert_title := js "Insert enhanced prompt below";
        insert_at := (endLine range + 1, 0);
        insert_text :=
          js "# ENHANCED_PROMPT: "
            ++ (if starts_with (js "[Enhanced]") enhanced
                then trim_start (drop 10 enhanced) else enhanced)
            ++ [10%N] |}] ∧
  (Forall (λ d, code d ≠ enhanced_prompt) ds →
   EnhancedPromptCodeActionProvider.provideCodeActions document range ds = []).
Proof.
  intros Hr%resume_trimmed. split.
  - cbn [EnhancedPromptCodeActionProvider.provideCodeActions].
    rewrite decide_True by done.
    unfold EnhancedPromptCodeActionProvider.enhanced_fix. cbv zeta.
    do 3 f_equal. cbn [message enhanced_diagnostic].
    change nvidiaTagRegex with (tagRegex (js "[NVIDIA]")).
    change enhancedTagRegex with (tagRegex (js "[Enhanced]")).
    assert (trim_start enhanced = enhanced) as Hts.
    { apply trim_start_fix. intros c Hc. apply (trim_ends enhanced).
      rewrite Hr. by left. }
    assert (replace (js "[NVIDIA] " ++ enhanced) (tagRegex (js "[NVIDIA]")) []
            = enhanced) as ->.
    { rewrite replace_tag.
      replace (starts_with (js "[NVIDIA]") (js "[NVIDIA] " ++ enhanced))
        with true
        by (symmetry; apply starts_with_iff; by exists (32%N :: enhanced)).
      exact Hts. }
    by rewrite replace_tag.
  - induction 1 as [|d ds' Hd _ IH]; [done|].
    cbn [EnhancedPromptCodeActionProvider.provideCodeActions].
    by rewrite decide_False.
Qed.

Lemma insert_enhanced_prompt_witness :
  let text := js "Create a login page with CSRF protection." in
  getEnhancedPromptFromNvidia_resume
    (Completed (Some (js "  Create a login page with CSRF protection. ")))
  = inr text ∧
  EnhancedPromptCodeActionProvider.provideCodeActions prompt_doc
    (line_range 1 0 31)
    [enhanced_diagnostic 1 (js "// PROMPT: Create login website") text]
  = [{| insert_title := js "Insert enhanced prompt below";
        insert_at := (2, 0);
        insert_text := js "# ENHANCED_PROMPT: " ++ text ++ [10%N] |}].
Proof.
  intros text.
  assert (getEnhancedPromptFromNvidia_resume
            (Completed (Some (js "  Create a login page with CSRF protection. ")))
          = inr text) as Hr by (vm_compute; reflexivity).
  split; [exact Hr|].
  exact (proj1 (insert_enhanced_prompt prompt_doc (line_range 1 0 31) 1
                  (js "// PROMPT: Create login website") _ text [] Hr)).
Defined.

Lemma docTimerKey_not_inFlightKey i : docTimerKey ≠ inFlightKey i.
Proof. unfold docTimerKey, inFlightKey. cbn. discriminate. Qed.

Lemma entry_same w w' docKey key :
  pendingTimers w' = pendingTimers w → entry w' docKey key = entry w docKey key.
Proof. unfold entry. by intros ->. Qed.

Lemma entry_timer_requested document w docKey :
  entry (requested document w) docKey docTimerKey = entry w docKey docTimerKey.
Proof.
  unfold requested. generalize (extractPrompts document). intros l.
  revert w. induction l as [|q l IH]; intros w; [done|].
  simpl. rewrite IH, entry_trigger. rewrite decide_False; [done|].
  intros [_ H]. by apply docTimerKey_not_inFlightKey in H.
Qed.

Lemma entry_timer_scan document w docKey :
  entry (runSecurityScanAndEnhanced document w) docKey docTimerKey
  = entry w docKey docTimerKey.
Proof.
  unfold runSecurityScanAndEnhanced.
  destruct (detect_requested document w) as (Hp&_).
  rewrite <-(entry_timer_requested document w).
  by apply entry_same.
Qed.

Lemma entry_timer_step w e docKey :
  entry (step w e) docKey docTimerKey = entry w docKey docTimerKey.
Proof.
  destruct e as [document|k document outcome]; simpl.
  - apply entry_timer_scan.
  - destruct (tasks w !! k) as [[docKey' i wait|docKey' ds]|]; [| |done].
    + case_decide; [|done]. rewrite entry_settle. rewrite decide_False; [done|].
      intros [_ Hkey]. by apply docTimerKey_not_inFlightKey in Hkey.
    + done.
Qed.

Lemma schedule_spec document delayMs h :
  let h' := scheduleDetectAndEnhancePrompts document delayMs h in
  let old := entry (world h) (uri document) docTimerKey in
  clock h' = clock h ∧ next_timer h' = S (next_timer h) ∧
  timeouts h'
  = <[next_timer h := {| timer_doc := uri document;
                         due := clock h + delayMs |}]>
      (match old with
       | Some (DocTimer t) => delete t (timeouts h)
       | _ => timeouts h
       end) ∧
  (∀ docKey key,
     entry (world h') docKey key
     = if decide (docKey = uri document ∧ key = docTimerKey)
       then Some (DocTimer (next_timer h)) else entry (world h) docKey key) ∧
  tasks (world h') = tasks (world h) ∧
  enhancedDiagnosticsStore (world h') = enhancedDiagnosticsStore (world h) ∧
  diagnosticCollection (world h') = diagnosticCollection (world h) ∧
  clientCalls (world h') = clientCalls (world h) ∧
  remoteCalls (world h') = remoteCalls (world h) ∧
  env (world h') = env (world h).
Proof.
  unfold scheduleDetectAndEnhancePrompts, entry. cbv zeta.
  destruct (pendingTimers (world h) !! uri document) as [m|] eqn:Em; simpl.
  - rewrite Em. simpl.
    split_and!; try (by destruct (m !! docTimerKey) as [[]|]).
    intros docKey key. destruct (m !! docTimerKey) as [[]|]; simpl;
      (destruct (decide (docKey = uri document)) as [->|Hk];
       [rewrite lookup_insert_eq; simpl;
        destruct (decide (key = docTimerKey)) as [->|Hkey];
        [by rewrite lookup_insert_eq, decide_True
        |rewrite lookup_insert_ne by done; rewrite Em; simpl;
         rewrite decide_False; [done|tauto]]
       |rewrite lookup_insert_ne by done; rewrite decide_False; [done|tauto]]).
  - rewrite lookup_insert_eq. simpl. rewrite lookup_empty.
    split_and!; try done.
    intros docKey key. simpl.
    destruct (decide (docKey = uri document)) as [->|Hk].
    + rewrite lookup_insert_eq, Em. simpl.
      destruct (decide (key = docTimerKey)) as [->|Hkey].
      * by rewrite lookup_insert_eq, decide_True.
      * rewrite lookup_insert_ne by done. rewrite lookup_empty.
        rewrite decide_False; [done|tauto].
    + rewrite !lookup_insert_ne by done. rewrite decide_False; [done|tauto].
Qed.

Lemma entry_timer_callback document w docKey :
  entry (timer_callback document w) docKey docTimerKey
  = if decide (docKey = uri document) then None
    else entry w docKey docTimerKey.
Proof.
  unfold timer_callback. rewrite entry_timer_scan. unfold entry. simpl.
  case_decide as Hk.
  - subst. rewrite lookup_alter_eq.
    destruct (pendingTimers w !! uri document); [|done]. simpl.
    apply lookup_delete_eq.
  - by rewrite lookup_alter_ne.
Qed.

Lemma debounce_inv_changed document h s :
  debounce_inv h s →
  debounce_inv (host_step h (Changed document)) (track s (Changed document)).
Proof.
  intros ((Hi1&Hi2&Hi3)&Hclock&Hdue). cbn [host_step track].
  destruct (schedule_spec document 800 h) as (Hc&Hn&Ht&He&_). cbv zeta in *.
  set (h' := scheduleDetectAndEnhancePrompts document 800 h) in *.
  set (old := entry (world h) (uri document) docTimerKey) in *.
  set (T := match old with
            | Some (DocTimer t) => delete t (timeouts h)
            | _ => timeouts h
            end) in *.
  assert (∀ tt tm, T !! tt = Some tm →
            timeouts h !! tt = Some tm ∧ timer_doc tm ≠ uri document) as HA.
  { intros tt tm Htt. unfold T in Htt.
    assert (timeouts h !! tt = Some tm ∧ old ≠ Some (DocTimer tt)) as [H1 H2].
    { destruct old as [[t|]|] eqn:Eo.
      - apply lookup_delete_Some in Htt as [Hne ?]. split; [done|]. congruence.
      - done.
      - done. }
    split; [done|]. intros Hk. apply H2. unfold old. rewrite <-Hk. by apply Hi1. }
  assert (∀ docKey tt tm, docKey ≠ uri document →
            timeouts h !! tt = Some tm → timer_doc tm = docKey →
            T !! tt = Some tm) as HB.
  { intros docKey tt tm Hk Htt Hd. unfold T.
    destruct old as [[t|]|] eqn:Eo; try done.
    apply lookup_delete_Some. split; [|done]. intros ->.
    destruct (Hi2 _ _ Eo) as (tm2&Htm2&Hd2). congruence. }
  split_and!.
  - split_and!.
    + intros tt tm. rewrite Ht. intros [[<- <-]|[Hne Htt]]%lookup_insert_Some.
      * rewrite He. by rewrite decide_True.
      * destruct (HA _ _ Htt) as [Htt' Hd]. rewrite He.
        rewrite decide_False by tauto. by apply Hi1.
    + intros docKey tt. rewrite He, Ht. case_decide as Hd.
      * intros [= <-]. destruct Hd as [-> _]. eexists.
        split; [apply lookup_insert_eq|done].
      * intros Hent. destruct (Hi2 _ _ Hent) as (tm&Htm&Hdoc).
        exists tm. split; [|done].
        assert (docKey ≠ uri document) as Hk by (intros ->; by destruct Hd).
        apply lookup_insert_Some. right. split; [|by eapply HB].
        apply Hi3 in Htm. lia.
    + intros tt tm. rewrite Ht, Hn.
      intros [[<- <-]|[Hne Htt]]%lookup_insert_Some; [lia|].
      destruct (HA _ _ Htt) as [Htt' _]. apply Hi3 in Htt'. lia.
  - by rewrite Hc.
  - intros tt tm. rewrite Ht. simpl.
    intros [[<- <-]|[Hne Htt]]%lookup_insert_Some.
    + simpl. rewrite decide_True by done. exists s.1. by rewrite Hclock.
    + destruct (HA _ _ Htt) as [Htt' Hd]. rewrite decide_False by done.
      by eapply Hdue.
Qed.

Lemma debounce_inv_fires t document h s :
  debounce_inv h s →
  debounce_inv (host_step h (TimerFires t document)) s.
Proof.
  intros Hinv. cbn [host_step].
  destruct (timeouts h !! t) as [tm0|] eqn:Ht0; [|done].
  case_decide as Hd; [|done]. destruct Hd as [Hdoc _].
  destruct Hinv as ((Hi1&Hi2&Hi3)&Hclock&Hdue).
  assert (∀ tt tm, delete t (timeouts h) !! tt = Some tm →
            timeouts h !! tt = Some tm ∧ timer_doc tm ≠ uri document) as HA.
  { intros tt tm [Hne Htt]%lookup_delete_Some. split; [done|]. intros Hk.
    pose proof (Hi1 _ _ Htt) as H1. pose proof (Hi1 _ _ Ht0) as H0.
    rewrite Hk in H1. rewrite Hdoc in H0. congruence. }
  split_and!.
  - split_and!; simpl.
    + intros tt tm Htt. destruct (HA _ _ Htt) as [Htt' Hk].
      rewrite entry_timer_callback, decide_False by done. by apply Hi1.
    + intros docKey tt. rewrite entry_timer_callback.
      case_decide as Hk; [done|]. intros Hent.
      destruct (Hi2 _ _ Hent) as (tm&Htm&Hdoc'). exists tm. split; [|done].
      apply lookup_delete_Some. split; [|done]. intros ->. congruence.
    + intros tt tm Htt. destruct (HA _ _ Htt) as [Htt' _]. by eapply Hi3.
  - done.
  - simpl. intros tt tm Htt. destruct (HA _ _ Htt) as [Htt' _]. by eapply Hdue.
Qed.

Lemma debounce_inv_step h s e :
  debounce_inv h s → debounce_inv (host_step h e) (track s e).
Proof.
  destruct e as [document|ms|t document|e].
  - apply debounce_inv_changed.
  - intros ((Hi1&Hi2&Hi3)&Hclock&Hdue). by split_and!; simpl; [..|rewrite Hclock|].
  - apply debounce_inv_fires.
  - intros ((Hi1&Hi2&Hi3)&Hclock&Hdue). split_and!; simpl; try done.
    + split_and!; simpl; [|..|done].
      * intros t tm Ht. rewrite entry_timer_step. by apply Hi1.
      * intros docKey t. rewrite entry_timer_step. apply Hi2.
Qed.

Lemma debounce_inv_run events : ∀ h s,
  debounce_inv h s →
  debounce_inv (host_run events h) (foldl track s events).
Proof.
  induction events as [|e events IH]; intros h s Hinv; [done|].
  by apply IH, debounce_inv_step.
Qed.

Lemma debounce_inv_init e : debounce_inv (init_host e) (0, λ _, None).
Proof.
  split_and!; [split_and!|done|]; simpl.
  - intros t tm. by rewrite lookup_empty.
  - intros docKey t. unfold entry. simpl. by rewrite lookup_empty.
  - intros t tm. by rewrite lookup_empty.
  - intros t tm. by rewrite lookup_empty.
Qed.

(** X20.  In every state the host reaches, at most one timer is set for a
    document, and it is the one recorded under [__docTimer] in the timer
    map of the document: a change cancels the timer that was set before. *)
Theorem one_timer_per_document e events t1 t2 tm1 tm2 :
  let h := host_run events (init_host e) in
  timeouts h !! t1 = Some tm1 → timeouts h !! t2 = Some tm2 →
  timer_doc tm1 = timer_doc tm2 →
  t1 = t2 ∧
  entry (world h) (timer_doc tm1) docTimerKey = Some (DocTimer t1).
Proof.
  intros h H1 H2 Hd.
  destruct (debounce_inv_run events _ _ (debounce_inv_init e))
    as ((Hi1&_)&_).
  pose proof (Hi1 _ _ H1) as E1. pose proof (Hi1 _ _ H2) as E2.
  rewrite <-Hd in E2. split; [congruence|done].
Qed.

(** X21.  Debounce: in every state the host reaches, a timer that is set
    for a document is due 800 ms after the latest change of that document,
    whatever happened in between; so no timer starts a scan of a document
    sooner than 800 ms after its latest change. *)
Theorem timer_due_after_latest_change e events t tm :
  let h := host_run events (init_host e) in
  timeouts h !! t = Some tm →
  (∃ c, latest_change events (timer_doc tm) = Some c ∧ due tm = c + 800) ∧
  ∀ document, clock h < due tm →
    host_step h (TimerFires t document) = h.
Proof.
  intros h Ht.
  destruct (debounce_inv_run events _ _ (debounce_inv_init e))
    as (_&_&Hdue).
  split; [exact (Hdue _ _ Ht)|].
  intros document Hlt. cbn [host_step]. fold h. rewrite Ht.
  rewrite decide_False; [done|]. lia.
Qed.

Lemma one_timer_per_document_witness :
  let h := host_run two_changes (init_host no_key) in
  let tm := {| timer_doc := uri prompt_doc; due := 900 |} in
  timeouts h !! 1 = Some tm ∧
  size (timeouts h) = 1 ∧
  entry (world h) (uri prompt_doc) docTimerKey = Some (DocTimer 1).
Proof.
  intros h tm.
  assert (timeouts h !! 1 = Some tm) as Ht by (vm_compute; reflexivity).
  split_and!; [exact Ht|vm_compute; reflexivity|].
  exact (proj2 (one_timer_per_document no_key two_changes 1 1 tm tm Ht Ht
                  eq_refl)).
Defined.

Lemma timer_due_after_latest_change_witness :
  let h := host_run two_changes (init_host no_key) in
  let tm := {| timer_doc := uri prompt_doc; due := 900 |} in
  timeouts h !! 1 = Some tm ∧
  latest_change two_changes (uri prompt_doc) = Some 100 ∧
  ∃ c, latest_change two_changes (timer_doc tm) = Some c ∧ due tm = c + 800.
Proof.
  intros h tm.
  assert (timeouts h !! 1 = Some tm) as Ht by (vm_compute; reflexivity).
  split_and!; [exact Ht|vm_compute; reflexivity|].
  exact (proj1 (timer_due_after_latest_change no_key two_changes 1 tm Ht)).
Defined.

(** X22.  The timer and the in-flight markers share the timer map of a
    document without touching each other: a change of a document sets its
    timer and nothing else (no marker is set or cleared, no request is
    made, nothing is stored or published), and no step of the extension
    drops or replaces the timer entry of a document. *)
Theorem timers_and_requests_apart document delayMs h w e docKey i :
  let h' := scheduleDetectAndEnhancePrompts document delayMs h in
  in_flight (world h') docKey i = in_flight (world h) docKey i ∧
  tasks (world h') = tasks (world h) ∧
  clientCalls (world h') = clientCalls (world h) ∧
  enhancedDiagnosticsStore (world h') = enhancedDiagnosticsStore (world h) ∧
  diagnosticCollection (world h') = diagnosticCollection (world h) ∧
  entry (world h') (uri document) docTimerKey
  = Some (DocTimer (next_timer h)) ∧
  entry (step w e) docKey docTimerKey = entry w docKey docTimerKey.
Proof.
  destruct (schedule_spec document delayMs h)
    as (_&_&_&He&Ht&Hs&Hc&Hcc&_). cbv zeta in *.
  split_and!; try done.
  - apply in_flight_ext. rewrite He. rewrite decide_False; [done|].
    intros [_ Hkey]. symmetry in Hkey.
    by apply docTimerKey_not_inFlightKey in Hkey.
  - rewrite He. by rewrite decide_True.
  - apply entry_timer_step.
Qed.

(** X23.  When the timer of a document fires, no timer is left for the
    document, its timer entry is gone, and the document is scanned as it
    is by then: the client is called for its prompt lines that have no
    request in flight, and the scanner's diagnostics wait to be
    published. *)
Theorem timer_starts_scan e events t tm document :
  let h := host_run events (init_host e) in
  timeouts h !! t = Some tm → timer_doc tm = uri document →
  due tm ≤ clock h →
  let h' := host_step h (TimerFires t document) in
  (∀ t' tm', timeouts h' !! t' = Some tm' → timer_doc tm' ≠ uri document) ∧
  entry (world h') (uri document) docTimerKey = None ∧
  clientCalls (world h')
  = clientCalls (world h)
    ++ (snd <$> filter (λ q, in_flight (world h) (uri document) q.1 = false)
                  (extractPrompts document)) ∧
  last (tasks (world h'))
  = Some (PublishTask (uri document) (findIssuesWithRegex document)).
Proof.
  intros h Ht Hdoc Hdue h'.
  destruct (debounce_inv_run events _ _ (debounce_inv_init e))
    as ((Hi1&_)&_). fold h in Hi1.
  assert (h' = set_world (timer_callback document (world h))
                 (clearTimeout t h)) as ->.
  { unfold h'. cbn [host_step]. rewrite Ht. by rewrite decide_True. }
  split_and!.
  - simpl. intros t' tm' [Hne Ht']%lookup_delete_Some Hk.
    pose proof (Hi1 _ _ Ht) as E. pose proof (Hi1 _ _ Ht') as E'.
    rewrite Hdoc in E. rewrite Hk in E'. congruence.
  - simpl. rewrite entry_timer_callback. by rewrite decide_True.
  - simpl. unfold timer_callback, runSecurityScanAndEnhanced. simpl.
    destruct (detect_requested document
                (set_pendingTimers
                   (alter (delete docTimerKey) (uri document)
                      (pendingTimers (world h))) (world h)))
      as (_&_&->&_).
    unfold requested. rewrite clientCalls_requests
      by apply StronglySorted_lt_NoDup, extractPrompts_sorted.
    simpl. f_equal. f_equal. apply filter_ext_in. intros q _.
    assert (in_flight
              (set_pendingTimers
                 (alter (delete docTimerKey) (uri document)
                    (pendingTimers (world h))) (world h))
              (uri document) q.1
            = in_flight (world h) (uri document) q.1) as ->; [|done].
    apply in_flight_ext. unfold entry. simpl. rewrite lookup_alter_eq.
    destruct (pendingTimers (world h) !! uri document); [|done]. simpl.
    apply lookup_delete_ne. apply docTimerKey_not_inFlightKey.
  - simpl. unfold timer_callback, runSecurityScanAndEnhanced. simpl.
    apply last_snoc.
Qed.

Lemma timer_starts_scan_witness :
  let events := [Changed prompt_doc; Elapse 800] in
  let h := host_run events (init_host no_key) in
  let tm := {| timer_doc := uri prompt_doc; due := 800 |} in
  timeouts h !! 0 = Some tm ∧ due tm ≤ clock h ∧
  clientCalls (world (host_step h (TimerFires 0 prompt_doc)))
  = [js "Create login website"] ∧
  entry (world (host_step h (TimerFires 0 prompt_doc))) (uri prompt_doc)
    docTimerKey = None.
Proof.
  intros events h tm.
  assert (timeouts h !! 0 = Some tm) as Ht by (vm_compute; reflexivity).
  assert (due tm ≤ clock h) as Hd by (vm_compute; lia).
  split_and!; [exact Ht|exact Hd|vm_compute; reflexivity|].
  exact (proj1 (proj2 (timer_starts_scan no_key events 0 tm prompt_doc Ht
                         eq_refl Hd))).
Defined.

(** ** Edges of the rules *)

(** X24.  A result that arrives for a line the document no longer has is
    lost, whether it is a text or a failure: the error of [lineAt] leaves
    the body of the request, nothing is stored or published (a Loading
    diagnostic of the line stays where it is), and only the in-flight
    marker is cleared. *)
Theorem result_for_deleted_line document i result w :
  lineAt document i = None →
  (settle document i result w).2 = Some illegal_line ∧
  enhancedDiagnosticsStore (settle document i result w).1
  = enhancedDiagnosticsStore w ∧
  diagnosticCollection (settle document i result w).1
  = diagnosticCollection w ∧
  tasks (settle document i result w).1 = tasks w ∧
  in_flight (settle document i result w).1 (uri document) i = false.
Proof.
  intros Hl. split_and!.
  - unfold settle. cbv zeta. rewrite Hl. by destruct result.
  - by apply settle_stored_gone.
  - by apply settle_collection_gone.
  - apply settle_tasks.
  - apply in_flight_settle.
Qed.

Lemma result_for_deleted_line_witness :
  lineAt shrunk_doc 1 = None ∧
  (settle shrunk_doc 1 (inr (js "Create a secure login page."))
     (run [Scan prompt_doc] (init_world with_key))).2
  = Some illegal_line.
Proof.
  assert (lineAt shrunk_doc 1 = None) as Hl by (vm_compute; reflexivity).
  split; [exact Hl|].
  exact (proj1 (result_for_deleted_line shrunk_doc 1 _ _ Hl)).
Defined.

(** X25.  The missing-authorization rule is local: whether line [i] gets
    the warning, and which, depends on nothing but the eight lines from
    line [i] on.  Text before the definition or after its window never
    changes the outcome. *)
Theorem missing_auth_is_local document document' i j :
  i < length (doc_lines document) → j < length (doc_lines document') →
  auth_window (doc_lines document) i = auth_window (doc_lines document') j →
  (λ d, (message d, severity d, code d, startCol (range d), endCol (range d)))
    <$> filter (λ d, code d = missing_auth ∧ on_line i d)
          (findIssuesWithRegex document)
  = (λ d, (message d, severity d, code d, startCol (range d),
           endCol (range d)))
      <$> filter (λ d, code d = missing_auth ∧ on_line j d)
            (findIssuesWithRegex document').
Proof.
  intros Hi Hj Hw.
  destruct (lookup_lt_is_Some_2 _ _ Hi) as [line Hl].
  destruct (lookup_lt_is_Some_2 _ _ Hj) as [line' Hl'].
  assert (line = line') as <-.
  { assert (head (auth_window (doc_lines document) i) = Some line) as H1.
    { unfold auth_window. rewrite head_lookup, lookup_take_lt by lia.
      by rewrite lookup_drop, Nat.add_0_r. }
    assert (head (auth_window (doc_lines document') j) = Some line') as H2.
    { unfold auth_window. rewrite head_lookup, lookup_take_lt by lia.
      by rewrite lookup_drop, Nat.add_0_r. }
    rewrite Hw in H1. congruence. }
  rewrite (auth_on_line _ _ _ Hl), (auth_on_line _ _ _ Hl').
  unfold auth_rule. destruct (str_match line funcRegex) as [m|]; [|done].
  cbv zeta. destruct (test sensitiveNameRegex _); [|done].
  rewrite !has_auth_window, Hw by done.
  destruct (existsb _ _); [done|]. simpl.
  by rewrite !new_Range_ordered by lia.
Qed.

Lemma missing_auth_is_local_witness :
  0 < length (doc_lines padded_doc) ∧ 1 < length (doc_lines shifted_doc) ∧
  auth_window (doc_lines padded_doc) 0 = auth_window (doc_lines shifted_doc) 1 ∧
  (λ d, (message d, severity d, code d, startCol (range d), endCol (range d)))
    <$> filter (λ d, code d = missing_auth ∧ on_line 0 d)
          (findIssuesWithRegex padded_doc)
  = (λ d, (message d, severity d, code d, startCol (range d),
           endCol (range d)))
      <$> filter (λ d, code d = missing_auth ∧ on_line 1 d)
            (findIssuesWithRegex shifted_doc).
Proof.
  assert (0 < length (doc_lines padded_doc)) as H0 by (vm_compute; lia).
  assert (1 < length (doc_lines shifted_doc)) as H1 by (vm_compute; lia).
  assert (auth_window (doc_lines padded_doc) 0
          = auth_window (doc_lines shifted_doc) 1) as Hw
    by (vm_compute; reflexivity).
  split_and!; [exact H0|exact H1|exact Hw|].
  exact (missing_auth_is_local padded_doc shifted_doc 0 1 H0 H1 Hw).
Defined.

(** X26.  Where the line has neither a literal between two quotes of the
    same kind nor an equals sign followed at once by a quote and a later
    quote, the fix changes nothing: its edit replaces the whole line by
    itself. *)
Theorem fix_without_literal document range diag line :
  lineAt document (startLine range) = Some line →
  ¬ occurs_in same_quoted line → ¬ occurs_in assigned_literal line →
  ∃ action,
    secret_fix document range diag = Some action ∧
    edit action
    = {| edit_range := line_range (startLine range) 0 (length line);
         newText := line |} ∧
    apply_edit line (edit action) = line.
Proof.
  intros Hl Hq Ha. destruct (secret_fix_name _ _ diag _ Hl) as (name&_&->).
  assert (str_match line quotedRegex = None) as ->.
  { destruct (str_match line quotedRegex) as [m|] eqn:E; [|done]. destruct Hq.
    destruct (recognised_Some _ _ recognises_quotedRegex _ _ E)
      as (pre&post&(?&?&_)&_). by exists pre, (matched m), post. }
  assert (str_match line assignedLiteralRegex = None) as Hnone.
  { destruct (str_match line assignedLiteralRegex) as [m|] eqn:E; [|done].
    destruct Ha.
    destruct (recognised_Some _ _ recognises_assignedLiteralRegex _ _ E)
      as (pre&post&(?&?&_)&_). by exists pre, (matched m), post. }
  eexists. split; [reflexivity|]. cbn [edit]. unfold replace. rewrite Hnone.
  rewrite new_Range_ordered by lia. split; [done|].
  unfold apply_edit. cbn [edit_range newText startCol endCol line_range].
  by rewrite take_0, drop_all, app_nil_r.
Qed.

Lemma fix_without_literal_witness :
  let diag := {| range := line_range 0 0 13; message := secret_message;
                 severity := Warning; code := hardcoded_secret |} in
  lineAt mixed_quotes_doc 0 = Some mixed_quotes_line ∧
  ¬ occurs_in same_quoted mixed_quotes_line ∧
  ¬ occurs_in assigned_literal mixed_quotes_line ∧
  ∃ action,
    secret_fix mixed_quotes_doc (line_range 0 0 13) diag = Some action ∧
    edit action
    = {| edit_range := line_range 0 0 (length mixed_quotes_line);
         newText := mixed_quotes_line |} ∧
    apply_edit mixed_quotes_line (edit action) = mixed_quotes_line.
Proof.
  intros diag.
  assert (lineAt mixed_quotes_doc 0 = Some mixed_quotes_line) as Hl
    by (vm_compute; reflexivity).
  assert (¬ occurs_in same_quoted mixed_quotes_line) as Hq.
  { intros H%(recognised_test _ _ recognises_quotedRegex).
    vm_compute in H. discriminate. }
  assert (¬ occurs_in assigned_literal mixed_quotes_line) as Ha.
  { intros H%(recognised_test _ _ recognises_assignedLiteralRegex).
    vm_compute in H. discriminate. }
  split_and!; [exact Hl|exact Hq|exact Ha|].
  exact (fix_without_literal mixed_quotes_doc (line_range 0 0 13) diag _ Hl Hq Ha).
Defined.

(** * Prompt extraction, on the state of the extension *)

Lemma pending_requests document l : ∀ w,
  NoDup (fst <$> l) →
  pending (foldl (λ w q, triggerEnhancementRequest document q.1 q.2 w) w l)
  = pending w
    ++ ((λ q, (uri document, q.1))
          <$> filter (λ q, in_flight w (uri document) q.1 = false) l).
Proof.
  induction l as [|q l IH]; intros w Hnd; simpl; [by rewrite app_nil_r|].
  rewrite fmap_cons in Hnd. apply NoDup_cons in Hnd as [Hq Hnd].
  rewrite IH by done. rewrite pending_trigger, <-(assoc_L (++)). f_equal.
  rewrite filter_cons.
  rewrite (filter_ext_in
             (λ q0, in_flight (triggerEnhancementRequest document q.1 q.2 w)
                      (uri document) q0.1 = false)
             (λ q0, in_flight w (uri document) q0.1 = false)).
  - destruct (in_flight w (uri document) q.1) eqn:E.
    + by rewrite decide_False by done.
    + by rewrite decide_True by done.
  - intros q0 Hq0. rewrite in_flight_trigger.
    rewrite bool_decide_eq_false_2; [by rewrite orb_false_r|].
    intros [_ E]. apply Hq. rewrite <-E. apply list_elem_of_fmap. eauto.
Qed.

(** C3, as amended.  For a document of a supported language,
    [detectAndEnhancePrompts] hands to [triggerEnhancementRequest] the
    pairs of [extractPrompts], in their order: its requests are those of
    the calls for these pairs, and where no request of the document is in
    flight, the client is called with the prompts of the pairs and the
    requests under way are for their lines.  The pairs are in the order of
    the lines; every pair comes from a prompt line (optional whitespace,
    [//] or [#], optional whitespace, [PROMPT] in any case, optional
    whitespace, a colon, then optional whitespace and one or more
    characters none of which is a line terminator), with the index of the
    line counted from 0 and the text after the colon, trimmed; a prompt
    line yields exactly one pair, and any other line yields none. *)
Theorem prompt_extraction document :
  isTargetDoc document = true →
  (∀ w,
     let w' := detectAndEnhancePrompts document w in
     pendingTimers w' = pendingTimers (requested document w) ∧
     tasks w' = tasks (requested document w) ∧
     clientCalls w' = clientCalls (requested document w)) ∧
  (∀ w, (∀ i, in_flight w (uri document) i = false) →
     clientCalls (detectAndEnhancePrompts document w)
     = clientCalls w ++ (snd <$> extractPrompts document) ∧
     pending (detectAndEnhancePrompts document w)
     = pending w ++ ((λ q, (uri document, q.1)) <$> extractPrompts document)) ∧
  StronglySorted lt (fst <$> extractPrompts document) ∧
  (∀ i p, (i, p) ∈ extractPrompts document →
     ∃ line text, doc_lines document !! i = Some line ∧
       prompt_line line text ∧ p = trim text) ∧
  ∀ i line, doc_lines document !! i = Some line →
    (∀ text, prompt_line line text →
       filter (λ q, q.1 = i) (extractPrompts document) = [(i, trim text)]) ∧
    ((∀ text, ¬ prompt_line line text) →
       filter (λ q, q.1 = i) (extractPrompts document) = []).
Proof.
  intros Ht.
  assert (NoDup (fst <$> extractPrompts document)) as Hnd
    by apply StronglySorted_lt_NoDup, extractPrompts_sorted.
  split_and!.
  - intros w. destruct (detect_requested document w) as (?&?&?&_). done.
  - intros w Hw. destruct (detect_requested document w) as (_&Htk&->&_).
    rewrite (pending_same _ _ Htk). unfold requested.
    rewrite clientCalls_requests, pending_requests by done.
    by rewrite filter_all by (intros q _; apply Hw).
  - apply extractPrompts_sorted.
  - intros i p (line&Hl&Hp)%extractPrompts_elem.
    apply userPrompt_of_Some in Hp as (text&?&?). eauto.
  - intros i line Hi. rewrite (extractPrompts_lines _ Ht).
    set (g := λ (j : nat) (x : jstr),
                from_option (λ p, [(j, p)]) [] (userPrompt_of x)).
    assert (∀ j x d, d ∈ g j x → d.1 = j) as Hg.
    { intros j x d. unfold g. destruct (userPrompt_of x); simpl.
      - by intros ->%list_elem_of_singleton.
      - by intros ?%elem_of_nil. }
    rewrite (filter_key_imap_all fst g Hg), Hi. simpl. unfold g. split.
    + intros text Hp. by rewrite (userPrompt_of_prompt_line _ _ Hp).
    + intros Hno. destruct (userPrompt_of line) as [q|] eqn:Eq; [|done].
      apply userPrompt_of_Some in Eq as (text&?&_). by destruct (Hno text).
Qed.

Lemma prompt_extraction_witness :
  let w := init_world with_key in
  isTargetDoc prompt_doc = true ∧
  (∀ i, in_flight w (uri prompt_doc) i = false) ∧
  extractPrompts prompt_doc = [(1, js "Create login website")] ∧
  clientCalls (detectAndEnhancePrompts prompt_doc w)
  = [js "Create login website"] ∧
  (clientCalls (detectAndEnhancePrompts prompt_doc w)
   = clientCalls w ++ (snd <$> extractPrompts prompt_doc) ∧
   pending (detectAndEnhancePrompts prompt_doc w)
   = pending w ++ ((λ q, (uri prompt_doc, q.1)) <$> extractPrompts prompt_doc)) ∧
  StronglySorted lt (fst <$> extractPrompts prompt_doc).
Proof.
  intros w.
  assert (isTargetDoc prompt_doc = true) as Ht by (vm_compute; reflexivity).
  assert (∀ i, in_flight w (uri prompt_doc) i = false) as Hw
    by (intros i; vm_compute; reflexivity).
  split; [exact Ht|]. split; [exact Hw|].
  split; [vm_compute; reflexivity|]. split; [vm_compute; reflexivity|].
  split.
  - exact (proj1 (proj2 (prompt_extraction prompt_doc Ht)) w Hw).
  - exact (proj1 (proj2 (proj2 (prompt_extraction prompt_doc Ht)))).
Defined.

(** The claim as worded fails: a comment with [PROMPT:] and text after it
    is no prompt line when the text holds a line separator, and nothing is
    extracted or requested for it. *)
Lemma line_separator_counterexample :
  isTargetDoc separator_doc = true ∧
  doc_lines separator_doc !! 1 = Some separator_line ∧
  worded_prompt_line separator_line (js " fix" ++ [8232%N] ++ js "this") ∧
  extractPrompts separator_doc = [] ∧
  clientCalls (detectAndEnhancePrompts separator_doc (init_world with_key))
  = [].
Proof.
  split_and!; try (vm_compute; reflexivity).
  exists (js "// PROMPT:"). split_and!; [reflexivity| |done].
  exists [], (js "//"), (js " "), (js "PROMPT"), [].
  split_and!; [reflexivity|constructor|by left|repeat constructor
              |reflexivity|constructor].
Qed.
